(** * Gesture-to-note trigger engine of the virtual piano (web_version/script.js)

    A shallow embedding of the per-frame pipeline of [processLandmarkerResults]
    and of the helpers it calls, followed by the properties of the
    specification that were checked against it.

    Numbers.  JavaScript numbers are IEEE doubles.  Coordinates, thresholds
    and detection rates are embedded as exact rationals ([Q]); frame counters
    as [Z]; key indices and window lengths as [nat].  The display transform,
    which needs [Math.cos] and [Math.sin], is embedded over the reals in
    [Module Transform].  Rounding is therefore outside the model; division by
    zero is not: the two crossing-number tests divide through [jsdiv], which
    keeps track of [Infinity] and [NaN].  Where rounding decides the outcome,
    for a polygon of two points, the containment test of the hit-testing loop
    is embedded a second time on binary64 numbers ([insideInlineDouble]).

    [Math.sqrt] only ever feeds a comparison ([distance > threshold], or the
    sign of [a.distance - b.distance] in a sort comparator).  Since the square
    root is increasing on non-negative numbers the embedding keeps the squared
    distance and compares squares.

    Containers.  The per-finger dictionaries and [keyDetectionHistory] are
    [gmap]s.  A JavaScript [Set] iterates in insertion order, and the limiter
    and the emitter depend on that order, so a [Set] is a duplicate-free list
    ([jsset]) with [Set.add] appending at the end. *)

From Stdlib Require Import PrimFloat.
From Stdlib Require Import Reals Lra.
From Stdlib Require Import ZArith QArith Qminmax Qabs List String Bool Lia Lqa.
From Stdlib Require Import Qpower Qround Sorted Permutation Ascii DecimalString.
From stdpp Require Import base option list gmap.

Local Open Scope Q_scope.

(** ** Numbers *)

Definition Qltb (a b : Q) : bool := negb (Qle_bool b a).
Definition Qgtb (a b : Q) : bool := Qltb b a.
Definition Qgeb (a b : Q) : bool := Qle_bool b a.

(** The result of a JavaScript division: a finite number, or what a zero
    divisor produces. *)
Inductive jsnum : Type :=
  | Finite (q : Q)
  | PlusInfinity
  | MinusInfinity
  | NotANumber.

(** [n / d].  The divisors below are differences and sums, so a zero divisor
    is [+0] and the sign of the quotient is the sign of [n]. *)
Definition jsdiv (n d : Q) : jsnum :=
  if Qeq_bool d 0 then
    match n ?= 0 with
    | Gt => PlusInfinity
    | Lt => MinusInfinity
    | Eq => NotANumber
    end
  else Finite (n / d).

Definition jsadd (r : jsnum) (q : Q) : jsnum :=
  match r with
  | Finite a => Finite (a + q)
  | other => other
  end.

(** [x < r] *)
Definition jslt (x : Q) (r : jsnum) : bool :=
  match r with
  | Finite a => Qltb x a
  | PlusInfinity => true
  | MinusInfinity | NotANumber => false
  end.

Definition isFinite (r : jsnum) : bool :=
  match r with Finite _ => true | _ => false end.

(** [Math.sqrt(d2) > t] for [0 <= d2]. *)
Definition sqrt_gt (d2 t : Q) : bool := Qltb t 0 || Qltb (t * t) d2.

(** ** JavaScript [Set] of key indices or notes, in insertion order *)

Definition jsset (A : Type) : Type := list A.

Section JsSet.
Context {A : Type} (eqb : A -> A -> bool).

Definition set_has (x : A) (s : jsset A) : bool := existsb (eqb x) s.

Definition set_add (x : A) (s : jsset A) : jsset A :=
  if set_has x s then s else s ++ [x].

Definition set_delete (x : A) (s : jsset A) : jsset A :=
  List.filter (fun y => negb (eqb x y)) s.

(** [new Set(array)] *)
Definition set_of_list (l : list A) : jsset A :=
  fold_left (fun s x => set_add x s) l [].
End JsSet.

Abbreviation has := (set_has Nat.eqb).
Abbreviation add := (set_add Nat.eqb).
Abbreviation remove := (set_delete Nat.eqb).

(** [Array.prototype.sort] is stable; [before a b] stands for
    [compare(a, b) <= 0].  Insertion from the right keeps equal elements in
    their original order. *)
Section Sort.
Context {A : Type} (before : A -> A -> bool).

Fixpoint insert_sorted (x : A) (l : list A) : list A :=
  match l with
  | [] => [x]
  | y :: l' => if before x y then x :: y :: l' else y :: insert_sorted x l'
  end.

Definition js_sort (l : list A) : list A :=
  fold_right insert_sorted [] l.
End Sort.

(** ** Keys and polygons *)

Definition point : Type := (Q * Q)%type.

Record Key : Type := mkKey {
  note : string;
  polygon : list point;
  type : string
}.

Definition sumX (pts : list point) : Q :=
  fold_left (fun sum p => sum + fst p) pts 0.
Definition sumY (pts : list point) : Q :=
  fold_left (fun sum p => sum + snd p) pts 0.

Definition len (pts : list point) : Q := inject_Z (Z.of_nat (length pts)).

(** [getPolygonCenter] *)
Definition getPolygonCenter (pts : list point) : point :=
  match pts with
  | [] => (0, 0)
  | _ => (sumX pts / len pts, sumY pts / len pts)
  end.

Record Bounds : Type := mkBounds {
  minX : Q; minY : Q; maxX : Q; maxY : Q;
  centerX : Q; centerY : Q; width : Q; height : Q
}.

(** The running [minX, minY, maxX, maxY] of [getKeysBoundingBox]; [None] is
    the initial [Infinity, Infinity, -Infinity, -Infinity]. *)
Definition extendBox (acc : option (Q * Q * Q * Q)) (pt : point)
  : option (Q * Q * Q * Q) :=
  match acc with
  | None => Some (fst pt, snd pt, fst pt, snd pt)
  | Some (x0, y0, x1, y1) =>
      Some (Qmin x0 (fst pt), Qmin y0 (snd pt), Qmax x1 (fst pt), Qmax y1 (snd pt))
  end.

(** [getKeysBoundingBox]; [None] is [null]. *)
Definition getKeysBoundingBox (keys : list Key) : option Bounds :=
  match fold_left (fun acc k => fold_left extendBox (polygon k) acc) keys None with
  | None => None
  | Some (x0, y0, x1, y1) =>
      Some (mkBounds x0 y0 x1 y1 ((x0 + x1) / 2) ((y0 + y1) / 2) (x1 - x0) (y1 - y0))
  end.

(** ** Crossing-number tests *)

(** One turn of [for (j = 0, k = poly.length - 1; j < poly.length; k = j++)]:
    [pi] is [poly[j]] and [pj] is [poly[k]]. *)
Fixpoint crossings (intersect : point -> point -> bool)
    (pj : point) (pts : list point) (inside : bool) : bool :=
  match pts with
  | [] => inside
  | pi :: rest =>
      crossings intersect pi rest (if intersect pi pj then negb inside else inside)
  end.

Definition straddles (yi yj y : Q) : bool := xorb (Qgtb yi y) (Qgtb yj y).

(** The quotient of the hit-testing loop of [processLandmarkerResults]:
    [(xj - xi) * (ty - yi) / (yj - yi)]. *)
Definition inlineQuotient (tx ty : Q) (pi pj : point) : jsnum :=
  jsdiv ((fst pj - fst pi) * (ty - snd pi)) (snd pj - snd pi).

(** [intersect] of that loop; [&&] evaluates its right operand only when the
    left one holds. *)
Definition intersectInline (tx ty : Q) (pi pj : point) : bool :=
  straddles (snd pi) (snd pj) ty
  && jslt tx (jsadd (inlineQuotient tx ty pi pj) (fst pi)).

(** The inline test of the hit-testing loop, on an already transformed point. *)
Definition insideInline (tx ty : Q) (poly : list point) : bool :=
  crossings (intersectInline tx ty) (List.last poly (0, 0)) poly false.

Definition EPSILON : Q := 1 # 10000000000.

(** The quotient of [isPointInPolygon]:
    [(xj - xi) * (y - yi) / (yj - yi + 1e-10)]. *)
Definition guardedQuotient (x y : Q) (pi pj : point) : jsnum :=
  jsdiv ((fst pj - fst pi) * (y - snd pi)) (snd pj - snd pi + EPSILON).

Definition intersectGuarded (x y : Q) (pi pj : point) : bool :=
  straddles (snd pi) (snd pj) y
  && jslt x (jsadd (guardedQuotient x y pi pj) (fst pi)).

(** The loop of [isPointInPolygon], after the point has been transformed. *)
Definition insideGuarded (x y : Q) (poly : list point) : bool :=
  crossings (intersectGuarded x y) (List.last poly (0, 0)) poly false.

(** ** Configuration

    The [let]-declared tunables of the script, which the sidebar may change
    between frames.  [default_config] holds their initial values. *)

Record Config : Type := mkConfig {
  SMOOTHING_FRAMES : nat;
  ACTIVATION_THRESHOLD : Q;
  DEACTIVATION_THRESHOLD : Q;
  MOVEMENT_THRESHOLD : Q;
  DOWNWARD_MOVEMENT_THRESHOLD : Q;
  REST_THRESHOLD_FRAMES : Z;
  TRIGGER_COOLDOWN_FRAMES : Z;
  redLinePosition : Q
}.

Definition default_config : Config :=
  mkConfig 3 (5 # 10) (3 # 10) 10 8 5 8 (68 # 100).

Definition RED_LINE_BUFFER : Q := 25 # 1000.

(** ** Hit resolver *)

Record Candidate : Type := mkCandidate {
  index : nat;
  cand_type : string;
  distance2 : Q;      (* square of [distance] *)
  isThumb : bool;
  priority : nat
}.

Record Band : Type := mkBand { upperRedBand : Q; lowerRedBand : Q }.

Definition redBand (cfg : Config) (keysBounds : Bounds) : Band :=
  let redLineY := minY keysBounds + height keysBounds * redLinePosition cfg in
  let redBufferPx := height keysBounds * RED_LINE_BUFFER in
  mkBand (redLineY - redBufferPx) (redLineY + redBufferPx).

Definition isAboveRedLine (b : Band) (ty : Q) : bool := Qltb ty (upperRedBand b).
Definition isBelowRedLine (b : Band) (ty : Q) : bool := Qgtb ty (lowerRedBand b).
Definition isInsideRedBuffer (b : Band) (ty : Q) : bool :=
  negb (isAboveRedLine b ty) && negb (isBelowRedLine b ty).

(** The two [continue] statements of the line filter: [true] when the key is
    kept. *)
Definition passesLineFilter (b : Band) (ty : Q) (k : Key) : bool :=
  if negb (isInsideRedBuffer b ty) then
    if isAboveRedLine b ty && negb (String.eqb (type k) "black") then false
    else if isBelowRedLine b ty && negb (String.eqb (type k) "white") then false
    else true
  else true.

Definition dist2 (p q : point) : Q :=
  (fst p - fst q) * (fst p - fst q) + (snd p - snd q) * (snd p - snd q).

(** The loop [for (let i = 0; i < exportKeys.length; i++)] that fills
    [fingerKeys], from key index [i] on. *)
Fixpoint collectFrom (b : Band) (thumb : bool) (tx ty : Q)
    (i : nat) (keys : list Key) : list Candidate :=
  match keys with
  | [] => []
  | k :: rest =>
      if insideInline tx ty (polygon k) && passesLineFilter b ty k then
        mkCandidate i (type k) (dist2 (tx, ty) (getPolygonCenter (polygon k)))
                    thumb (if thumb then 0 else 1)%nat
        :: collectFrom b thumb tx ty (S i) rest
      else collectFrom b thumb tx ty (S i) rest
  end.

Definition collectFingerKeys (b : Band) (thumb : bool) (tx ty : Q)
    (exportKeys : list Key) : list Candidate :=
  collectFrom b thumb tx ty 0 exportKeys.

(** The comparator of [fingerKeys.sort]: priority first, then distance. *)
Definition candidateBefore (a b : Candidate) : bool :=
  if negb (Nat.eqb (priority a) (priority b))
  then Nat.leb (priority a) (priority b)
  else Qle_bool (distance2 a) (distance2 b).

(** The key chosen for the finger: [fingerKeys[0].index], after the sort when
    there are several candidates. *)
Definition selectCandidate (fingerKeys : list Candidate) : option nat :=
  match fingerKeys with
  | [] => None
  | [c] => Some (index c)
  | _ => index <$> head (js_sort candidateBefore fingerKeys)
  end.

(** ** Per-finger motion tracker and trigger decision *)

(** [`${handIndex}_${fingerIndex}`] *)
Definition FingerId : Type := (nat * nat)%type.

Record Position : Type := mkPosition { pos_x : Q; pos_y : Q; pos_frame : Z }.

(** The six per-finger dictionaries. *)
Record FingerMaps : Type := mkFingerMaps {
  previousFingerPositions : gmap (nat * nat) Position;
  fingerKeyMapping : gmap (nat * nat) nat;
  fingerRestFrames : gmap (nat * nat) Z;
  fingerPreviousKeys : gmap (nat * nat) nat;
  fingerTriggeredKeys : gmap (nat * nat) nat;
  fingerTriggerFrames : gmap (nat * nat) Z
}.

Definition noFingers : FingerMaps := mkFingerMaps ∅ ∅ ∅ ∅ ∅ ∅.

Definition eqb_opt (o : option nat) (k : nat) : bool :=
  match o with Some j => Nat.eqb j k | None => false end.

(** What the motion tracker hands to the rest of the finger's turn. *)
Record Motion : Type := mkMotion {
  hasMovement : bool;
  hasDownwardMovement : bool;
  isAtRest : bool;
  lastTriggeredKey : option nat;
  framesSinceTrigger : Z;
  isInCooldown : bool
}.

(** From "Check for movement" to "Check cooldown": updates the rest counter
    and the previous position, and reads the trigger bookkeeping. *)
Definition trackMotion (cfg : Config) (frameCount : Z) (fid : FingerId)
    (tx ty : Q) (st : FingerMaps) : FingerMaps * Motion :=
  let '(moved, down, rest) :=
    match previousFingerPositions st !! fid with
    | Some prev =>
        let dx := tx - pos_x prev in
        let dy := ty - pos_y prev in
        let moved := sqrt_gt (dx * dx + dy * dy) (MOVEMENT_THRESHOLD cfg) in
        let down := Qgtb dy (DOWNWARD_MOVEMENT_THRESHOLD cfg) in
        (moved, down,
         if moved || down then <[fid := 0%Z]> (fingerRestFrames st)
         else <[fid := (default 0 (fingerRestFrames st !! fid) + 1)%Z]>
                (fingerRestFrames st))
    | None =>
        (false, false, <[fid := REST_THRESHOLD_FRAMES cfg]> (fingerRestFrames st))
    end in
  let st1 :=
    mkFingerMaps (<[fid := mkPosition tx ty frameCount]> (previousFingerPositions st))
                 (fingerKeyMapping st) rest (fingerPreviousKeys st)
                 (fingerTriggeredKeys st) (fingerTriggerFrames st) in
  let atRest := (REST_THRESHOLD_FRAMES cfg <=? default 0 (rest !! fid))%Z in
  let lastKey := fingerTriggeredKeys st !! fid in
  let lastTriggerFrame := default 0%Z (fingerTriggerFrames st !! fid) in
  let since := (frameCount - lastTriggerFrame)%Z in
  let cooldown := bool_decide (is_Some lastKey)
                  && (since <? TRIGGER_COOLDOWN_FRAMES cfg)%Z in
  (st1, mkMotion moved down atRest lastKey since cooldown).

(** [keyChanged] *)
Definition keyChanged (st : FingerMaps) (fid : FingerId) (selectedKeyIndex : nat)
  : bool :=
  match fingerPreviousKeys st !! fid with
  | Some previousKey => negb (Nat.eqb previousKey selectedKeyIndex)
  | None => false
  end.

Definition canTrigger (cfg : Config) (m : Motion) (st : FingerMaps)
    (fid : FingerId) (selectedKeyIndex : nat) : bool :=
  let isSameKeyAsLastTrigger := eqb_opt (lastTriggeredKey m) selectedKeyIndex in
  negb (isInCooldown m) || keyChanged st fid selectedKeyIndex
  || (isSameKeyAsLastTrigger
      && (TRIGGER_COOLDOWN_FRAMES cfg <=? framesSinceTrigger m)%Z).

Definition shouldTrigger (cfg : Config) (m : Motion) (st : FingerMaps)
    (fid : FingerId) (selectedKeyIndex : nat) : bool :=
  canTrigger cfg m st fid selectedKeyIndex
  && (hasMovement m || hasDownwardMovement m || keyChanged st fid selectedKeyIndex).

(** The sustain branch: [fingerKeyMapping[fingerId] === selectedKeyIndex &&
    hasDownwardMovement && !isAtRest]. *)
Definition sustains (m : Motion) (st : FingerMaps) (fid : FingerId)
    (selectedKeyIndex : nat) : bool :=
  eqb_opt (fingerKeyMapping st !! fid) selectedKeyIndex
  && hasDownwardMovement m && negb (isAtRest m).

(** The bookkeeping written when the finger triggers. *)
Definition recordTrigger (frameCount : Z) (fid : FingerId)
    (selectedKeyIndex : nat) (st : FingerMaps) : FingerMaps :=
  mkFingerMaps (previousFingerPositions st)
               (<[fid := selectedKeyIndex]> (fingerKeyMapping st))
               (<[fid := 0%Z]> (fingerRestFrames st))
               (<[fid := selectedKeyIndex]> (fingerPreviousKeys st))
               (<[fid := selectedKeyIndex]> (fingerTriggeredKeys st))
               (<[fid := frameCount]> (fingerTriggerFrames st)).

(** The body shared, word for word, by the branches
    [fingerKeys.length > 1] and [fingerKeys.length === 1]. *)
Definition decideTrigger (cfg : Config) (frameCount : Z) (fid : FingerId)
    (m : Motion) (selectedKeyIndex : nat)
    (st : FingerMaps) (rawDetectedKeys : jsset nat) : FingerMaps * jsset nat :=
  if shouldTrigger cfg m st fid selectedKeyIndex then
    (recordTrigger frameCount fid selectedKeyIndex st,
     add selectedKeyIndex rawDetectedKeys)
  else if sustains m st fid selectedKeyIndex then
    (st, add selectedKeyIndex rawDetectedKeys)
  else (st, rawDetectedKeys).

(** The last branch: the finger is in no key. *)
Definition clearKey (fid : FingerId) (st : FingerMaps) : FingerMaps :=
  mkFingerMaps (previousFingerPositions st)
               (delete fid (fingerKeyMapping st))
               (fingerRestFrames st)
               (delete fid (fingerPreviousKeys st))
               (fingerTriggeredKeys st) (fingerTriggerFrames st).

(** The hard gate: a resting finger is skipped. *)
Definition isSkipped (m : Motion) : bool :=
  isAtRest m && negb (hasDownwardMovement m) && negb (hasMovement m).

(** The candidates of a finger that got past the gate; [None] when the finger
    returned before hit-testing. *)
Definition fingerKeysOf (cfg : Config) (exportKeys : list Key) (thumb : bool)
    (tx ty : Q) (m : Motion) : option (list Candidate) :=
  if isSkipped m then None
  else match getKeysBoundingBox exportKeys with
       | None => None
       | Some keysBounds =>
           Some (collectFingerKeys (redBand cfg keysBounds) thumb tx ty exportKeys)
       end.

(** One turn of [allFingerPoints.forEach], from the transformed point on. *)
Definition processFinger (cfg : Config) (exportKeys : list Key) (frameCount : Z)
    (fid : FingerId) (thumb : bool) (tx ty : Q)
    (st : FingerMaps) (rawDetectedKeys : jsset nat) : FingerMaps * jsset nat :=
  let '(st1, m) := trackMotion cfg frameCount fid tx ty st in
  match fingerKeysOf cfg exportKeys thumb tx ty m with
  | None => (st1, rawDetectedKeys)
  | Some fingerKeys =>
      match selectCandidate fingerKeys with
      | Some selectedKeyIndex =>
          decideTrigger cfg frameCount fid m selectedKeyIndex st1 rawDetectedKeys
      | None => (clearKey fid st1, rawDetectedKeys)
      end
  end.

(** The key selected for the finger in this frame, if hit-testing ran and
    found one. *)
Definition selectedKey (cfg : Config) (exportKeys : list Key) (frameCount : Z)
    (fid : FingerId) (thumb : bool) (tx ty : Q) (st : FingerMaps) : option nat :=
  fingerKeysOf cfg exportKeys thumb tx ty (snd (trackMotion cfg frameCount fid tx ty st))
  ≫= selectCandidate.

(** ** Hands *)

(** The five tips read from a hand's landmarks: [landmarks[4]] and
    [[8, 12, 16, 20].map(i => landmarks[i])], in normalised coordinates. *)
Record Hand : Type := mkHand {
  thumbTip : option point;
  otherFingers : list point
}.

Section Detection.
(** [layoutCanvas.width], [layoutCanvas.height] and the inverse display
    transform, whose definition over the reals is in [Module Transform]. *)
Variables canvasWidth canvasHeight : Q.
Variable transformPointForDetection : Q -> Q -> point.

Definition toCanvas (pt : point) : point :=
  (fst pt * canvasWidth, snd pt * canvasHeight).

(** [allFingerPoints.forEach(([x, y], fingerIndex) => ...)] of one hand:
    [pts] are the remaining canvas points, [fingerIndex] the index of the
    first of them. *)
Fixpoint processFingersFrom (cfg : Config) (exportKeys : list Key)
    (frameCount : Z) (handIndex : nat) (hasThumb : bool) (fingerIndex : nat)
    (pts : list point) (st : FingerMaps) (rawDetectedKeys : jsset nat)
  : FingerMaps * jsset nat :=
  match pts with
  | [] => (st, rawDetectedKeys)
  | (x, y) :: rest =>
      let thumb := hasThumb && Nat.eqb fingerIndex 0 in
      let t := transformPointForDetection x y in
      let '(st1, raw1) :=
        processFinger cfg exportKeys frameCount (handIndex, fingerIndex) thumb
                      (fst t) (snd t) st rawDetectedKeys in
      processFingersFrom cfg exportKeys frameCount handIndex hasThumb
                         (S fingerIndex) rest st1 raw1
  end.

Definition allFingerPoints (h : Hand) : list point :=
  match thumbTip h with
  | Some thumbPoint => toCanvas thumbPoint :: map toCanvas (otherFingers h)
  | None => map toCanvas (otherFingers h)
  end.

(** [stabilizedLandmarks.forEach((landmarks, handIndex) => ...)] *)
Fixpoint processHandsFrom (cfg : Config) (exportKeys : list Key)
    (frameCount : Z) (handIndex : nat) (hands : list Hand)
    (st : FingerMaps) (rawDetectedKeys : jsset nat) : FingerMaps * jsset nat :=
  match hands with
  | [] => (st, rawDetectedKeys)
  | h :: rest =>
      let '(st1, raw1) :=
        processFingersFrom cfg exportKeys frameCount handIndex
                           (bool_decide (is_Some (thumbTip h))) 0
                           (allFingerPoints h) st rawDetectedKeys in
      processHandsFrom cfg exportKeys frameCount (S handIndex) rest st1 raw1
  end.

(** ** Concurrency limiter *)

(** [isPointInPolygon] *)
Definition isPointInPolygon (x y : Q) (poly : list point) : bool :=
  let transformed := transformPointForDetection x y in
  insideGuarded (fst transformed) (snd transformed) poly.

(** "Find which key the thumb is in": the first key, in layout order, whose
    polygon contains the point. *)
Fixpoint findThumbKey (x y : Q) (i : nat) (keys : list Key) : option nat :=
  match keys with
  | [] => None
  | k :: rest =>
      if isPointInPolygon x y (polygon k) then Some i
      else findThumbKey x y (S i) rest
  end.

(** [thumbKeyIndex] after the loop over the hands: a later hand whose thumb
    is inside some key overwrites an earlier one. *)
Definition thumbKeyIndexOf (exportKeys : list Key) (hands : list Hand)
  : option nat :=
  fold_left
    (fun thumbKeyIndex h =>
       match thumbTip h with
       | Some tip =>
           match findThumbKey (fst (toCanvas tip)) (snd (toCanvas tip)) 0 exportKeys with
           | Some i => Some i
           | None => thumbKeyIndex
           end
       | None => thumbKeyIndex
       end)
    hands None.

Definition transformTip (pt : point) : point :=
  transformPointForDetection (fst (toCanvas pt)) (snd (toCanvas pt)).

Definition thumbPositions (hands : list Hand) : list point :=
  omap (fun h => transformTip <$> thumbTip h) hands.

Definition otherFingerPositions (hands : list Hand) : list point :=
  flat_map (fun h => map transformTip (otherFingers h)) hands.

(** [Math.min] over the fingers, starting from [Infinity] ([None]); squared. *)
Definition minDistance2 (keyCenter : point) (fingers : list point) : option Q :=
  fold_left
    (fun minDistance finger =>
       let d := dist2 keyCenter finger in
       match minDistance with
       | None => Some d
       | Some m => Some (Qmin m d)
       end)
    fingers None.

(** The comparator [a.distance - b.distance] of [keysWithDistance.sort]. *)
Definition nearerOrEqual (a b : nat * option Q) : bool :=
  match snd a, snd b with
  | Some x, Some y => Qle_bool x y
  | Some _, None => true
  | None, Some _ => false
  | None, None => true
  end.

(** [keysWithDistance], sorted.  Every index of [rawDetectedKeys] was put
    there by the hit-testing loop over [exportKeys], so the lookup finds the
    key. *)
Definition keysWithDistance (exportKeys : list Key) (hands : list Hand)
    (otherKeys : list nat) : list (nat * option Q) :=
  js_sort nearerOrEqual
    (map (fun keyIndex =>
            let keyCenter :=
              getPolygonCenter (from_option polygon [] (exportKeys !! keyIndex)) in
            (keyIndex,
             minDistance2 keyCenter (thumbPositions hands ++ otherFingerPositions hands)))
         otherKeys).

Definition neqb_opt (i : nat) (o : option nat) : bool :=
  match o with Some t => negb (Nat.eqb i t) | None => true end.

(** "Limit to maximum 2 keys at a time, but always include thumb if
    present". *)
Definition limitKeys (exportKeys : list Key) (hands : list Hand)
    (rawDetectedKeys : jsset nat) : jsset nat :=
  if (2 <? length rawDetectedKeys)%nat then
    let thumbKeyIndex := thumbKeyIndexOf exportKeys hands in
    let thumbKey :=
      match thumbKeyIndex with
      | Some t => if has t rawDetectedKeys then Some t else None
      | None => None
      end in
    let otherKeys := List.filter (fun i => neqb_opt i thumbKeyIndex) rawDetectedKeys in
    let sorted := keysWithDistance exportKeys hands otherKeys in
    match thumbKey with
    | Some t =>
        match sorted with
        | nearest :: _ => add (fst nearest) [t]
        | [] => [t]
        end
    | None => fold_left (fun s k => add (fst k) s) (firstn 2 sorted) []
    end
  else rawDetectedKeys.
End Detection.

(** ** Hysteresis smoother *)

(** [history.push(sample)], then one [shift()] when the window is exceeded. *)
Definition pushSample (cfg : Config) (sample : nat) (history : list nat) : list nat :=
  let pushed := history ++ [sample] in
  if (SMOOTHING_FRAMES cfg <? length pushed)%nat then tail pushed else pushed.

Definition sample (rawDetectedKeys : jsset nat) (i : nat) : nat :=
  if has i rawDetectedKeys then 1%nat else 0%nat.

(** "Update detection history for smoothing": one turn of the first
    [exportKeys.forEach]. *)
Definition recordDetection (cfg : Config) (rawDetectedKeys : jsset nat)
    (keyDetectionHistory : gmap nat (list nat)) (i : nat) : gmap nat (list nat) :=
  <[i := pushSample cfg (sample rawDetectedKeys i)
                    (default [] (keyDetectionHistory !! i))]> keyDetectionHistory.

Definition updateHistory (cfg : Config) (rawDetectedKeys : jsset nat)
    (exportKeys : list Key) (keyDetectionHistory : gmap nat (list nat))
  : gmap nat (list nat) :=
  fold_left (recordDetection cfg rawDetectedKeys)
            (seq 0 (length exportKeys)) keyDetectionHistory.

(** [history.reduce((sum, val) => sum + val, 0) / history.length] *)
Definition detectionRate (history : list nat) : Q :=
  inject_Z (Z.of_nat (fold_left Nat.add history 0%nat))
  / inject_Z (Z.of_nat (length history)).

(** "Apply smoothing": one turn of the second [exportKeys.forEach]. *)
Definition smoothKey (cfg : Config) (rawDetectedKeys : jsset nat)
    (st : gmap nat (list nat) * jsset nat) (i : nat)
  : gmap nat (list nat) * jsset nat :=
  let '(keyDetectionHistory, smoothedActiveKeys) := st in
  match default [] (keyDetectionHistory !! i) with
  | [] =>
      if has i rawDetectedKeys then
        (<[i := repeat 1%nat (SMOOTHING_FRAMES cfg)]> keyDetectionHistory,
         add i smoothedActiveKeys)
      else st
  | history =>
      let rate := detectionRate history in
      let isCurrentlyActive := has i smoothedActiveKeys in
      if negb isCurrentlyActive && Qgeb rate (ACTIVATION_THRESHOLD cfg) then
        (keyDetectionHistory, add i smoothedActiveKeys)
      else if isCurrentlyActive && Qltb rate (DEACTIVATION_THRESHOLD cfg) then
        (keyDetectionHistory, remove i smoothedActiveKeys)
      else st
  end.

Definition applySmoothing (cfg : Config) (rawDetectedKeys : jsset nat)
    (exportKeys : list Key) (st : gmap nat (list nat) * jsset nat)
  : gmap nat (list nat) * jsset nat :=
  fold_left (smoothKey cfg rawDetectedKeys) (seq 0 (length exportKeys)) st.

(** The [allKeys.forEach] of the branch taken when no hand is detected: a
    second "not detected" sample and a second release test. *)
Definition drainKey (cfg : Config) (st : gmap nat (list nat) * jsset nat) (i : nat)
  : gmap nat (list nat) * jsset nat :=
  let '(keyDetectionHistory, smoothedActiveKeys) := st in
  let history := pushSample cfg 0 (default [] (keyDetectionHistory !! i)) in
  let keyDetectionHistory' := <[i := history]> keyDetectionHistory in
  match history with
  | [] => (keyDetectionHistory', smoothedActiveKeys)
  | _ =>
      if has i smoothedActiveKeys
         && Qltb (detectionRate history) (DEACTIVATION_THRESHOLD cfg)
      then (keyDetectionHistory', remove i smoothedActiveKeys)
      else (keyDetectionHistory', smoothedActiveKeys)
  end.

Definition drainAll (cfg : Config) (exportKeys : list Key)
    (st : gmap nat (list nat) * jsset nat) : gmap nat (list nat) * jsset nat :=
  fold_left (drainKey cfg) (seq 0 (length exportKeys)) st.

(** ** Event emitter *)

(** A call of [tryPlayNote] or of [stopNote]. *)
Inductive Event : Type :=
  | NoteOn (n : string)
  | NoteOff (n : string).

(** [polygon.reduce((sum, p) => sum + p[0], 0) / polygon.length]; [None] is the
    [NaN] of an empty polygon. *)
Definition centerXOf (k : Key) : option Q :=
  match polygon k with
  | [] => None
  | pts => Some (sumX pts / len pts)
  end.

(** [aCenterX - bCenterX <= 0]; a [NaN] comparator result counts as [0]. *)
Definition leftOf (a b : nat * Key) : bool :=
  match centerXOf (snd a), centerXOf (snd b) with
  | Some x, Some y => Qle_bool x y
  | _, _ => true
  end.

(** The note diff of a frame with hands.  [None] is the [TypeError] raised
    when a hovered index is outside the layout. *)
Definition emitWithHands (exportKeys : list Key) (hoveredKeyIndices : jsset nat)
    (currentlyHoveredNotes : jsset string) : option (list Event * jsset string) :=
  hovered ← mapM (fun i => (fun k => (i, k)) <$> exportKeys !! i) hoveredKeyIndices;
  let sortedIndices := js_sort leftOf hovered in
  let newHoveredNotes :=
    set_of_list String.eqb (map (fun ik => note (snd ik)) sortedIndices) in
  let started :=
    List.filter (fun n => negb (set_has String.eqb n currentlyHoveredNotes))
                newHoveredNotes in
  let stopped :=
    List.filter (fun n => negb (set_has String.eqb n newHoveredNotes))
                currentlyHoveredNotes in
  Some (map NoteOn started ++ map NoteOff stopped, newHoveredNotes).

(** "Stop all notes if no keys are hovered", in the branch without hands. *)
Definition emitWithoutHands (hoveredKeyIndices : jsset nat)
    (currentlyHoveredNotes : jsset string) : list Event * jsset string :=
  match hoveredKeyIndices with
  | [] => (map NoteOff currentlyHoveredNotes, [])
  | _ => ([], currentlyHoveredNotes)
  end.

(** ** Rendering: which keys [drawAllKeys] hands to [drawPoly] *)

Record DrawCall : Type := mkDrawCall { drawnIndex : nat; highlight : bool }.

Definition indexed (exportKeys : list Key) : list (nat * Key) :=
  imap (fun i k => (i, k)) exportKeys.

(** One of the two [sortedKeys.forEach] passes. *)
Definition drawPass (keyType : string) (hoveredIndices : jsset nat)
    (sortedKeys : list (nat * Key)) : list DrawCall :=
  omap (fun ik =>
          match polygon (snd ik) with
          | [] => None                                   (* "Skip invalid keys" *)
          | _ => if String.eqb (type (snd ik)) keyType
                 then Some (mkDrawCall (fst ik) (has (fst ik) hoveredIndices))
                 else None
          end)
       sortedKeys.

Definition drawAllKeys (exportKeys : list Key) (hoveredIndices : jsset nat)
  : list DrawCall :=
  let sortedKeys := js_sort leftOf (indexed exportKeys) in
  drawPass "white" hoveredIndices sortedKeys
  ++ drawPass "black" hoveredIndices sortedKeys.

(** ** The frame *)

Record Engine : Type := mkEngine {
  fingers : FingerMaps;
  keyDetectionHistory : gmap nat (list nat);
  smoothedActiveKeys : jsset nat;
  hoveredKeyIndices : jsset nat;
  currentlyHoveredNotes : jsset string
}.

Definition initialEngine : Engine := mkEngine noFingers ∅ [] [] [].

(** "Clean up old finger positions": a finger not seen in the last 10 frames
    loses its entry in each of the six dictionaries. *)
Definition isStale (frameCount : Z) (positions : gmap (nat * nat) Position)
    (fid : FingerId) : bool :=
  match positions !! fid with
  | Some p => (10 <? frameCount - pos_frame p)%Z
  | None => false
  end.

Definition purge {V : Type} (frameCount : Z) (positions : gmap (nat * nat) Position)
    (m : gmap (nat * nat) V) : gmap (nat * nat) V :=
  filter (fun kv => isStale frameCount positions (fst kv) = false) m.

Definition cleanUp (frameCount : Z) (st : FingerMaps) : FingerMaps :=
  let positions := previousFingerPositions st in
  mkFingerMaps (purge frameCount positions positions)
               (purge frameCount positions (fingerKeyMapping st))
               (purge frameCount positions (fingerRestFrames st))
               (purge frameCount positions (fingerPreviousKeys st))
               (purge frameCount positions (fingerTriggeredKeys st))
               (purge frameCount positions (fingerTriggerFrames st)).

(** Stages 6-8 of a frame, from the limited [rawDetectedKeys] on;
    [handsDetected] is [stabilizedLandmarks.length > 0].  The second component
    is the list of emitted events, or [None] when the emitter raised. *)
Definition smoothAndEmit (cfg : Config) (exportKeys : list Key)
    (handsDetected : bool) (rawDetectedKeys : jsset nat) (e : Engine)
  : Engine * option (list Event) :=
  let history1 := updateHistory cfg rawDetectedKeys exportKeys (keyDetectionHistory e) in
  let '(history2, active2) :=
    applySmoothing cfg rawDetectedKeys exportKeys (history1, smoothedActiveKeys e) in
  if handsDetected then
    match emitWithHands exportKeys active2 (currentlyHoveredNotes e) with
    | Some (events, notes) =>
        (mkEngine (fingers e) history2 active2 active2 notes, Some events)
    | None =>
        (mkEngine (fingers e) history2 active2 active2 (currentlyHoveredNotes e), None)
    end
  else
    let '(history3, active3) := drainAll cfg exportKeys (history2, active2) in
    let '(events, notes) := emitWithoutHands active3 (currentlyHoveredNotes e) in
    (mkEngine noFingers history3 active3 active3 notes, Some events).

Section Frame.
Variables canvasWidth canvasHeight : Q.
Variable transformPointForDetection : Q -> Q -> point.

(** [processLandmarkerResults], from the stabilised landmarks on.  With no
    keys loaded the frame returns at once. *)
Definition processLandmarkerResults (cfg : Config) (exportKeys : list Key)
    (frameCount : Z) (stabilizedLandmarks : list Hand) (e : Engine)
  : Engine * option (list Event) :=
  match exportKeys with
  | [] => (e, Some [])
  | _ =>
      let '(fingers1, raw) :=
        processHandsFrom canvasWidth canvasHeight transformPointForDetection
                         cfg exportKeys frameCount 0 stabilizedLandmarks
                         (fingers e) [] in
      let limited :=
        limitKeys canvasWidth canvasHeight transformPointForDetection
                  exportKeys stabilizedLandmarks raw in
      let handsDetected := negb (Nat.eqb (length stabilizedLandmarks) 0) in
      let e1 := mkEngine fingers1 (keyDetectionHistory e) (smoothedActiveKeys e)
                         (hoveredKeyIndices e) (currentlyHoveredNotes e) in
      match smoothAndEmit cfg exportKeys handsDetected limited e1 with
      | (e2, Some events) =>
          (mkEngine (cleanUp frameCount (fingers e2)) (keyDetectionHistory e2)
                    (smoothedActiveKeys e2) (hoveredKeyIndices e2)
                    (currentlyHoveredNotes e2),
           Some events)
      | (e2, None) => (e2, None)
      end
  end.
End Frame.

(** ** The display transform and its inverse, over the reals *)

Module Transform.
Local Open Scope R_scope.

Record PianoTransform : Type := mkPianoTransform {
  scale : R;
  translateX : R;
  translateY : R;
  rotation : R;          (* degrees *)
  flipH : bool;
  flipV : bool
}.

(** The two fields of [getKeysBoundingBox(exportKeys)] that the transforms
    read. *)
Record BoundsCenter : Type := mkBoundsCenter { centerX : R; centerY : R }.

(** The current transformation matrix of a 2-D canvas context: a point
    [(x, y)] of the path is drawn at [(a x + c y + e, b x + d y + f)]. *)
Record Matrix : Type := mkMatrix { a : R; b : R; c : R; d : R; e : R; f : R }.

Definition identity : Matrix := mkMatrix 1 0 0 1 0 0.

Definition apply (m : Matrix) (p : R * R) : R * R :=
  (a m * fst p + c m * snd p + e m, b m * fst p + d m * snd p + f m).

(** [ctx.translate], [ctx.rotate] and [ctx.scale] multiply the current
    matrix on the right. *)
Definition translate (tx ty : R) (m : Matrix) : Matrix :=
  mkMatrix (a m) (b m) (c m) (d m)
           (a m * tx + c m * ty + e m) (b m * tx + d m * ty + f m).

Definition rotate (angle : R) (m : Matrix) : Matrix :=
  mkMatrix (a m * cos angle + c m * sin angle) (b m * cos angle + d m * sin angle)
           (c m * cos angle - a m * sin angle) (d m * cos angle - b m * sin angle)
           (e m) (f m).

Definition scaleBy (sx sy : R) (m : Matrix) : Matrix :=
  mkMatrix (a m * sx) (b m * sx) (c m * sy) (d m * sy) (e m) (f m).

Definition sign (flip : bool) : R := if flip then -1 else 1.

Section Canvas.
Variables canvasWidth canvasHeight : R.
Variable pianoTransform : PianoTransform.
Variable keysBounds : option BoundsCenter.

(** The matrix [drawAllKeys] sets up before drawing the polygons. *)
Definition displayMatrix : Matrix :=
  match keysBounds with
  | Some kb =>
      let canvasCenterX := canvasWidth / 2 in
      let canvasCenterY := canvasHeight / 2 in
      translate (- centerX kb) (- centerY kb)
        (scaleBy (scale pianoTransform * sign (flipH pianoTransform))
                 (scale pianoTransform * sign (flipV pianoTransform))
           (rotate (rotation pianoTransform * PI / 180)
              (translate (canvasCenterX + translateX pianoTransform)
                         (canvasCenterY + translateY pianoTransform)
                         identity)))
  | None => identity
  end.

(** Where a point of layout space is drawn. *)
Definition toScreenSpace (p : R * R) : R * R := apply displayMatrix p.

(** [transformPointForDetection] *)
Definition transformPointForDetection (x y : R) : R * R :=
  match keysBounds with
  | None => (x, y)
  | Some kb =>
      let canvasCenterX := canvasWidth / 2 in
      let canvasCenterY := canvasHeight / 2 in
      let tx := x - canvasCenterX - translateX pianoTransform in
      let ty := y - canvasCenterY - translateY pianoTransform in
      let angle := - (rotation pianoTransform * PI) / 180 in
      let cos := cos angle in
      let sin := sin angle in
      let rx := tx * cos - ty * sin in
      let ry := tx * sin + ty * cos in
      let sx := rx / scale pianoTransform in
      let sy := ry / scale pianoTransform in
      let fx := if flipH pianoTransform then - sx else sx in
      let fy := if flipV pianoTransform then - sy else sy in
      (fx + centerX kb, fy + centerY kb)
  end.
End Canvas.
End Transform.

(** ** One key through the smoother

    The smoothing stage of a frame touches, for key [i], only
    [keyDetectionHistory[i]] and the membership of [i] in
    [smoothedActiveKeys]; [keyFrame] is that effect (lemma [smoothFrame_key]
    below), and [nextActive] the hysteresis rule it applies. *)

Definition nextActive (cfg : Config) (isCurrentlyActive : bool) (rate : Q) : bool :=
  if negb isCurrentlyActive && Qgeb rate (ACTIVATION_THRESHOLD cfg) then true
  else if isCurrentlyActive && Qltb rate (DEACTIVATION_THRESHOLD cfg) then false
  else isCurrentlyActive.

Definition keyFrame (cfg : Config) (asserted : bool) (ks : list nat * bool)
  : list nat * bool :=
  match pushSample cfg (if asserted then 1 else 0)%nat (fst ks) with
  | [] => if asserted then (repeat 1%nat (SMOOTHING_FRAMES cfg), true) else ([], snd ks)
  | history => (history, nextActive cfg (snd ks) (detectionRate history))
  end.

(** The active/inactive state of the key after each of a run of frames. *)
Fixpoint keyTrace (cfg : Config) (samples : list bool) (ks : list nat * bool)
  : list bool :=
  match samples with
  | [] => []
  | s :: rest => snd (keyFrame cfg s ks) :: keyTrace cfg rest (keyFrame cfg s ks)
  end.

Definition keyRun (cfg : Config) (samples : list bool) (ks : list nat * bool)
  : list nat * bool :=
  fold_left (fun ks s => keyFrame cfg s ks) samples ks.

(** The smoothing stage of one frame, and of a run of frames with hands. *)
Definition smoothFrame (cfg : Config) (exportKeys : list Key)
    (st : gmap nat (list nat) * jsset nat) (rawDetectedKeys : jsset nat)
  : gmap nat (list nat) * jsset nat :=
  applySmoothing cfg rawDetectedKeys exportKeys
    (updateHistory cfg rawDetectedKeys exportKeys (fst st), snd st).

Fixpoint activeTrace (cfg : Config) (exportKeys : list Key)
    (raws : list (jsset nat)) (st : gmap nat (list nat) * jsset nat)
  : list (jsset nat) :=
  match raws with
  | [] => []
  | raw :: rest =>
      snd (smoothFrame cfg exportKeys st raw)
      :: activeTrace cfg exportKeys rest (smoothFrame cfg exportKeys st raw)
  end.

Definition smoothRun (cfg : Config) (exportKeys : list Key)
    (raws : list (jsset nat)) (st : gmap nat (list nat) * jsset nat)
  : gmap nat (list nat) * jsset nat :=
  fold_left (smoothFrame cfg exportKeys) raws st.

(** How often a state sequence that starts in [prev] steps from [from] to
    [to]. *)
Fixpoint countEdges (from to : bool) (prev : bool) (states : list bool) : nat :=
  match states with
  | [] => 0
  | s :: rest =>
      ((if Bool.eqb prev from && Bool.eqb s to then 1 else 0)
       + countEdges from to s rest)%nat
  end.

Definition activations : bool -> list bool -> nat := countEdges false true.
Definition deactivations : bool -> list bool -> nat := countEdges true false.

(** Samples are 0 or 1 and the window is not exceeded. *)
Definition validHistory (cfg : Config) (history : list nat) : Prop :=
  Forall (fun s => (s <= 1)%nat) history
  /\ (length history <= SMOOTHING_FRAMES cfg)%nat.

(** The state in which key [i] gets its turn in the second [forEach]. *)
Definition turnOf (cfg : Config) (raw : jsset nat)
    (st : gmap nat (list nat) * jsset nat) (i : nat)
  : gmap nat (list nat) * jsset nat :=
  fold_left (smoothKey cfg raw) (seq 0 i) st.

(** The rate has reached the threshold that moves a key to state [s]. *)
Definition settled (cfg : Config) (s : bool) (rate : Q) : Prop :=
  if s then ACTIVATION_THRESHOLD cfg <= rate else rate < DEACTIVATION_THRESHOLD cfg.

Definition bit (s : bool) : nat := if s then 1%nat else 0%nat.

Definition iq (n : nat) : Q := inject_Z (Z.of_nat n).

(** The running bounding box keeps its lower ordinate below its upper one. *)
Definition orderedBox (acc : option (Q * Q * Q * Q)) : Prop :=
  match acc with
  | Some (_, y0, _, y1) => y0 <= y1
  | None => True
  end.


(** ** Runs of frames *)

(** What a frame receives: the layout in force, [frameCount], and the
    stabilised landmarks. *)
Record FrameInput : Type := mkFrameInput {
  layout : list Key;
  frame : Z;
  hands : list Hand
}.

Section Runs.
Variables canvasWidth canvasHeight : Q.
Variable transformPointForDetection : Q -> Q -> point.

(** The engine after a sequence of frames under one configuration. *)
Definition runFrames (cfg : Config) (inputs : list FrameInput) (e : Engine)
  : Engine :=
  fold_left
    (fun e f =>
       fst (processLandmarkerResults canvasWidth canvasHeight
              transformPointForDetection cfg (layout f) (frame f) (hands f) e))
    inputs e.
End Runs.

(** No stored window is longer than [SMOOTHING_FRAMES]. *)
Definition boundedHistory (cfg : Config) (hist : gmap nat (list nat)) : Prop :=
  forall i h, hist !! i = Some h -> (length h <= SMOOTHING_FRAMES cfg)%nat.

(** ** Layouts and finger states used in the examples *)

Definition rect (x0 y0 x1 y1 : Q) : list point :=
  [(x0, y0); (x1, y0); (x1, y1); (x0, y1)].

(** Two white keys side by side; the separator line is at ordinate 6.8 with a
    dead-band from 6.55 to 7.05. *)
Definition twoWhites : list Key :=
  [mkKey "C3" (rect 0 0 50 10) "white"; mkKey "D3" (rect 50 0 100 10) "white"].

Definition indexFinger : FingerId := (0, 1)%nat.

(** The index finger is first seen at (45, 8) in frame 2 and strikes the first
    key at (20, 8) in frame 4. *)
Definition seen : FingerMaps :=
  fst (processFinger default_config twoWhites 2 indexFinger false 45 8 noFingers []).

Definition struck : FingerMaps :=
  fst (processFinger default_config twoWhites 4 indexFinger false 20 8 seen []).

(** A white key, the black key that overlaps its right part, and two more
    white keys, in layout order (sorted by centre abscissa).  The separator
    line is at ordinate 204 with a dead-band from 196.5 to 211.5. *)
Definition overlapping : list Key :=
  [mkKey "C3" (rect 0 0 200 300) "white";
   mkKey "C#3" (rect 150 0 250 200) "black";
   mkKey "D3" (rect 200 0 400 300) "white";
   mkKey "E3" (rect 400 0 600 300) "white"].

(** The identity is [transformPointForDetection] for a layout centred where
    the user's translation puts it, at scale 1, without rotation or flip. *)
Definition noTransform (x y : Q) : point := (x, y).

(** A landmark given in canvas pixels, normalised for a 1280 x 720 canvas. *)
Definition tip (x y : Q) : point := (x / 1280, y / 720).

Definition handAt (thumb index middle ring pinky : point) : Hand :=
  mkHand (Some thumb) [index; middle; ring; pinky].

(** One hand enters the picture in frame 2 and in frame 4 its thumb lands on
    the left part of the black key while index and middle finger land on the
    third and fourth key. *)
Definition entering : Hand :=
  handAt (tip 160 30) (tip 300 240) (tip 500 240) (tip 700 400) (tip 750 400).

Definition chord : Hand :=
  handAt (tip 160 10) (tip 300 220) (tip 500 220) (tip 700 400) (tip 750 400).

Definition entered : FingerMaps :=
  fst (processHandsFrom 1280 720 noTransform default_config overlapping 2 0
                        [entering] noFingers []).

Definition chordKeys : jsset nat :=
  snd (processHandsFrom 1280 720 noTransform default_config overlapping 4 0
                        [chord] entered []).

Definition twoWhitesBounds : Bounds :=
  Eval vm_compute in
    default (mkBounds 0 0 0 0 0 0 0 0) (getKeysBoundingBox twoWhites).

(** The engine after a run of frames with hands on [twoWhites], given the
    limited key sets of those frames. *)
Definition held (raws : list (jsset nat)) : Engine :=
  fold_left (fun e raw => fst (smoothAndEmit default_config twoWhites true raw e))
            raws initialEngine.

(** Both keys are asserted for three frames, then only the second for two. *)
Definition secondKeyHeld : Engine :=
  held [[0; 1]; [0; 1]; [0; 1]; [1]; [1]]%nat.

(** Layouts whose first key has only two vertices, or none. *)
Definition segmentKey : Key := mkKey "C3" [(0, 0); (10, 10)] "white".
Definition emptyKey : Key := mkKey "C3" [] "white".

Definition withSegment : list Key :=
  [segmentKey; mkKey "D3" (rect 50 0 100 10) "white"].

Definition withEmpty : list Key :=
  [emptyKey; mkKey "D3" (rect 50 0 100 10) "white"].

(** ** The containment test of the hit-testing loop, in doubles

    The loop computes the crossing abscissa
    [(xj - xi) * (ty - yi) / (yj - yi) + xi] on IEEE doubles, rounding after
    each operation.  [insideInlineDouble] is [insideInline] on binary64
    numbers: the same loop, with the comparisons and the arithmetic of the
    script. *)

Definition dpoint : Type := (float * float)%type.

Fixpoint crossingsDouble (intersect : dpoint -> dpoint -> bool)
    (pj : dpoint) (pts : list dpoint) (inside : bool) : bool :=
  match pts with
  | [] => inside
  | pi :: rest =>
      crossingsDouble intersect pi rest
                      (if intersect pi pj then negb inside else inside)
  end.

(** [(yi > ty) !== (yj > ty)] *)
Definition straddlesDouble (yi yj y : float) : bool :=
  xorb (y <? yi)%float (y <? yj)%float.

Definition intersectInlineDouble (tx ty : float) (pi pj : dpoint) : bool :=
  straddlesDouble (snd pi) (snd pj) ty
  && (tx <? (fst pj - fst pi) * (ty - snd pi) / (snd pj - snd pi) + fst pi)%float.

Definition insideInlineDouble (tx ty : float) (poly : list dpoint) : bool :=
  crossingsDouble (intersectInlineDouble tx ty) (List.last poly (0, 0)%float)
                  poly false.

(** A polygon of two points, and the point (755.5555555555567,
    520.000000000001) next to its segment. *)
Definition segmentDouble : list dpoint := [(400, 200); (900, 650)]%float.

Definition besideSegment : dpoint :=
  (0x1.79c71c71c71d1p+9, 0x1.0400000000009p+9)%float.

(** ** Further notions used in the properties below *)

(** All vertices of a layout, in the order [getKeysBoundingBox] visits
    them. *)
Definition allVertices (keys : list Key) : list point := flat_map polygon keys.

(** The running box covers the point. *)
Definition covers (acc : option (Q * Q * Q * Q)) (p : point) : Prop :=
  match acc with
  | Some (x0, y0, x1, y1) => x0 <= fst p <= x1 /\ y0 <= snd p <= y1
  | None => False
  end.

(** Each side of the running box goes through one of the points. *)
Definition touches (acc : option (Q * Q * Q * Q)) (pts : list point) : Prop :=
  match acc with
  | Some (x0, y0, x1, y1) =>
      (exists p, In p pts /\ fst p == x0) /\ (exists p, In p pts /\ snd p == y0)
      /\ (exists p, In p pts /\ fst p == x1) /\ (exists p, In p pts /\ snd p == y1)
  | None => True
  end.

(** The index finger is first seen over the third key of [overlapping] in
    frame 2 and presses it in frame 4. *)
Definition hovering : FingerMaps :=
  fst (processFinger default_config overlapping 2 indexFinger false 300 220 noFingers []).

Definition pressed : FingerMaps :=
  fst (processFinger default_config overlapping 4 indexFinger false 300 240 hovering []).

(** What one finger asserts, frame after frame, when it is found at the same
    transformed point in each of them. *)
Fixpoint fingerOutputs (cfg : Config) (exportKeys : list Key) (fid : FingerId)
    (thumb : bool) (tx ty : Q) (frames : list Z) (st : FingerMaps)
  : list (jsset nat) :=
  match frames with
  | [] => []
  | frameCount :: rest =>
      snd (processFinger cfg exportKeys frameCount fid thumb tx ty st [])
      :: fingerOutputs cfg exportKeys fid thumb tx ty rest
           (fst (processFinger cfg exportKeys frameCount fid thumb tx ty st []))
  end.

(** The key hit-testing selects at a point, for a finger that is not skipped. *)
Definition keyAt (cfg : Config) (exportKeys : list Key) (thumb : bool) (tx ty : Q)
  : option nat :=
  match getKeysBoundingBox exportKeys with
  | None => None
  | Some keysBounds =>
      selectCandidate (collectFingerKeys (redBand cfg keysBounds) thumb tx ty exportKeys)
  end.

Definition asserts (raw : jsset nat) : bool := negb (Nat.eqb (length raw) 0).

(** The distance the limiter sorts a key by: from the key's centre to the
    nearest fingertip of any hand, squared; [None] is [Infinity]. *)
Definition fingerDistance2 (canvasWidth canvasHeight : Q)
    (transformPointForDetection : Q -> Q -> point)
    (exportKeys : list Key) (hands : list Hand) (keyIndex : nat) : option Q :=
  minDistance2
    (getPolygonCenter (from_option polygon [] (exportKeys !! keyIndex)))
    (thumbPositions canvasWidth canvasHeight transformPointForDetection hands
     ++ otherFingerPositions canvasWidth canvasHeight transformPointForDetection hands).

(** Every active key is a key of the layout. *)
Definition inLayout (exportKeys : list Key) (active : jsset nat) : Prop :=
  forall i, In i active -> (i < length exportKeys)%nat.

(** The last [k] samples of a history, or all of them, are zeros. *)
Definition zeroTail (k : nat) (history : list nat) : Prop :=
  forall j x, history !! j = Some x -> (length history <= j + k)%nat -> x = 0%nat.

Section Traces.
Variables canvasWidth canvasHeight : Q.
Variable transformPointForDetection : Q -> Q -> point.

(** What the emitter did in each frame of a run: the events of the frame,
    or [None] where it raised. *)
Fixpoint eventTrace (cfg : Config) (inputs : list FrameInput) (e : Engine)
  : list (option (list Event)) :=
  match inputs with
  | [] => []
  | f :: rest =>
      snd (processLandmarkerResults canvasWidth canvasHeight
             transformPointForDetection cfg (layout f) (frame f) (hands f) e)
      :: eventTrace cfg rest
           (fst (processLandmarkerResults canvasWidth canvasHeight
                   transformPointForDetection cfg (layout f) (frame f) (hands f) e))
  end.
End Traces.

(** A hand enters and strikes a chord on [overlapping]; then the hands are
    out of the picture for two frames. *)
Definition session : list FrameInput :=
  [mkFrameInput overlapping 2 [entering]; mkFrameInput overlapping 4 [chord]].

Definition handsAway : list FrameInput :=
  [mkFrameInput overlapping 6 []; mkFrameInput overlapping 8 []].

(** A fingertip, given in canvas coordinates, is in key [k] on the right side
    of the separator line. *)
Definition fingerIn (transformPointForDetection : Q -> Q -> point) (cfg : Config)
    (exportKeys : list Key) (pt : point) (k : nat) : Prop :=
  exists key keysBounds,
    exportKeys !! k = Some key
    /\ getKeysBoundingBox exportKeys = Some keysBounds
    /\ insideInline (fst (transformPointForDetection (fst pt) (snd pt)))
                    (snd (transformPointForDetection (fst pt) (snd pt)))
                    (polygon key) = true
    /\ passesLineFilter (redBand cfg keysBounds)
                        (snd (transformPointForDetection (fst pt) (snd pt))) key = true.

(** ** Landmark stabiliser *)

Record Landmark : Type := mkLandmark { lx : Q; ly : Q; lz : Q }.

(** [cachedHand[idx].x += (point.x - cachedHand[idx].x) * LANDMARK_SMOOTHING_ALPHA],
    and the same for [y] and [z]. *)
Definition blend (alpha : Q) (cached pt : Landmark) : Landmark :=
  mkLandmark (lx cached + (lx pt - lx cached) * alpha)
             (ly cached + (ly pt - ly cached) * alpha)
             (lz cached + (lz pt - lz cached) * alpha).

(** [handLandmarks.forEach((point, idx) => ...)] on a cached hand: a landmark
    the cache has no entry for is copied. *)
Fixpoint stabilizeHand (alpha : Q) (cachedHand handLandmarks : list Landmark)
  : list Landmark :=
  match cachedHand, handLandmarks with
  | cached :: cachedRest, pt :: rest =>
      blend alpha cached pt :: stabilizeHand alpha cachedRest rest
  | [], rest => rest
  | cachedRest, [] => cachedRest
  end.

(** [rawLandmarks.forEach((handLandmarks, handIndex) => ...)]: a hand the cache
    has no entry for is copied. *)
Fixpoint stabilizeHands (alpha : Q) (cache rawLandmarks : list (list Landmark))
  : list (list Landmark) :=
  match cache, rawLandmarks with
  | cachedHand :: cacheRest, handLandmarks :: rest =>
      stabilizeHand alpha cachedHand handLandmarks :: stabilizeHands alpha cacheRest rest
  | [], rest => rest
  | cacheRest, [] => cacheRest
  end.

(** [stabilizeLandmarks]: the new [stabilizedLandmarksCache] and the returned
    copy of it. *)
Definition stabilizeLandmarks (alpha : Q) (stabilizedLandmarksCache : list (list Landmark))
    (rawLandmarks : list (list Landmark))
  : list (list Landmark) * list (list Landmark) :=
  match rawLandmarks with
  | [] => ([], [])
  | _ =>
      let cache :=
        firstn (length rawLandmarks)
               (stabilizeHands alpha stabilizedLandmarksCache rawLandmarks) in
      (cache, cache)
  end.

(** The cache after a run of frames. *)
Definition stabilizeRun (alpha : Q) (frames : list (list (list Landmark)))
    (cache : list (list Landmark)) : list (list Landmark) :=
  fold_left (fun cache rawLandmarks => fst (stabilizeLandmarks alpha cache rawLandmarks))
            frames cache.

(** The three coordinates of [a - b] are [r] times those of [c - d]. *)
Definition offsetScaled (r : Q) (a b c d : Landmark) : Prop :=
  lx a - lx b == r * (lx c - lx d)
  /\ ly a - ly b == r * (ly c - ly d)
  /\ lz a - lz b == r * (lz c - lz d).

(** Each coordinate of [m] lies between those of [a] and [b]. *)
Definition between (a m b : Landmark) : Prop :=
  Qmin (lx a) (lx b) <= lx m <= Qmax (lx a) (lx b)
  /\ Qmin (ly a) (ly b) <= ly m <= Qmax (ly a) (ly b)
  /\ Qmin (lz a) (lz b) <= lz m <= Qmax (lz a) (lz b).

(** The first five keys of an octave: three white keys and the two black keys
    between them. *)
Definition fiveKeys : list Key :=
  [mkKey "C3" (rect 0 0 100 300) "white";
   mkKey "C#3" (rect 70 0 130 200) "black";
   mkKey "D3" (rect 100 0 200 300) "white";
   mkKey "D#3" (rect 170 0 230 200) "black";
   mkKey "E3" (rect 200 0 300 300) "white"].

(** One hand of two landmarks, cached and as detected in the next frames. *)
Definition cachedHands : list (list Landmark) :=
  [[mkLandmark 0 0 0; mkLandmark (1 # 2) (1 # 2) 0]].

Definition detectedHands : list (list Landmark) :=
  [[mkLandmark 1 1 0; mkLandmark (1 # 2) 1 0]].

(** The per-finger dictionaries agree with each other: a finger has the same
    entry in [fingerKeyMapping] and in [fingerPreviousKeys], it has a trigger
    frame exactly when it has a triggered key, and it has a triggered key
    whenever it has a key assigned. *)
Definition consistentFingers (st : FingerMaps) : Prop :=
  forall fid : FingerId,
    fingerKeyMapping st !! fid = fingerPreviousKeys st !! fid
    /\ (is_Some (fingerTriggeredKeys st !! fid)
        <-> is_Some (fingerTriggerFrames st !! fid))
    /\ (is_Some (fingerKeyMapping st !! fid)
        -> is_Some (fingerTriggeredKeys st !! fid)).

(** ** Layout generator *)

Definition VIDEO_WIDTH : Q := 1280.
Definition VIDEO_HEIGHT : Q := 720.

Definition chromaticNotes : list string :=
  ["C"; "C#"; "D"; "D#"; "E"; "F"; "F#"; "G"; "G#"; "A"; "A#"; "B"]%string.

Definition whiteNotes : list string := ["C"; "D"; "E"; "F"; "G"; "A"; "B"]%string.

(** The character class [\d]. *)
Definition isDigit (c : ascii) : bool :=
  (48 <=? nat_of_ascii c)%nat && (nat_of_ascii c <=? 57)%nat.

Fixpoint dropWhile {A : Type} (f : A -> bool) (l : list A) : list A :=
  match l with
  | [] => []
  | x :: rest => if f x then dropWhile f rest else l
  end.

(** [startNote.replace(/\d+$/, '')] *)
Definition stripTrailingDigits (s : string) : string :=
  string_of_list_ascii (rev (dropWhile isDigit (rev (list_ascii_of_string s)))).

(** [parseInt(startNote.slice(-1)) || 3]: the last character when it is a
    digit other than 0, and 3 otherwise. *)
Definition startOctaveOf (startNote : string) : nat :=
  let c := List.last (list_ascii_of_string startNote) " "%char in
  if isDigit c then
    match (nat_of_ascii c - 48)%nat with
    | O => 3%nat
    | d => d
    end
  else 3%nat.

(** [chromaticNotes.indexOf(startNoteName)]; [None] is [-1]. *)
Fixpoint indexOf (x : string) (l : list string) (i : nat) : option nat :=
  match l with
  | [] => None
  | y :: rest => if String.eqb x y then Some i else indexOf x rest (S i)
  end.

(** [numOctaves % 1]: the remainder has the sign of the dividend. *)
Definition remainder1 (q : Q) : Q := q - inject_Z (Z.quot (Qnum q) (Zpos (Qden q))).

Definition totalKeysOf (numOctaves : Q) : Z :=
  (Qfloor (numOctaves * 12) + (if Qltb 0 (remainder1 numOctaves) then 5 else 0))%Z.

Definition numWhiteKeysOf (totalKeys : Z) : Z :=
  Qceiling (inject_Z totalKeys * 7 / 12).

Definition keyWidthOf (numWhiteKeys : Z) : Q :=
  Qmax 35 (inject_Z (Qfloor ((VIDEO_WIDTH - 200) / inject_Z numWhiteKeys))).

Definition keyHeight : Q := Qmin 250 (VIDEO_HEIGHT * (35 # 100)).

Definition blackKeyWidthOf (keyWidth : Q) : Q := inject_Z (Qfloor (keyWidth * (6 # 10))).

Definition blackKeyHeight : Q := inject_Z (Qfloor (keyHeight * (6 # 10))).

Definition startXOf (numWhiteKeys : Z) (keyWidth : Q) : Q :=
  (VIDEO_WIDTH - inject_Z numWhiteKeys * keyWidth) / 2.

Definition startY : Q := VIDEO_HEIGHT / 2 - keyHeight / 2.

(** "White key with rounded top corners" *)
Definition whitePolygon (currentX keyWidth : Q) : list point :=
  [(currentX + 2, startY);
   (currentX + keyWidth - 2, startY);
   (currentX + keyWidth, startY + 2);
   (currentX + keyWidth, startY + keyHeight - 12);
   (currentX + keyWidth - 2, startY + keyHeight - 10);
   (currentX + 2, startY + keyHeight - 10);
   (currentX, startY + keyHeight - 12);
   (currentX, startY + 2)].

Definition blackPolygon (blackX blackKeyWidth : Q) : list point :=
  [(blackX, startY);
   (blackX + blackKeyWidth, startY);
   (blackX + blackKeyWidth, startY + blackKeyHeight);
   (blackX, startY + blackKeyHeight)].

(** [audioNoteName + octave]; [noteToAudioMap] maps every chromatic name to
    itself. *)
Definition fullNoteOf (noteName : string) (octave : nat) : string :=
  (noteName ++ NilEmpty.string_of_uint (Nat.to_uint octave))%string.

(** The loop [for (let i = 0; i < totalKeys; i++)], from [i] on, with
    [remaining] keys to go. *)
Fixpoint generateFrom (startOctave startIndex : nat) (keyWidth blackKeyWidth : Q)
    (remaining i : nat) (currentX lastWhiteKeyX : Q) : list Key :=
  match remaining with
  | O => []
  | S remaining' =>
      let noteIndex := ((startIndex + i) mod 12)%nat in
      let octave := (startOctave + (startIndex + i) / 12)%nat in
      let noteName := nth noteIndex chromaticNotes ""%string in
      let isWhite := existsb (String.eqb noteName) whiteNotes in
      let fullNote := fullNoteOf noteName octave in
      if isWhite then
        mkKey fullNote (whitePolygon currentX keyWidth) "white"
        :: generateFrom startOctave startIndex keyWidth blackKeyWidth remaining' (S i)
             (currentX + keyWidth) currentX
      else
        let blackX := lastWhiteKeyX + keyWidth - blackKeyWidth / 2 in
        mkKey fullNote (blackPolygon blackX blackKeyWidth) "black"
        :: generateFrom startOctave startIndex keyWidth blackKeyWidth remaining' (S i)
             currentX lastWhiteKeyX
  end.

(** The body of [generatePianoKeys] once the start note is parsed.  With no
    key to generate the loop does not run, whatever the key dimensions. *)
Definition generateKeys (startOctave startIndex : nat) (numOctaves : Q) : list Key :=
  let totalKeys := totalKeysOf numOctaves in
  if (totalKeys <=? 0)%Z then []
  else
    let numWhiteKeys := numWhiteKeysOf totalKeys in
    let keyWidth := keyWidthOf numWhiteKeys in
    let startX := startXOf numWhiteKeys keyWidth in
    generateFrom startOctave startIndex keyWidth (blackKeyWidthOf keyWidth)
                 (Z.to_nat totalKeys) 0 startX startX.

(** [generatePianoKeys(startNote, numOctaves)], both arguments given.  An
    unknown start note falls back to ['C3'], which parses to octave 3 and
    index 0. *)
Definition generatePianoKeys (startNote : string) (numOctaves : Q) : list Key :=
  match indexOf (stripTrailingDigits startNote) chromaticNotes 0 with
  | Some startIndex => generateKeys (startOctaveOf startNote) startIndex numOctaves
  | None => generateKeys 3 0 numOctaves
  end.

(** ** Sample names *)

Fixpoint takeWhile {A : Type} (f : A -> bool) (l : list A) : list A :=
  match l with
  | [] => []
  | x :: rest => if f x then x :: takeWhile f rest else []
  end.

(** [note.match(/\d+$/)?.[0] || '3'] *)
Definition octaveText (s : string) : string :=
  match rev (takeWhile isDigit (rev (list_ascii_of_string s))) with
  | [] => "3"%string
  | digits => string_of_list_ascii digits
  end.

(** [toLowerCase] on the letters A to Z. *)
Definition lowerChar (c : ascii) : ascii :=
  if (65 <=? nat_of_ascii c)%nat && (nat_of_ascii c <=? 90)%nat
  then ascii_of_nat (nat_of_ascii c + 32)
  else c.

Definition toLowerCase (s : string) : string :=
  string_of_list_ascii (map lowerChar (list_ascii_of_string s)).

(** [converted.replace('#', 's')]: the first [#] only. *)
Fixpoint replaceFirstSharp (l : list ascii) : list ascii :=
  match l with
  | [] => []
  | c :: rest => if Ascii.eqb c "#" then "s"%char :: rest else c :: replaceFirstSharp rest
  end.

(** [noteToAcousticPianoFormat] *)
Definition noteToAcousticPianoFormat (n : string) : string :=
  let noteName := stripTrailingDigits n in
  let octave := octaveText n in
  let converted := toLowerCase noteName in
  (string_of_list_ascii (replaceFirstSharp (list_ascii_of_string converted))
   ++ octave)%string.

Definition noteNames : list string :=
  ["c"; "cs"; "d"; "ds"; "e"; "f"; "fs"; "g"; "gs"; "a"; "as"; "b"]%string.

(** [generateAllNotes(startOctave, endOctave)] *)
Definition generateAllNotes (startOctave endOctave : nat) : list string :=
  flat_map (fun octave =>
              map (fun noteName =>
                     (noteName ++ NilEmpty.string_of_uint (Nat.to_uint octave))%string)
                  noteNames)
           (seq startOctave (S endOctave - startOctave)).

Definition ALL_NOTES : list string := generateAllNotes 0 7.

(** The layout the page starts with, its bounding box and its second key. *)
Definition defaultLayout : list Key :=
  Eval vm_compute in generatePianoKeys "C3" (25 # 10).

Definition defaultBounds : Bounds :=
  Eval vm_compute in
    default (mkBounds 0 0 0 0 0 0 0 0) (getKeysBoundingBox defaultLayout).

Definition cSharp3 : Key :=
  Eval vm_compute in default (mkKey "" [] "") (defaultLayout !! 1%nat).

(** ** Helpers of the layout extraction *)

(** [equallySpacedPoints]; a point whose coordinates are [NaN] (the quotient
    [0 / 0] of [n = 1]) is [None]. *)
Definition equallySpacedPoints (p1 p2 : point) (n : nat) : list (option point) :=
  map (fun i =>
         match jsdiv (iq i) (iq n - 1) with
         | Finite alpha =>
             Some (fst p1 * (1 - alpha) + fst p2 * alpha,
                   snd p1 * (1 - alpha) + snd p2 * alpha)
         | _ => None
         end)
      (seq 0 n).

(** One turn of the loop of [polygonArea]: [j = (i + 1) % pts.length]. *)
Definition shoelaceTerm (pts : list point) (i : nat) : Q :=
  let j := ((i + 1) mod length pts)%nat in
  fst (nth i pts (0, 0)) * snd (nth j pts (0, 0))
  - fst (nth j pts (0, 0)) * snd (nth i pts (0, 0)).

(** [polygonArea] *)
Definition polygonArea (pts : list point) : Q :=
  Qabs (fold_left (fun area i => area + shoelaceTerm pts i) (seq 0 (length pts)) 0) / 2.

Definition shift (a b : Q) (pts : list point) : list point :=
  map (fun p => (fst p + a, snd p + b)) pts.

(** The sum of [f i] over the indices [l]. *)
Definition sumOver (f : nat -> Q) (l : list nat) : Q :=
  fold_right (fun i s => f i + s) 0 l.

(** Every finger with a recorded position comes before finger [fingerIndex] of
    hand [handIndex] in the order of the detection loop. *)
Definition seenBefore (st : FingerMaps) (handIndex fingerIndex : nat) : Prop :=
  forall h f, is_Some (previousFingerPositions st !! (h, f)) ->
              (h < handIndex)%nat \/ (h = handIndex /\ (f < fingerIndex)%nat).

(** Every stored window is non-empty, within the window length, and made of
    samples 0 and 1. *)
Definition soundHistories (cfg : Config) (hist : gmap nat (list nat)) : Prop :=
  forall i h, hist !! i = Some h -> validHistory cfg h /\ h <> [].
(** * Properties *)

(** ** Comparisons *)

Lemma Qltb_lt (a b : Q) : Qltb a b = true <-> a < b.
Proof.
  unfold Qltb. rewrite negb_true_iff, <- not_true_iff_false, Qle_bool_iff.
  split; [apply Qnot_le_lt | apply Qlt_not_le].
Qed.

Lemma Qltb_ge (a b : Q) : Qltb a b = false <-> b <= a.
Proof. unfold Qltb. rewrite negb_false_iff. apply Qle_bool_iff. Qed.

Lemma Qgtb_gt (a b : Q) : Qgtb a b = true <-> b < a.
Proof. apply Qltb_lt. Qed.

Lemma Qgeb_ge (a b : Q) : Qgeb a b = true <-> b <= a.
Proof. apply Qle_bool_iff. Qed.

Lemma Qeq_bool_false (a b : Q) : Qeq_bool a b = false <-> ~ a == b.
Proof.
  rewrite <- not_true_iff_false. split; intros H E; apply H.
  - now apply Qeq_eq_bool.
  - now apply Qeq_bool_eq.
Qed.

(** ** Sets in insertion order *)

Lemma has_In (x : nat) (s : jsset nat) : has x s = true <-> In x s.
Proof.
  unfold set_has. rewrite existsb_exists. split.
  - intros (y & Hy & E). apply Nat.eqb_eq in E. now subst.
  - intros H. exists x. split; [exact H | apply Nat.eqb_refl].
Qed.

Lemma has_add (x y : nat) (s : jsset nat) :
  has x (add y s) = Nat.eqb x y || has x s.
Proof.
  unfold set_add. destruct (has y s) eqn:Hy.
  - destruct (Nat.eqb_spec x y) as [->|]; [now rewrite Hy | reflexivity].
  - unfold set_has. rewrite existsb_app. simpl. rewrite orb_false_r. apply orb_comm.
Qed.

Lemma has_add_same (x : nat) (s : jsset nat) : has x (add x s) = true.
Proof. rewrite has_add, Nat.eqb_refl. reflexivity. Qed.

Lemma has_remove (x y : nat) (s : jsset nat) :
  has x (remove y s) = negb (Nat.eqb x y) && has x s.
Proof.
  unfold set_delete, set_has. induction s as [|z s IH]; simpl.
  - now rewrite andb_false_r.
  - destruct (Nat.eqb_spec y z) as [->|Hyz]; simpl.
    + rewrite IH. destruct (Nat.eqb_spec x z); simpl; reflexivity.
    + rewrite IH. destruct (Nat.eqb_spec x z) as [->|]; simpl.
      * destruct (Nat.eqb_spec z y); [congruence | reflexivity].
      * reflexivity.
Qed.

Lemma has_remove_same (x : nat) (s : jsset nat) : has x (remove x s) = false.
Proof. rewrite has_remove, Nat.eqb_refl. reflexivity. Qed.

(** ** The sort keeps the elements *)

Lemma insert_sorted_In {A} (before : A -> A -> bool) (x y : A) (l : list A) :
  In y (insert_sorted before x l) <-> y = x \/ In y l.
Proof.
  induction l as [|z l IH]; simpl.
  - intuition.
  - destruct (before x z); simpl; [intuition | rewrite IH; intuition].
Qed.

Lemma js_sort_In {A} (before : A -> A -> bool) (y : A) (l : list A) :
  In y (js_sort before l) <-> In y l.
Proof.
  induction l as [|x l IH]; simpl; [reflexivity|].
  rewrite insert_sorted_In, IH. intuition.
Qed.

Lemma insert_sorted_length {A} (before : A -> A -> bool) (x : A) (l : list A) :
  length (insert_sorted before x l) = S (length l).
Proof. induction l as [|z l IH]; simpl; [|destruct (before x z); simpl]; congruence. Qed.

Lemma js_sort_length {A} (before : A -> A -> bool) (l : list A) :
  length (js_sort before l) = length l.
Proof. induction l as [|x l IH]; simpl; [|rewrite insert_sorted_length]; congruence. Qed.

(** ** Bounding box *)

Lemma extendBox_ordered acc pt : orderedBox acc -> orderedBox (extendBox acc pt).
Proof.
  destruct acc as [[[[x0 y0] x1] y1]|]; simpl; intros H.
  - eapply Qle_trans; [apply Q.le_min_l|].
    eapply Qle_trans; [exact H | apply Q.le_max_l].
  - apply Qle_refl.
Qed.

Lemma fold_extendBox_ordered pts acc :
  orderedBox acc -> orderedBox (fold_left extendBox pts acc).
Proof.
  revert acc. induction pts as [|p pts IH]; simpl; intros acc H; [exact H|].
  apply IH, extendBox_ordered, H.
Qed.

Lemma getKeysBoundingBox_height (keys : list Key) (kb : Bounds) :
  getKeysBoundingBox keys = Some kb -> 0 <= height kb.
Proof.
  unfold getKeysBoundingBox.
  assert (H : orderedBox
                (fold_left (fun acc k => fold_left extendBox (polygon k) acc) keys None)).
  { generalize (I : orderedBox None). generalize (@None (Q * Q * Q * Q)).
    induction keys as [|k keys IH]; simpl; intros acc Hacc; [exact Hacc|].
    apply IH, fold_extendBox_ordered, Hacc. }
  destruct (fold_left _ keys None) as [[[[x0 y0] x1] y1]|]; [|discriminate].
  intros [= <-]. simpl in *. lra.
Qed.

Lemma redBand_ordered (cfg : Config) (keys : list Key) (kb : Bounds) :
  getKeysBoundingBox keys = Some kb ->
  upperRedBand (redBand cfg kb) <= lowerRedBand (redBand cfg kb).
Proof.
  intros H. apply getKeysBoundingBox_height in H. unfold redBand, RED_LINE_BUFFER. simpl.
  assert (0 <= height kb * (25 # 1000)) by (apply Qmult_le_0_compat; [exact H | lra]).
  lra.
Qed.

(** ** Candidates of a finger *)

Lemma collectFrom_index (b : Band) (thumb : bool) (tx ty : Q) (keys : list Key) :
  forall i0 i,
    In i (map index (collectFrom b thumb tx ty i0 keys)) <->
    exists k, (i0 <= i)%nat /\ keys !! (i - i0)%nat = Some k
              /\ insideInline tx ty (polygon k) = true
              /\ passesLineFilter b ty k = true.
Proof.
  induction keys as [|k keys IH]; intros i0 i; simpl.
  - split; [tauto | intros (k & _ & H & _); discriminate].
  - assert (Hrest :
      (exists k', (S i0 <= i)%nat /\ keys !! (i - S i0)%nat = Some k'
                  /\ insideInline tx ty (polygon k') = true
                  /\ passesLineFilter b ty k' = true) <->
      (exists k', (i0 <= i)%nat /\ i <> i0 /\ (k :: keys) !! (i - i0)%nat = Some k'
                  /\ insideInline tx ty (polygon k') = true
                  /\ passesLineFilter b ty k' = true)).
    { split; intros (k' & H).
      - exists k'. destruct H as (Hle & Hk & Hin). repeat split; try lia; try tauto.
        replace (i - i0)%nat with (S (i - S i0)) by lia. exact Hk.
      - exists k'. destruct H as (Hle & Hne & Hk & Hin). repeat split; try lia; try tauto.
        replace (i - i0)%nat with (S (i - S i0)) in Hk by lia. exact Hk. }
    destruct (insideInline tx ty (polygon k) && passesLineFilter b ty k) eqn:E; simpl.
    + rewrite IH, Hrest. split.
      * intros [<- | (k' & Hle & _ & H)].
        -- exists k. rewrite Nat.sub_diag. apply andb_true_iff in E.
           destruct E. repeat split; auto.
        -- exists k'. tauto.
      * intros (k' & Hle & Hk & Hin).
        destruct (Nat.eq_dec i i0) as [->|Hne]; [now left | right].
        exists k'. tauto.
    + rewrite IH, Hrest. split.
      * intros (k' & Hle & _ & H). exists k'. tauto.
      * intros (k' & Hle & Hk & Hin & Hp).
        destruct (Nat.eq_dec i i0) as [->|Hne].
        -- rewrite Nat.sub_diag in Hk. simpl in Hk. injection Hk as <-.
           rewrite Hin, Hp in E. discriminate.
        -- exists k'. tauto.
Qed.

(** A key is a candidate of the finger exactly when its polygon contains the
    point and the line filter lets it through. *)
Lemma candidate_iff (b : Band) (thumb : bool) (tx ty : Q) (exportKeys : list Key)
    (i : nat) (k : Key) :
  exportKeys !! i = Some k ->
  In i (map index (collectFingerKeys b thumb tx ty exportKeys)) <->
  insideInline tx ty (polygon k) = true /\ passesLineFilter b ty k = true.
Proof.
  intros Hk. unfold collectFingerKeys. rewrite collectFrom_index, Nat.sub_0_r. split.
  - intros (k' & _ & Hk' & H). rewrite Hk in Hk'. injection Hk' as <-. exact H.
  - intros H. exists k. split; [lia | tauto].
Qed.

Lemma passesLineFilter_above (b : Band) (ty : Q) (k : Key) :
  upperRedBand b <= lowerRedBand b -> ty < upperRedBand b ->
  passesLineFilter b ty k = true <-> type k = "black"%string.
Proof.
  intros Hb Hty. unfold passesLineFilter, isInsideRedBuffer.
  assert (Ha : isAboveRedLine b ty = true) by (apply Qltb_lt, Hty).
  rewrite Ha. simpl.
  destruct (String.eqb_spec (type k) "black") as [E|E]; simpl.
  - assert (Hbelow : isBelowRedLine b ty = false) by (apply Qltb_ge; lra).
    rewrite Hbelow. simpl. tauto.
  - split; [discriminate | contradiction].
Qed.

Lemma passesLineFilter_below (b : Band) (ty : Q) (k : Key) :
  upperRedBand b <= lowerRedBand b -> lowerRedBand b < ty ->
  passesLineFilter b ty k = true <-> type k = "white"%string.
Proof.
  intros Hb Hty. unfold passesLineFilter, isInsideRedBuffer.
  assert (Ha : isAboveRedLine b ty = false) by (apply Qltb_ge; lra).
  assert (Hbelow : isBelowRedLine b ty = true) by (apply Qgtb_gt, Hty).
  rewrite Ha, Hbelow. simpl.
  destruct (String.eqb_spec (type k) "white") as [E|E]; simpl; [tauto|].
  split; [discriminate | contradiction].
Qed.

Lemma passesLineFilter_inside (b : Band) (ty : Q) (k : Key) :
  upperRedBand b <= ty -> ty <= lowerRedBand b ->
  passesLineFilter b ty k = true.
Proof.
  intros H1 H2. unfold passesLineFilter, isInsideRedBuffer.
  assert (Ha : isAboveRedLine b ty = false) by (apply Qltb_ge; lra).
  assert (Hbelow : isBelowRedLine b ty = false) by (apply Qltb_ge; lra).
  rewrite Ha, Hbelow. reflexivity.
Qed.

(** C7.  Vertical band filter: for a key whose polygon contains the
    transformed finger point, above the separator line minus the dead-band the
    key is a candidate exactly when its type is black, below the line plus the
    dead-band exactly when its type is white, and inside the dead-band it is a
    candidate whatever its type. *)
Theorem C7_band_filter (cfg : Config) (exportKeys : list Key) (keysBounds : Bounds)
    (thumb : bool) (tx ty : Q) (i : nat) (k : Key) :
  getKeysBoundingBox exportKeys = Some keysBounds ->
  exportKeys !! i = Some k ->
  insideInline tx ty (polygon k) = true ->
  let band := redBand cfg keysBounds in
  let candidate :=
    In i (map index (collectFingerKeys band thumb tx ty exportKeys)) in
  (ty < upperRedBand band -> (candidate <-> type k = "black"%string))
  /\ (lowerRedBand band < ty -> (candidate <-> type k = "white"%string))
  /\ (upperRedBand band <= ty -> ty <= lowerRedBand band -> candidate).
Proof.
  intros Hkb Hk Hin band candidate.
  pose proof (redBand_ordered cfg exportKeys keysBounds Hkb) as Hord.
  fold band in Hord. unfold candidate.
  rewrite (candidate_iff _ _ _ _ _ _ _ Hk).
  split; [|split].
  - intros Hty. rewrite <- (passesLineFilter_above band ty k Hord Hty). tauto.
  - intros Hty. rewrite <- (passesLineFilter_below band ty k Hord Hty). tauto.
  - intros H1 H2. split; [exact Hin | now apply passesLineFilter_inside].
Qed.

(** ** Divisions of the crossing-number tests *)

Lemma straddles_sym (yi yj y : Q) : straddles yi yj y = straddles yj yi y.
Proof. apply xorb_comm. Qed.

Lemma straddles_apart (yi yj y : Q) :
  straddles yi yj y = true -> ~ yj - yi == 0.
Proof.
  unfold straddles. intros H E.
  destruct (Qgtb yi y) eqn:Hi, (Qgtb yj y) eqn:Hj; try discriminate.
  - apply Qgtb_gt in Hi. apply Qltb_ge in Hj. lra.
  - apply Qltb_ge in Hi. apply Qgtb_gt in Hj. lra.
Qed.

Lemma jsdiv_finite (n d : Q) : ~ d == 0 -> jsdiv n d = Finite (n / d).
Proof. intros H. unfold jsdiv. apply Qeq_bool_false in H. now rewrite H. Qed.

Lemma inlineQuotient_finite (tx ty : Q) (pi pj : point) :
  straddles (snd pi) (snd pj) ty = true ->
  inlineQuotient tx ty pi pj
  = Finite ((fst pj - fst pi) * (ty - snd pi) / (snd pj - snd pi)).
Proof. intros H. apply jsdiv_finite, (straddles_apart _ _ _ H). Qed.

Lemma Qltb_compat (a b b' : Q) : b == b' -> Qltb a b = Qltb a b'.
Proof.
  intros E. destruct (Qltb a b) eqn:H1, (Qltb a b') eqn:H2; try reflexivity.
  - apply Qltb_lt in H1. apply Qltb_ge in H2. lra.
  - apply Qltb_ge in H1. apply Qltb_lt in H2. lra.
Qed.

Lemma intersectInline_self (tx ty : Q) (p : point) : intersectInline tx ty p p = false.
Proof. unfold intersectInline, straddles. now rewrite xorb_nilpotent. Qed.

(** With fewer than two points the only edge of a polygon runs from a point
    to itself, and no scan line crosses it: no arithmetic is involved. *)
Lemma insideInline_short (tx ty : Q) (poly : list point) :
  (length poly < 2)%nat -> insideInline tx ty poly = false.
Proof.
  destruct poly as [|p [|q poly]]; simpl; intros H; try lia.
  - reflexivity.
  - unfold insideInline. simpl. now rewrite intersectInline_self.
Qed.

Lemma insideInlineDouble_short (tx ty : float) (poly : list dpoint) :
  (length poly < 2)%nat -> insideInlineDouble tx ty poly = false.
Proof.
  destruct poly as [|p [|q poly]]; simpl; intros H; try lia.
  - reflexivity.
  - unfold insideInlineDouble, intersectInlineDouble, straddlesDouble. simpl.
    now destruct (ty <? snd p)%float.
Qed.

(** C8 (amended).  Epsilon guard in the point-in-polygon division: the
    [isPointInPolygon] helper adds 1e-10 to the divisor, which keeps the
    divisor positive and the quotient finite for every edge whose vertical
    extent is below 1e-10 in absolute value, horizontal edges included.  The
    inline test of the hit-testing loop has no epsilon; it evaluates its
    division only for an edge that straddles the point's ordinate, so its
    divisor [yj - yi] is never zero and its quotient is finite. *)
Theorem C8_division_guards (tx ty : Q) (pi pj : point) :
  (Qabs (snd pj - snd pi) < EPSILON ->
     0 < snd pj - snd pi + EPSILON
     /\ isFinite (guardedQuotient tx ty pi pj) = true)
  /\ (straddles (snd pi) (snd pj) ty = true ->
        ~ snd pj - snd pi == 0
        /\ isFinite (inlineQuotient tx ty pi pj) = true).
Proof.
  split.
  - intros H. apply Qabs_Qlt_condition in H.
    assert (Hpos : 0 < snd pj - snd pi + EPSILON) by lra.
    split; [exact Hpos|]. unfold guardedQuotient.
    rewrite jsdiv_finite; [reflexivity | lra].
  - intros H. split; [apply (straddles_apart _ _ _ H)|].
    now rewrite inlineQuotient_finite.
Qed.

(** The witness: a horizontal edge for the helper, a straddling edge for the
    inline test. *)
Lemma C8_division_guards_witness :
  (0 < snd (10, 3) - snd (0, 3) + EPSILON
   /\ isFinite (guardedQuotient 1 3 (0, 3) (10, 3)) = true)
  /\ (~ snd (10, 4) - snd (0, 0) == 0
      /\ isFinite (inlineQuotient 1 2 (0, 0) (10, 4)) = true).
Proof.
  split.
  - apply (proj1 (C8_division_guards 1 3 (0, 3) (10, 3))). reflexivity.
  - apply (proj2 (C8_division_guards 1 2 (0, 0) (10, 4))). reflexivity.
Defined.

(** C8, as stated, fails on the inline test: on the edge from (0, 0) to
    (10, 1e-10) and the point (3, 5e-11) the hit-testing loop divides by
    [yj - yi = 1e-10] and finds the crossing at abscissa 5, where a divisor
    guarded by the epsilon would be 2e-10 and put it at 5/2; the two tests
    disagree on whether the edge is crossed. *)
Lemma C8_inline_test_has_no_epsilon :
  let pi : point := (0, 0) in
  let pj : point := (10, EPSILON) in
  let ty := EPSILON / 2 in
  straddles (snd pi) (snd pj) ty = true
  /\ (exists q, inlineQuotient 3 ty pi pj = Finite q /\ q == 5)
  /\ (exists q, guardedQuotient 3 ty pi pj = Finite q /\ q == 5 / 2)
  /\ intersectInline 3 ty pi pj = true
  /\ intersectGuarded 3 ty pi pj = false.
Proof.
  cbv zeta. split; [reflexivity|]. split; [|split; [|split; reflexivity]].
  - eexists. split; [vm_compute; reflexivity | reflexivity].
  - eexists. split; [vm_compute; reflexivity | reflexivity].
Qed.

(** The guard of the helper does not cover an edge that descends by exactly
    the epsilon: the divisor is zero and the quotient is not finite. *)
Example guardedQuotient_at_minus_epsilon :
  straddles EPSILON 0 0 = true
  /\ guardedQuotient 3 0 (0, EPSILON) (10, 0) = MinusInfinity.
Proof. split; reflexivity. Qed.

(** The selected key is one of the candidates. *)
Lemma selectCandidate_In (fingerKeys : list Candidate) (i : nat) :
  selectCandidate fingerKeys = Some i -> In i (map index fingerKeys).
Proof.
  destruct fingerKeys as [|c [|c' rest]].
  - discriminate.
  - intros [= <-]. now left.
  - remember (c :: c' :: rest) as l eqn:El.
    assert (H : selectCandidate l = index <$> head (js_sort candidateBefore l))
      by now subst l.
    rewrite H. clear H El.
    destruct (js_sort candidateBefore l) as [|s sorted] eqn:E; [discriminate|].
    simpl. intros [= <-]. apply in_map, (js_sort_In candidateBefore).
    rewrite E. now left.
Qed.

(** ** Rendering *)

Lemma indexed_In (exportKeys : list Key) (i : nat) (k : Key) :
  In (i, k) (indexed exportKeys) <-> exportKeys !! i = Some k.
Proof.
  unfold indexed. rewrite <- list_elem_of_In, elem_of_lookup_imap. split.
  - intros (j & y & [= -> ->] & H). exact H.
  - intros H. now exists i, k.
Qed.

Lemma drawPass_In (keyType : string) (hovered : jsset nat)
    (sortedKeys : list (nat * Key)) (call : DrawCall) :
  In call (drawPass keyType hovered sortedKeys) <->
  exists i k, In (i, k) sortedKeys /\ polygon k <> [] /\ type k = keyType
              /\ call = mkDrawCall i (has i hovered).
Proof.
  unfold drawPass. rewrite <- list_elem_of_In, list_elem_of_omap. split.
  - intros ([i k] & Hin & Hf). simpl in Hf. exists i, k.
    apply list_elem_of_In in Hin.
    destruct (polygon k) eqn:Hp; [discriminate|].
    destruct (String.eqb_spec (type k) keyType); [|discriminate].
    injection Hf as <-. repeat split; auto; discriminate.
  - intros (i & k & Hin & Hp & Ht & ->). exists (i, k).
    split; [now apply list_elem_of_In|]. simpl.
    destruct (polygon k); [contradiction|].
    subst keyType. now rewrite String.eqb_refl.
Qed.

(** The keys handed to [drawPoly]: those with a vertex and a type among
    white and black. *)
Lemma drawAllKeys_In (exportKeys : list Key) (hovered : jsset nat) (call : DrawCall) :
  In call (drawAllKeys exportKeys hovered) <->
  exists i k, exportKeys !! i = Some k /\ polygon k <> []
              /\ (type k = "white"%string \/ type k = "black"%string)
              /\ call = mkDrawCall i (has i hovered).
Proof.
  unfold drawAllKeys. rewrite in_app_iff, !drawPass_In. split.
  - intros [(i & k & Hin & Hp & Ht & ->) | (i & k & Hin & Hp & Ht & ->)];
      exists i, k; apply js_sort_In, indexed_In in Hin; auto.
  - intros (i & k & Hk & Hp & [Ht | Ht] & ->); [left | right];
      exists i, k; rewrite js_sort_In, indexed_In; auto.
Qed.

(** ** Bounding box *)

Lemma getKeysBoundingBox_flat (keys : list Key) (acc : option (Q * Q * Q * Q)) :
  fold_left (fun acc k => fold_left extendBox (polygon k) acc) keys acc
  = fold_left extendBox (allVertices keys) acc.
Proof.
  revert acc. induction keys as [|k keys IH]; intros acc; simpl; [reflexivity|].
  unfold allVertices in *. simpl. now rewrite fold_left_app, IH.
Qed.

Lemma extendBox_covers_new (acc : option (Q * Q * Q * Q)) (p : point) :
  covers (extendBox acc p) p.
Proof.
  destruct acc as [[[[x0 y0] x1] y1]|]; simpl.
  - pose proof (Q.le_min_r x0 (fst p)). pose proof (Q.le_max_r x1 (fst p)).
    pose proof (Q.le_min_r y0 (snd p)). pose proof (Q.le_max_r y1 (snd p)). auto.
  - repeat split; apply Qle_refl.
Qed.

Lemma extendBox_covers_old (acc : option (Q * Q * Q * Q)) (p q : point) :
  covers acc q -> covers (extendBox acc p) q.
Proof.
  destruct acc as [[[[x0 y0] x1] y1]|]; simpl; [|tauto].
  pose proof (Q.le_min_l x0 (fst p)). pose proof (Q.le_max_l x1 (fst p)).
  pose proof (Q.le_min_l y0 (snd p)). pose proof (Q.le_max_l y1 (snd p)).
  intros [[? ?] [? ?]]. repeat split; lra.
Qed.

Lemma fold_extendBox_covers (pts : list point) :
  forall acc q, covers acc q \/ In q pts -> covers (fold_left extendBox pts acc) q.
Proof.
  induction pts as [|p pts IH]; intros acc q; simpl.
  - tauto.
  - intros [H | [<- | H]]; apply IH.
    + left. now apply extendBox_covers_old.
    + left. apply extendBox_covers_new.
    + now right.
Qed.

(** ** A layout without one of its keys *)

Lemma getKeysBoundingBox_delete (exportKeys : list Key) (i : nat) (k : Key) :
  exportKeys !! i = Some k -> polygon k = [] ->
  getKeysBoundingBox (delete i exportKeys) = getKeysBoundingBox exportKeys.
Proof.
  intros Hk Hp. unfold getKeysBoundingBox.
  assert (H : forall keys j acc,
             keys !! j = Some k ->
             fold_left (fun acc k => fold_left extendBox (polygon k) acc)
                       (delete j keys) acc
             = fold_left (fun acc k => fold_left extendBox (polygon k) acc) keys acc).
  { induction keys as [|k0 keys IH]; intros [|j] acc Hj; try discriminate.
    - injection Hj as ->. simpl. now rewrite Hp.
    - simpl. apply IH. exact Hj. }
  now rewrite (H exportKeys i None Hk).
Qed.

(** [reindex f] changes the key index of a candidate and nothing else. *)
Lemma js_sort_map {A B : Type} (beforeA : A -> A -> bool) (beforeB : B -> B -> bool)
    (f : A -> B) (l : list A) :
  (forall a b, beforeB (f a) (f b) = beforeA a b) ->
  js_sort beforeB (map f l) = map f (js_sort beforeA l).
Proof.
  intros Hf. unfold js_sort. induction l as [|x l IH]; simpl; [reflexivity|].
  rewrite IH. generalize (fold_right (insert_sorted beforeA) [] l). intros s.
  induction s as [|y s IHs]; simpl; [reflexivity|].
  rewrite Hf. destruct (beforeA x y); simpl; [reflexivity | now rewrite IHs].
Qed.

Lemma selectCandidate_reindex (f : nat -> nat) (fingerKeys : list Candidate) :
  selectCandidate
    (map (fun c => mkCandidate (f (index c)) (cand_type c) (distance2 c)
                               (isThumb c) (priority c)) fingerKeys)
  = f <$> selectCandidate fingerKeys.
Proof.
  set (r := fun c => mkCandidate (f (index c)) (cand_type c) (distance2 c)
                                 (isThumb c) (priority c)).
  destruct fingerKeys as [|c [|c' rest]]; [reflexivity | reflexivity |].
  remember (c :: c' :: rest) as l eqn:El.
  assert (H1 : selectCandidate l = index <$> head (js_sort candidateBefore l))
    by now subst l.
  assert (H2 : selectCandidate (map r l)
               = index <$> head (js_sort candidateBefore (map r l)))
    by now subst l.
  rewrite H1, H2.
  rewrite (js_sort_map candidateBefore candidateBefore r l) by reflexivity.
  now destruct (js_sort candidateBefore l).
Qed.

Lemma collectFrom_succ (b : Band) (thumb : bool) (tx ty : Q) (keys : list Key) :
  forall i0,
    collectFrom b thumb tx ty (S i0) keys
    = map (fun c => mkCandidate (S (index c)) (cand_type c) (distance2 c)
                                (isThumb c) (priority c))
          (collectFrom b thumb tx ty i0 keys).
Proof.
  induction keys as [|k keys IH]; intros i0; simpl; [reflexivity|].
  destruct (insideInline tx ty (polygon k) && passesLineFilter b ty k); simpl;
    now rewrite IH.
Qed.

Lemma collectFrom_from (b : Band) (thumb : bool) (tx ty : Q) (keys : list Key) :
  forall i0 c, In c (collectFrom b thumb tx ty i0 keys) -> (i0 <= index c)%nat.
Proof.
  induction keys as [|k keys IH]; intros i0 c; simpl; [tauto|].
  destruct (insideInline tx ty (polygon k) && passesLineFilter b ty k); simpl.
  - intros [<- | H]; [simpl; lia | apply IH in H; lia].
  - intros H. apply IH in H. lia.
Qed.

(** A key that contains no point can be taken out of the layout: the
    candidates are those of the remaining keys, the indices after it moved up
    by one. *)
Lemma collectFrom_delete (b : Band) (thumb : bool) (tx ty : Q) (k : Key) :
  insideInline tx ty (polygon k) = false ->
  forall keys i0 i,
    keys !! i = Some k ->
    collectFrom b thumb tx ty i0 keys
    = map (fun c => mkCandidate (if (index c <? i0 + i)%nat then index c
                                 else S (index c))
                                (cand_type c) (distance2 c) (isThumb c) (priority c))
          (collectFrom b thumb tx ty i0 (delete i keys)).
Proof.
  intros Hout. induction keys as [|k0 keys IH]; intros i0 [|i] Hk; try discriminate.
  - injection Hk as ->. cbn [collectFrom]. rewrite Hout. cbn [andb].
    change (delete 0%nat (k :: keys)) with keys.
    rewrite collectFrom_succ. apply map_ext_in. intros c Hc.
    apply collectFrom_from in Hc.
    destruct (Nat.ltb_spec (index c) (i0 + 0)); [lia | reflexivity].
  - change (delete (S i) (k0 :: keys)) with (k0 :: delete i keys).
    cbn [collectFrom].
    rewrite (IH (S i0) i Hk).
    replace (S i0 + i)%nat with (i0 + S i)%nat by lia.
    destruct (insideInline tx ty (polygon k0) && passesLineFilter b ty k0);
      [|reflexivity].
    cbn [map index]. f_equal.
    destruct (Nat.ltb_spec i0 (i0 + S i)); [reflexivity | lia].
Qed.

Lemma selectedKey_delete (cfg : Config) (exportKeys : list Key) (i : nat) (k : Key)
    (frameCount : Z) (fid : FingerId) (thumb : bool) (tx ty : Q) (st : FingerMaps) :
  exportKeys !! i = Some k -> polygon k = [] ->
  selectedKey cfg exportKeys frameCount fid thumb tx ty st
  = (fun j => if (j <? i)%nat then j else S j)
      <$> selectedKey cfg (delete i exportKeys) frameCount fid thumb tx ty st.
Proof.
  intros Hk Hp. unfold selectedKey, fingerKeysOf.
  destruct (isSkipped _); [reflexivity|].
  rewrite (getKeysBoundingBox_delete exportKeys i k Hk Hp).
  destruct (getKeysBoundingBox exportKeys) as [keysBounds|]; [|reflexivity].
  cbn [mbind option_bind]. unfold collectFingerKeys.
  rewrite (collectFrom_delete (redBand cfg keysBounds) thumb tx ty k
             ltac:(rewrite Hp; reflexivity) exportKeys 0 i Hk).
  apply (selectCandidate_reindex (fun j => if (j <? i)%nat then j else S j)).
Qed.

(** C9 (amended).  Malformed-key tolerance.  A key whose polygon is empty or
    a single point is never selected by hit-testing: the containment test of
    the hit-testing loop never reports a point inside it, in exact arithmetic
    and in doubles alike, since its only edge runs from a point to itself.  A
    key with two points is not excluded: the loop has no length check, and in
    doubles the crossing abscissas of its segment, taken in its two
    directions, can differ in the last place, so that a point between them is
    reported inside ([segmentDouble] and [besideSegment]).  Only a key whose
    polygon is empty is skipped for rendering: the key is handed to
    [drawPoly] exactly when it has a vertex and its type is white or black.
    The frame goes on: every other key is a hit-testing candidate exactly when
    its polygon contains the point and it passes the line filter, and is drawn
    exactly when it has a vertex and its type is white or black; the band of
    the line filter comes from the bounding box of all keys, which contains
    the points of a malformed key that has any.  A key with an empty polygon
    leaves the others unaffected altogether: the bounding box is that of the
    layout without it, and the key selected for a finger is the one selected
    on the layout without it, the indices after it moved up by one. *)
Theorem C9_malformed_key_tolerance (exportKeys : list Key) (i : nat) (k : Key) :
  exportKeys !! i = Some k ->
  ((length (polygon k) < 2)%nat ->
   forall band thumb tx ty,
     insideInline tx ty (polygon k) = false
     /\ ~ In i (map index (collectFingerKeys band thumb tx ty exportKeys))
     /\ selectCandidate (collectFingerKeys band thumb tx ty exportKeys) <> Some i)
  /\ (forall tx ty poly,
        (length poly < 2)%nat -> insideInlineDouble tx ty poly = false)
  /\ (length segmentDouble = 2%nat
      /\ insideInlineDouble (fst besideSegment) (snd besideSegment) segmentDouble
         = true)
  /\ (forall hovered,
        In (mkDrawCall i (has i hovered)) (drawAllKeys exportKeys hovered) <->
        polygon k <> []
        /\ (type k = "white"%string \/ type k = "black"%string))
  /\ (polygon k = [] ->
      forall hovered h, ~ In (mkDrawCall i h) (drawAllKeys exportKeys hovered))
  /\ (forall j kj, exportKeys !! j = Some kj ->
        (forall cfg keysBounds thumb tx ty,
            getKeysBoundingBox exportKeys = Some keysBounds ->
            In j (map index (collectFingerKeys (redBand cfg keysBounds) thumb tx ty
                                               exportKeys)) <->
            insideInline tx ty (polygon kj) = true
            /\ passesLineFilter (redBand cfg keysBounds) ty kj = true)
        /\ (forall hovered,
              In (mkDrawCall j (has j hovered)) (drawAllKeys exportKeys hovered) <->
              polygon kj <> []
              /\ (type kj = "white"%string \/ type kj = "black"%string)))
  /\ (polygon k <> [] ->
      exists keysBounds,
        getKeysBoundingBox exportKeys = Some keysBounds
        /\ forall p, In p (polygon k) ->
                     minX keysBounds <= fst p <= maxX keysBounds
                     /\ minY keysBounds <= snd p <= maxY keysBounds)
  /\ (polygon k = [] ->
      getKeysBoundingBox (delete i exportKeys) = getKeysBoundingBox exportKeys
      /\ forall cfg frameCount fid thumb tx ty st,
           selectedKey cfg exportKeys frameCount fid thumb tx ty st
           = (fun j => if (j <? i)%nat then j else S j)
               <$> selectedKey cfg (delete i exportKeys) frameCount fid thumb tx ty
                               st).
Proof.
  intros Hk.
  assert (Hdrawn : forall j kj hovered, exportKeys !! j = Some kj ->
            In (mkDrawCall j (has j hovered)) (drawAllKeys exportKeys hovered) <->
            polygon kj <> []
            /\ (type kj = "white"%string \/ type kj = "black"%string)).
  { intros j kj hovered Hj. rewrite drawAllKeys_In. split.
    - intros (j' & k' & Hk' & Hp' & Ht & [= <-]).
      rewrite Hj in Hk'. injection Hk' as <-. auto.
    - intros [Hp Ht]. exists j, kj. auto. }
  split; [|split; [|split; [|split; [|split; [|split; [|split]]]]]].
  - intros Hshort band thumb tx ty.
    pose proof (insideInline_short tx ty (polygon k) Hshort) as Hout.
    assert (Hnot : ~ In i (map index (collectFingerKeys band thumb tx ty exportKeys))).
    { rewrite (candidate_iff _ _ _ _ _ _ _ Hk). rewrite Hout. intros [? _]. discriminate. }
    repeat split; auto.
    intros Hsel. apply Hnot. now apply selectCandidate_In.
  - intros tx ty poly. apply insideInlineDouble_short.
  - split; [reflexivity | vm_compute; reflexivity].
  - intros hovered. apply Hdrawn, Hk.
  - intros Hp hovered h. rewrite drawAllKeys_In.
    intros (i' & k' & Hk' & Hp' & _ & [= <- _]).
    rewrite Hk in Hk'. injection Hk' as <-. contradiction.
  - intros j kj Hj. split.
    + intros cfg keysBounds thumb tx ty _. apply (candidate_iff _ _ _ _ _ _ _ Hj).
    + intros hovered. apply Hdrawn, Hj.
  - intros Hp. unfold getKeysBoundingBox. rewrite getKeysBoundingBox_flat.
    pose proof (fold_extendBox_covers (allVertices exportKeys) None) as Hcov.
    assert (Hin : forall p, In p (polygon k) -> In p (allVertices exportKeys)).
    { intros p Hpk. unfold allVertices. apply in_flat_map. exists k. split; [|exact Hpk].
      apply list_elem_of_In, list_elem_of_lookup. now exists i. }
    destruct (fold_left extendBox (allVertices exportKeys) None)
      as [[[[x0 y0] x1] y1]|].
    + eexists. split; [reflexivity|]. intros p Hpk. simpl.
      apply (Hcov p). right. now apply Hin.
    + exfalso. destruct (polygon k) as [|p pts]; [now apply Hp|].
      apply (Hcov p). right. apply Hin. now left.
  - intros Hp. split; [now apply (getKeysBoundingBox_delete exportKeys i k)|].
    intros cfg frameCount fid thumb tx ty st.
    now apply (selectedKey_delete cfg exportKeys i k).
Qed.


(** ** Trigger decision *)

Lemma processFinger_selected (cfg : Config) (exportKeys : list Key) (frameCount : Z)
    (fid : FingerId) (thumb : bool) (tx ty : Q) (st : FingerMaps)
    (raw : jsset nat) (k : nat) :
  selectedKey cfg exportKeys frameCount fid thumb tx ty st = Some k ->
  processFinger cfg exportKeys frameCount fid thumb tx ty st raw
  = decideTrigger cfg frameCount fid (snd (trackMotion cfg frameCount fid tx ty st)) k
                  (fst (trackMotion cfg frameCount fid tx ty st)) raw.
Proof.
  unfold selectedKey, processFinger.
  destruct (trackMotion cfg frameCount fid tx ty st) as [st1 m]. simpl.
  destruct (fingerKeysOf cfg exportKeys thumb tx ty m) as [fingerKeys|]; simpl;
    [|discriminate].
  intros ->. reflexivity.
Qed.

Lemma trackMotion_keeps (cfg : Config) (frameCount : Z) (fid : FingerId) (tx ty : Q)
    (st : FingerMaps) :
  let st1 := fst (trackMotion cfg frameCount fid tx ty st) in
  fingerKeyMapping st1 = fingerKeyMapping st
  /\ fingerPreviousKeys st1 = fingerPreviousKeys st
  /\ fingerTriggeredKeys st1 = fingerTriggeredKeys st
  /\ fingerTriggerFrames st1 = fingerTriggerFrames st.
Proof.
  unfold trackMotion.
  destruct (previousFingerPositions st !! fid) as [prev|]; simpl; auto.
Qed.

Lemma keyChanged_trackMotion (cfg : Config) (frameCount : Z) (fid : FingerId)
    (tx ty : Q) (st : FingerMaps) (k : nat) :
  keyChanged (fst (trackMotion cfg frameCount fid tx ty st)) fid k = keyChanged st fid k.
Proof.
  unfold keyChanged.
  now rewrite (proj1 (proj2 (trackMotion_keeps cfg frameCount fid tx ty st))).
Qed.

Lemma trackMotion_cooldown (cfg : Config) (frameCount : Z) (fid : FingerId)
    (tx ty : Q) (st : FingerMaps) :
  let m := snd (trackMotion cfg frameCount fid tx ty st) in
  lastTriggeredKey m = fingerTriggeredKeys st !! fid
  /\ framesSinceTrigger m = (frameCount - default 0 (fingerTriggerFrames st !! fid))%Z
  /\ isInCooldown m
     = bool_decide (is_Some (fingerTriggeredKeys st !! fid))
       && (frameCount - default 0 (fingerTriggerFrames st !! fid)
           <? TRIGGER_COOLDOWN_FRAMES cfg)%Z.
Proof.
  unfold trackMotion.
  destruct (previousFingerPositions st !! fid) as [prev|]; simpl; auto.
Qed.

Lemma keyChanged_true (st : FingerMaps) (fid : FingerId) (k : nat) :
  keyChanged st fid k = true <->
  exists previousKey, fingerPreviousKeys st !! fid = Some previousKey /\ previousKey <> k.
Proof.
  unfold keyChanged. destruct (fingerPreviousKeys st !! fid) as [p|].
  - rewrite negb_true_iff, Nat.eqb_neq. split.
    + intros H. now exists p.
    + intros (p' & [= <-] & H). exact H.
  - split; [discriminate | intros (p & H & _); discriminate].
Qed.

(** What a triggering finger leaves behind. *)
Lemma decideTrigger_triggers (cfg : Config) (frameCount : Z) (fid : FingerId)
    (m : Motion) (k : nat) (st : FingerMaps) (raw : jsset nat) :
  shouldTrigger cfg m st fid k = true ->
  let after := decideTrigger cfg frameCount fid m k st raw in
  has k (snd after) = true
  /\ fingerKeyMapping (fst after) !! fid = Some k
  /\ fingerPreviousKeys (fst after) !! fid = Some k
  /\ fingerTriggeredKeys (fst after) !! fid = Some k
  /\ fingerTriggerFrames (fst after) !! fid = Some frameCount
  /\ fingerRestFrames (fst after) !! fid = Some 0%Z.
Proof.
  intros H. unfold decideTrigger. rewrite H. simpl.
  rewrite has_add_same, !lookup_insert_eq. repeat split.
Qed.

(** C1.  Trigger cooldown with key-change bypass, for a finger for which
    hit-testing selected key [k] in this frame.  If [k] is the key the finger
    last triggered, fewer than [TRIGGER_COOLDOWN_FRAMES] frames have elapsed
    since that trigger, and the finger shows no movement, no downward movement
    and no key change, the finger asserts nothing in this frame.  If [k]
    differs from the finger's previously assigned key, [k] is asserted in this
    frame, whether or not the cooldown window is still open. *)
Theorem C1_cooldown_with_key_change_bypass (cfg : Config) (exportKeys : list Key)
    (frameCount : Z) (fid : FingerId) (thumb : bool) (tx ty : Q)
    (st : FingerMaps) (raw : jsset nat) (k : nat) :
  selectedKey cfg exportKeys frameCount fid thumb tx ty st = Some k ->
  let m := snd (trackMotion cfg frameCount fid tx ty st) in
  let after := processFinger cfg exportKeys frameCount fid thumb tx ty st raw in
  (fingerTriggeredKeys st !! fid = Some k ->
   (frameCount - default 0 (fingerTriggerFrames st !! fid)
    < TRIGGER_COOLDOWN_FRAMES cfg)%Z ->
   hasMovement m = false ->
   hasDownwardMovement m = false ->
   (forall previousKey, fingerPreviousKeys st !! fid = Some previousKey ->
                        previousKey = k) ->
   snd after = raw)
  /\ (forall previousKey,
        fingerPreviousKeys st !! fid = Some previousKey -> previousKey <> k ->
        has k (snd after) = true).
Proof.
  intros Hsel m after. unfold after.
  rewrite (processFinger_selected _ _ _ _ _ _ _ _ raw _ Hsel). fold m.
  set (st1 := fst (trackMotion cfg frameCount fid tx ty st)).
  assert (Hkc : keyChanged st1 fid k = keyChanged st fid k)
    by apply keyChanged_trackMotion.
  split.
  - intros _ _ Hmove Hdown Hsame.
    assert (Hno : keyChanged st fid k = false).
    { apply not_true_iff_false. rewrite keyChanged_true.
      intros (p & Hp & Hne). apply Hne, (Hsame _ Hp). }
    unfold decideTrigger, shouldTrigger, sustains.
    rewrite Hkc, Hno, Hmove, Hdown. simpl.
    now rewrite !andb_false_r.
  - intros p Hp Hne.
    assert (Hyes : keyChanged st fid k = true)
      by (apply keyChanged_true; now exists p).
    apply decideTrigger_triggers.
    unfold shouldTrigger, canTrigger. rewrite Hkc, Hyes.
    now rewrite !orb_true_r.
Qed.

Lemma C1_cooldown_with_key_change_bypass_witness :
  snd (processFinger default_config twoWhites 6 indexFinger false 21 8 struck []) = []
  /\ has 1%nat (snd (processFinger default_config twoWhites 6 indexFinger false 60 8
                               struck [])) = true.
Proof.
  split.
  - apply (proj1 (C1_cooldown_with_key_change_bypass
                    default_config twoWhites 6 indexFinger false 21 8 struck [] 0%nat
                    eq_refl)).
    + reflexivity.
    + reflexivity.
    + reflexivity.
    + reflexivity.
    + intros p Hp. vm_compute in Hp. now injection Hp as <-.
  - apply (proj2 (C1_cooldown_with_key_change_bypass
                    default_config twoWhites 6 indexFinger false 60 8 struck [] 1%nat
                    eq_refl) 0%nat).
    + reflexivity.
    + discriminate.
Defined.

Lemma isInCooldown_false (cfg : Config) (frameCount : Z) (fid : FingerId)
    (tx ty : Q) (st : FingerMaps) :
  isInCooldown (snd (trackMotion cfg frameCount fid tx ty st)) = false <->
  fingerTriggeredKeys st !! fid = None
  \/ (TRIGGER_COOLDOWN_FRAMES cfg
      <= frameCount - default 0 (fingerTriggerFrames st !! fid))%Z.
Proof.
  rewrite (proj2 (proj2 (trackMotion_cooldown cfg frameCount fid tx ty st))).
  rewrite andb_false_iff, Z.ltb_ge, bool_decide_eq_false.
  destruct (fingerTriggeredKeys st !! fid) as [j|].
  - split; intros [H|H]; auto; try discriminate.
    exfalso. apply H. now exists j.
  - split; intros _; left; [reflexivity | intros [j Hj]; discriminate].
Qed.

Lemma isInCooldown_true (cfg : Config) (frameCount : Z) (fid : FingerId)
    (tx ty : Q) (st : FingerMaps) :
  is_Some (fingerTriggeredKeys st !! fid) ->
  (frameCount - default 0 (fingerTriggerFrames st !! fid)
   < TRIGGER_COOLDOWN_FRAMES cfg)%Z ->
  isInCooldown (snd (trackMotion cfg frameCount fid tx ty st)) = true
  /\ (TRIGGER_COOLDOWN_FRAMES cfg
      <=? framesSinceTrigger (snd (trackMotion cfg frameCount fid tx ty st)))%Z = false.
Proof.
  intros Hlast Hsince.
  destruct (trackMotion_cooldown cfg frameCount fid tx ty st) as (_ & Hf & Hc).
  rewrite Hc, Hf. split.
  - apply andb_true_iff. split; [now apply bool_decide_eq_true | now apply Z.ltb_lt].
  - apply Z.leb_gt. exact Hsince.
Qed.

(** Without a trigger the finger's turn ends in the sustain branch or does
    nothing more than the motion tracker did. *)
Lemma decideTrigger_holds (cfg : Config) (frameCount : Z) (fid : FingerId)
    (m : Motion) (k : nat) (st : FingerMaps) (raw : jsset nat) :
  shouldTrigger cfg m st fid k = false ->
  decideTrigger cfg frameCount fid m k st raw
  = (st, if sustains m st fid k then add k raw else raw).
Proof.
  intros H. unfold decideTrigger. rewrite H. now destruct (sustains m st fid k).
Qed.

(** C4 (amended).  Trigger assertion, for a finger for which hit-testing
    selected key [k] in this frame.  If the cooldown is not running (the finger
    never triggered, or [TRIGGER_COOLDOWN_FRAMES] frames have elapsed) or the
    key differs from the previously assigned one, and in addition movement, a
    downward press or such a key change occurs in this frame, then [k] is
    asserted, the assigned key, the triggered key and the trigger frame of the
    finger are updated and its rest counter is reset to 0.  Otherwise (the
    cooldown is running on an unchanged key, or there is neither movement nor
    a downward press nor a key change) the finger does not trigger: its
    assigned key, previous key, triggered key and trigger frame stay as they
    were, and [k] is added to the asserted keys only by the sustain branch,
    that is exactly when the finger is already assigned to [k], a downward
    press occurs and the finger is not at rest.  In particular movement
    without a downward press does not assert the key during the cooldown
    window on the same key. *)
Theorem C4_trigger_assertion (cfg : Config) (exportKeys : list Key)
    (frameCount : Z) (fid : FingerId) (thumb : bool) (tx ty : Q)
    (st : FingerMaps) (raw : jsset nat) (k : nat) :
  selectedKey cfg exportKeys frameCount fid thumb tx ty st = Some k ->
  let m := snd (trackMotion cfg frameCount fid tx ty st) in
  let after := processFinger cfg exportKeys frameCount fid thumb tx ty st raw in
  ((fingerTriggeredKeys st !! fid = None
    \/ (TRIGGER_COOLDOWN_FRAMES cfg
        <= frameCount - default 0 (fingerTriggerFrames st !! fid))%Z
    \/ keyChanged st fid k = true) ->
   (hasMovement m = true \/ hasDownwardMovement m = true
    \/ keyChanged st fid k = true) ->
   has k (snd after) = true
   /\ fingerKeyMapping (fst after) !! fid = Some k
   /\ fingerPreviousKeys (fst after) !! fid = Some k
   /\ fingerTriggeredKeys (fst after) !! fid = Some k
   /\ fingerTriggerFrames (fst after) !! fid = Some frameCount
   /\ fingerRestFrames (fst after) !! fid = Some 0%Z)
  /\ ((is_Some (fingerTriggeredKeys st !! fid)
       /\ (frameCount - default 0 (fingerTriggerFrames st !! fid)
           < TRIGGER_COOLDOWN_FRAMES cfg)%Z
       /\ keyChanged st fid k = false)
      \/ (hasMovement m = false /\ hasDownwardMovement m = false
          /\ keyChanged st fid k = false) ->
      fingerKeyMapping (fst after) = fingerKeyMapping st
      /\ fingerPreviousKeys (fst after) = fingerPreviousKeys st
      /\ fingerTriggeredKeys (fst after) = fingerTriggeredKeys st
      /\ fingerTriggerFrames (fst after) = fingerTriggerFrames st
      /\ snd after
         = (if eqb_opt (fingerKeyMapping st !! fid) k
               && hasDownwardMovement m && negb (isAtRest m)
            then add k raw else raw)
      /\ (hasDownwardMovement m = false -> snd after = raw)).
Proof.
  intros Hsel m after. unfold after.
  rewrite (processFinger_selected _ _ _ _ _ _ _ _ raw _ Hsel). fold m.
  destruct (trackMotion_keeps cfg frameCount fid tx ty st) as (Hmap & Hprev & Hkeys & Hframes).
  split.
  - intros Hcan Hact. apply decideTrigger_triggers.
    unfold shouldTrigger, canTrigger. rewrite keyChanged_trackMotion.
    apply andb_true_iff. split.
    + destruct Hcan as [H | [H | H]].
      * assert (Hc : isInCooldown m = false) by (apply isInCooldown_false; auto).
        now rewrite Hc.
      * assert (Hc : isInCooldown m = false) by (apply isInCooldown_false; auto).
        now rewrite Hc.
      * rewrite H. now rewrite orb_true_r.
    + destruct Hact as [H | [H | H]]; rewrite H; auto using orb_true_r.
      now rewrite orb_true_r.
  - intros Hnot.
    assert (Hno : shouldTrigger cfg m (fst (trackMotion cfg frameCount fid tx ty st))
                                fid k = false).
    { unfold shouldTrigger, canTrigger. rewrite keyChanged_trackMotion.
      destruct Hnot as [(Hlast & Hsince & Hsame) | (Hmove & Hdown & Hsame)].
      - destruct (isInCooldown_true cfg frameCount fid tx ty st Hlast Hsince)
          as [Hc Hf].
        fold m in Hc, Hf. rewrite Hc, Hf, Hsame.
        now rewrite andb_false_r.
      - rewrite Hmove, Hdown, Hsame. apply andb_false_r. }
    rewrite (decideTrigger_holds _ _ _ _ _ _ _ Hno). cbn [fst snd].
    unfold sustains. rewrite Hmap.
    repeat split; auto.
    intros Hdown. rewrite Hdown. now rewrite andb_false_r.
Qed.

Lemma C4_trigger_assertion_witness :
  (has 0%nat (snd (processFinger default_config twoWhites 4 indexFinger false 20 8
                                 seen [])) = true
   /\ fingerTriggerFrames struck !! indexFinger = Some 4%Z
   /\ fingerRestFrames struck !! indexFinger = Some 0%Z)
  /\ (fingerTriggerFrames
        (fst (processFinger default_config twoWhites 6 indexFinger false 40 8
                            struck []))
      = fingerTriggerFrames struck
      /\ snd (processFinger default_config twoWhites 6 indexFinger false 40 8
                            struck []) = []).
Proof.
  split.
  - pose proof (proj1 (C4_trigger_assertion default_config twoWhites 4 indexFinger
                         false 20 8 seen [] 0%nat eq_refl)
                      (or_introl eq_refl) (or_introl eq_refl)) as H.
    repeat split; apply H.
  - assert (Hlast : is_Some (fingerTriggeredKeys struck !! indexFinger))
      by (exists 0%nat; reflexivity).
    assert (Hsince : (6 - default 0 (fingerTriggerFrames struck !! indexFinger)
                      < TRIGGER_COOLDOWN_FRAMES default_config)%Z)
      by (vm_compute; reflexivity).
    assert (Hsame : keyChanged struck indexFinger 0%nat = false)
      by (vm_compute; reflexivity).
    pose proof (proj2 (C4_trigger_assertion default_config twoWhites 6 indexFinger
                         false 40 8 struck [] 0%nat eq_refl)
                      (or_introl (conj Hlast (conj Hsince Hsame)))) as H.
    split; [apply H|].
    apply (proj2 (proj2 (proj2 (proj2 (proj2 H))))). vm_compute; reflexivity.
Defined.

(** C4, as stated, fails: in frame 6 the finger that struck the first key in
    frame 4 moves by 20 pixels within that key.  Movement occurs, the key is
    selected, but the cooldown window is open and the key did not change, so
    nothing is asserted. *)
Lemma C4_movement_in_cooldown_is_not_asserted :
  selectedKey default_config twoWhites 6 indexFinger false 40 8 struck = Some 0%nat
  /\ hasMovement (snd (trackMotion default_config 6 indexFinger 40 8 struck)) = true
  /\ snd (processFinger default_config twoWhites 6 indexFinger false 40 8 struck []) = [].
Proof. repeat split. Qed.

(** ** Hysteresis smoother *)

Lemma smoothKey_other (cfg : Config) (raw : jsset nat)
    (st : gmap nat (list nat) * jsset nat) (i j : nat) :
  i <> j ->
  fst (smoothKey cfg raw st j) !! i = fst st !! i
  /\ has i (snd (smoothKey cfg raw st j)) = has i (snd st).
Proof.
  intros Hne. destruct st as [hist act]. unfold smoothKey.
  assert (Hb : Nat.eqb i j = false) by now apply Nat.eqb_neq.
  destruct (default [] (hist !! j)) as [|s h].
  - destruct (has j raw); simpl; [|auto].
    rewrite lookup_insert_ne by congruence. now rewrite has_add, Hb.
  - destruct (negb (has j act) && _); simpl; [now rewrite has_add, Hb|].
    destruct (has j act && _); simpl; [now rewrite has_remove, Hb|auto].
Qed.

Lemma smoothKey_self (cfg : Config) (raw : jsset nat)
    (st : gmap nat (list nat) * jsset nat) (i : nat) :
  default [] (fst st !! i) <> [] ->
  fst (smoothKey cfg raw st i) = fst st
  /\ has i (snd (smoothKey cfg raw st i))
     = nextActive cfg (has i (snd st)) (detectionRate (default [] (fst st !! i))).
Proof.
  destruct st as [hist act]. simpl. intros Hne. unfold smoothKey, nextActive.
  destruct (default [] (hist !! i)) as [|s h] eqn:E; [contradiction|].
  destruct (negb (has i act) && _); simpl; [now rewrite has_add_same|].
  destruct (has i act && _) eqn:E2; simpl; [now rewrite has_remove_same|].
  auto.
Qed.

Lemma smoothKey_self_empty (cfg : Config) (raw : jsset nat)
    (st : gmap nat (list nat) * jsset nat) (i : nat) :
  default [] (fst st !! i) = [] ->
  smoothKey cfg raw st i
  = if has i raw
    then (<[i := repeat 1%nat (SMOOTHING_FRAMES cfg)]> (fst st), add i (snd st))
    else st.
Proof. destruct st as [hist act]. simpl. intros E. unfold smoothKey. now rewrite E. Qed.

Lemma recordDetection_lookup (cfg : Config) (raw : jsset nat)
    (hist : gmap nat (list nat)) (i j : nat) :
  recordDetection cfg raw hist j !! i
  = if decide (j = i)
    then Some (pushSample cfg (sample raw i) (default [] (hist !! i)))
    else hist !! i.
Proof.
  unfold recordDetection. rewrite lookup_insert.
  destruct (decide (j = i)) as [->|]; reflexivity.
Qed.

Lemma updateHistory_lookup_from (cfg : Config) (raw : jsset nat) (i : nat) :
  forall (n start : nat) (hist : gmap nat (list nat)),
    fold_left (recordDetection cfg raw) (seq start n) hist !! i
    = if decide (start <= i < start + n)%nat
      then Some (pushSample cfg (sample raw i) (default [] (hist !! i)))
      else hist !! i.
Proof.
  induction n as [|n IH]; intros start hist; simpl.
  - destruct (decide _); [lia | reflexivity].
  - rewrite IH, recordDetection_lookup.
    destruct (decide (start = i)) as [->|Hne].
    + destruct (decide (S i <= i < _)%nat); [lia|].
      destruct (decide (i <= i < _)%nat); [reflexivity | lia].
    + destruct (decide (S start <= i < _)%nat), (decide (start <= i < _)%nat);
        try lia; reflexivity.
Qed.

(** After the first [forEach] every key of the layout has had its sample
    pushed; other entries are untouched. *)
Lemma updateHistory_lookup (cfg : Config) (raw : jsset nat) (exportKeys : list Key)
    (hist : gmap nat (list nat)) (i : nat) :
  updateHistory cfg raw exportKeys hist !! i
  = if decide (i < length exportKeys)%nat
    then Some (pushSample cfg (sample raw i) (default [] (hist !! i)))
    else hist !! i.
Proof.
  unfold updateHistory. rewrite updateHistory_lookup_from.
  destruct (decide (0 <= i < 0 + _)%nat), (decide (i < _)%nat); try lia; reflexivity.
Qed.

Lemma applySmoothing_other (cfg : Config) (raw : jsset nat) (i : nat) :
  forall (l : list nat) (st : gmap nat (list nat) * jsset nat),
    ~ In i l ->
    fst (fold_left (smoothKey cfg raw) l st) !! i = fst st !! i
    /\ has i (snd (fold_left (smoothKey cfg raw) l st)) = has i (snd st).
Proof.
  induction l as [|j l IH]; intros st Hnot; simpl; [auto|].
  destruct (IH (smoothKey cfg raw st j)) as [H1 H2]; [intros H; apply Hnot; now right|].
  destruct (smoothKey_other cfg raw st i j) as [H3 H4];
    [intros ->; apply Hnot; now left|].
  rewrite H1, H2. auto.
Qed.

Lemma turnOf_key (cfg : Config) (raw : jsset nat)
    (st : gmap nat (list nat) * jsset nat) (i : nat) :
  fst (turnOf cfg raw st i) !! i = fst st !! i
  /\ has i (snd (turnOf cfg raw st i)) = has i (snd st).
Proof. apply applySmoothing_other. rewrite in_seq. lia. Qed.

Lemma applySmoothing_split (cfg : Config) (raw : jsset nat) (exportKeys : list Key)
    (st : gmap nat (list nat) * jsset nat) (i : nat) :
  (i < length exportKeys)%nat ->
  applySmoothing cfg raw exportKeys st
  = fold_left (smoothKey cfg raw) (seq (S i) (length exportKeys - S i))
              (smoothKey cfg raw (turnOf cfg raw st i) i).
Proof.
  intros Hi. unfold applySmoothing, turnOf.
  replace (length exportKeys) with (i + S (length exportKeys - S i))%nat at 1 by lia.
  rewrite seq_app, fold_left_app. reflexivity.
Qed.

(** The smoothing stage of a frame acts on key [i] as [keyFrame]. *)
Lemma smoothFrame_key (cfg : Config) (exportKeys : list Key)
    (st : gmap nat (list nat) * jsset nat) (raw : jsset nat) (i : nat) :
  (i < length exportKeys)%nat ->
  let st' := smoothFrame cfg exportKeys st raw in
  (default [] (fst st' !! i), has i (snd st'))
  = keyFrame cfg (has i raw) (default [] (fst st !! i), has i (snd st)).
Proof.
  intros Hi st'. unfold st', smoothFrame.
  set (st1 := (updateHistory cfg raw exportKeys (fst st), snd st)).
  rewrite (applySmoothing_split cfg raw exportKeys st1 i Hi).
  destruct (turnOf_key cfg raw st1 i) as [Hh Ha].
  set (t := turnOf cfg raw st1 i) in *.
  assert (Hpush : fst t !! i
                  = Some (pushSample cfg (sample raw i) (default [] (fst st !! i)))).
  { rewrite Hh. unfold st1. simpl. rewrite updateHistory_lookup.
    destruct (decide (i < length exportKeys)%nat); [reflexivity | lia]. }
  assert (Hact : has i (snd t) = has i (snd st)) by (rewrite Ha; reflexivity).
  destruct (applySmoothing_other cfg raw i (seq (S i) (length exportKeys - S i))
              (smoothKey cfg raw t i)) as [H1 H2]; [rewrite in_seq; lia|].
  rewrite H1, H2. unfold keyFrame. simpl fst. simpl snd.
  unfold sample in Hpush.
  destruct (pushSample cfg (if has i raw then 1 else 0)%nat (default [] (fst st !! i)))
    as [|s h] eqn:E.
  - rewrite smoothKey_self_empty by now rewrite Hpush.
    destruct (has i raw); simpl.
    + now rewrite lookup_insert_eq, has_add_same.
    + now rewrite Hpush, Hact.
  - destruct (smoothKey_self cfg raw t i) as [H3 H4]; [now rewrite Hpush|].
    rewrite H3, H4, Hpush, Hact. reflexivity.
Qed.

Lemma activeTrace_key (cfg : Config) (exportKeys : list Key) (i : nat) :
  (i < length exportKeys)%nat ->
  forall (raws : list (jsset nat)) (st : gmap nat (list nat) * jsset nat),
    map (has i) (activeTrace cfg exportKeys raws st)
    = keyTrace cfg (map (has i) raws) (default [] (fst st !! i), has i (snd st))
    /\ (default [] (fst (smoothRun cfg exportKeys raws st) !! i),
        has i (snd (smoothRun cfg exportKeys raws st)))
       = keyRun cfg (map (has i) raws) (default [] (fst st !! i), has i (snd st)).
Proof.
  intros Hi. induction raws as [|raw raws IH]; intros st; simpl; [auto|].
  pose proof (smoothFrame_key cfg exportKeys st raw i Hi) as Hk. simpl in Hk.
  destruct (IH (smoothFrame cfg exportKeys st raw)) as [IH1 IH2].
  unfold smoothRun in *. simpl. unfold keyRun in *. simpl.
  rewrite IH1, IH2, Hk. split; [|reflexivity].
  f_equal. now rewrite <- Hk.
Qed.

(** *** Rates *)

Lemma iq_pos (n : nat) : (0 < n)%nat -> 0 < iq n.
Proof.
  intros H. unfold iq. change 0 with (inject_Z 0). rewrite <- Zlt_Qlt. lia.
Qed.

Lemma iq_le (a b : nat) : (a <= b)%nat -> iq a <= iq b.
Proof. intros H. unfold iq. rewrite <- Zle_Qle. lia. Qed.

Lemma iq_mult (a b : nat) : iq (a * b) == iq a * iq b.
Proof. unfold iq. now rewrite Nat2Z.inj_mul, inject_Z_mult. Qed.

Lemma ratio_le (s1 l1 s2 l2 : nat) :
  (0 < l1)%nat -> (0 < l2)%nat -> (s1 * l2 <= s2 * l1)%nat ->
  iq s1 / iq l1 <= iq s2 / iq l2.
Proof.
  intros H1 H2 H. pose proof (iq_pos _ H1) as P1. pose proof (iq_pos _ H2) as P2.
  apply Qle_shift_div_r; [exact P1|].
  assert (E : iq s2 / iq l2 * iq l1 == iq s2 * iq l1 / iq l2) by (field; lra).
  rewrite E.
  apply Qle_shift_div_l; [exact P2|].
  rewrite <- !iq_mult. now apply iq_le.
Qed.

Lemma fold_left_add (h : list nat) (acc : nat) :
  fold_left Nat.add h acc = (acc + list_sum h)%nat.
Proof.
  revert acc. induction h as [|x h IH]; intros acc; simpl; [lia|].
  rewrite IH. lia.
Qed.

Lemma detectionRate_eq (h : list nat) :
  detectionRate h = iq (list_sum h) / iq (length h).
Proof. unfold detectionRate. now rewrite fold_left_add. Qed.

Lemma list_sum_le_length (h : list nat) :
  Forall (fun s => (s <= 1)%nat) h -> (list_sum h <= length h)%nat.
Proof. induction 1 as [|x h Hx _ IH]; simpl; lia. Qed.

Lemma list_sum_snoc (h : list nat) (s : nat) :
  list_sum (h ++ [s]) = (list_sum h + s)%nat.
Proof. rewrite list_sum_app. simpl. lia. Qed.

Lemma detectionRate_repeat (s : bool) (n : nat) :
  (0 < n)%nat -> detectionRate (repeat (bit s) n) == (if s then 1 else 0).
Proof.
  intros Hn. rewrite detectionRate_eq, repeat_length.
  assert (Hs : list_sum (repeat (bit s) n) = (bit s * n)%nat).
  { induction n as [|n IH]; simpl; [lia|].
    destruct n; [simpl; lia|]. rewrite IH by lia. lia. }
  rewrite Hs. pose proof (iq_pos n Hn). destruct s; simpl.
  - rewrite Nat.add_0_r. field. lra.
  - unfold iq at 1. simpl. field. lra.
Qed.

(** *** The rolling window *)

Lemma pushSample_cases (cfg : Config) (s : nat) (h : list nat) :
  (length h <= SMOOTHING_FRAMES cfg)%nat -> (1 <= SMOOTHING_FRAMES cfg)%nat ->
  ((length h < SMOOTHING_FRAMES cfg)%nat /\ pushSample cfg s h = h ++ [s])
  \/ (length h = SMOOTHING_FRAMES cfg
      /\ exists x t, h = x :: t /\ pushSample cfg s h = t ++ [s]).
Proof.
  intros Hlen HW. unfold pushSample. rewrite length_app. simpl.
  destruct (Nat.ltb_spec (SMOOTHING_FRAMES cfg) (length h + 1)) as [Hfull|Hroom].
  - right. split; [lia|]. destruct h as [|x t]; [simpl in *; lia|].
    now exists x, t.
  - left. split; [lia | reflexivity].
Qed.

Lemma pushSample_valid (cfg : Config) (s : bool) (h : list nat) :
  (1 <= SMOOTHING_FRAMES cfg)%nat -> validHistory cfg h ->
  validHistory cfg (pushSample cfg (bit s) h) /\ pushSample cfg (bit s) h <> [].
Proof.
  intros HW [Hall Hlen].
  assert (Hs : Forall (fun s => (s <= 1)%nat) [bit s])
    by (constructor; [destruct s; simpl; lia | constructor]).
  destruct (pushSample_cases cfg (bit s) h Hlen HW)
    as [[Hroom ->] | [Hfull (x & t & -> & ->)]].
  - split; [split|].
    + apply Forall_app; auto.
    + rewrite length_app. simpl. lia.
    + destruct h; discriminate.
  - split; [split|].
    + apply Forall_app. split; [now inversion Hall | exact Hs].
    + rewrite length_app. simpl in *. lia.
    + destruct t; discriminate.
Qed.

(** Pushing a 1 does not lower the rate, pushing a 0 does not raise it. *)
Lemma pushSample_rate (cfg : Config) (s : bool) (h : list nat) :
  (1 <= SMOOTHING_FRAMES cfg)%nat -> validHistory cfg h -> h <> [] ->
  if s then detectionRate h <= detectionRate (pushSample cfg (bit s) h)
  else detectionRate (pushSample cfg (bit s) h) <= detectionRate h.
Proof.
  intros HW [Hall Hlen] Hne. rewrite !detectionRate_eq.
  pose proof (list_sum_le_length h Hall) as Hsum.
  assert (Hpos : (0 < length h)%nat) by (destruct h; [contradiction | simpl; lia]).
  destruct (pushSample_cases cfg (bit s) h Hlen HW)
    as [[Hroom ->] | [Hfull (x & t & -> & ->)]].
  - rewrite list_sum_snoc, length_app. simpl length.
    destruct s; simpl bit; apply ratio_le; try lia; nia.
  - rewrite list_sum_snoc, length_app. simpl length. simpl list_sum.
    assert (Hx : (x <= 1)%nat) by now inversion Hall.
    destruct s; simpl bit; apply ratio_le; simpl; try lia; nia.
Qed.

(** After at least a window's worth of equal samples the window holds nothing
    else. *)
Lemma pushSample_fill (cfg : Config) (s : nat) :
  (1 <= SMOOTHING_FRAMES cfg)%nat ->
  forall (n : nat) (h : list nat),
    (length h <= SMOOTHING_FRAMES cfg)%nat ->
    exists pre k,
      Nat.iter n (pushSample cfg s) h = pre ++ repeat s k
      /\ (length pre + k <= SMOOTHING_FRAMES cfg)%nat
      /\ (Nat.min n (SMOOTHING_FRAMES cfg) <= k)%nat.
Proof.
  intros HW n. induction n as [|n IH]; intros h Hlen.
  - exists h, 0%nat. cbn [Nat.iter nat_rect repeat]. rewrite app_nil_r.
    repeat split; auto; lia.
  - cbn [Nat.iter nat_rect]. fold (Nat.iter n (pushSample cfg s) h).
    destruct (IH h Hlen) as (pre & k & -> & Hl & Hk).
    assert (Hl' : (length (pre ++ repeat s k) <= SMOOTHING_FRAMES cfg)%nat)
      by (rewrite length_app, repeat_length; exact Hl).
    destruct (pushSample_cases cfg s _ Hl' HW)
      as [[Hroom ->] | [Hfull (x & t & E & ->)]];
      rewrite length_app, repeat_length in *.
    + exists pre, (S k). rewrite <- app_assoc, <- repeat_cons.
      repeat split; auto; lia.
    + destruct pre as [|y pre]; cbn [app length] in *.
      * exists [], k. destruct k as [|k]; [discriminate|].
        cbn [repeat] in E. injection E as _ <-.
        rewrite <- repeat_cons. cbn [app length]. repeat split; auto; lia.
      * injection E as _ <-. exists pre, (S k).
        rewrite <- app_assoc, <- repeat_cons.
        repeat split; auto; lia.
Qed.

Lemma pushSample_full (cfg : Config) (s : nat) (n : nat) (h : list nat) :
  (1 <= SMOOTHING_FRAMES cfg)%nat ->
  (length h <= SMOOTHING_FRAMES cfg)%nat ->
  (SMOOTHING_FRAMES cfg <= n)%nat ->
  Nat.iter n (pushSample cfg s) h = repeat s (SMOOTHING_FRAMES cfg).
Proof.
  intros HW Hlen Hn.
  destruct (pushSample_fill cfg s HW n h Hlen) as (pre & k & -> & Hl & Hk).
  assert (k = SMOOTHING_FRAMES cfg) by lia. subst k.
  destruct pre; [reflexivity | simpl in Hl; lia].
Qed.

(** *** One key, frame after frame *)

Lemma keyFrame_valid (cfg : Config) (s b : bool) (h : list nat) :
  (1 <= SMOOTHING_FRAMES cfg)%nat -> validHistory cfg h ->
  keyFrame cfg s (h, b)
  = (pushSample cfg (bit s) h,
     nextActive cfg b (detectionRate (pushSample cfg (bit s) h))).
Proof.
  intros HW Hv. destruct (pushSample_valid cfg s h HW Hv) as [_ Hne].
  unfold keyFrame. simpl fst. simpl snd. fold (bit s).
  destruct (pushSample cfg (bit s) h); [contradiction | reflexivity].
Qed.

Lemma settled_dec (cfg : Config) (s : bool) (r : Q) :
  settled cfg s r \/ ~ settled cfg s r.
Proof.
  destruct s; simpl.
  - destruct (Qlt_le_dec r (ACTIVATION_THRESHOLD cfg)); [right | left]; lra.
  - destruct (Qlt_le_dec r (DEACTIVATION_THRESHOLD cfg)); [left | right]; lra.
Qed.

Lemma settled_compat (cfg : Config) (s : bool) (r r' : Q) :
  r == r' -> settled cfg s r -> settled cfg s r'.
Proof. intros E. destruct s; simpl; lra. Qed.

Lemma nextActive_settled (cfg : Config) (s b : bool) (r : Q) :
  DEACTIVATION_THRESHOLD cfg <= ACTIVATION_THRESHOLD cfg ->
  settled cfg s r -> nextActive cfg b r = s.
Proof.
  intros Hth Hs. unfold nextActive, Qgeb.
  destruct s; simpl in Hs.
  - assert (H1 : Qle_bool (ACTIVATION_THRESHOLD cfg) r = true) by now apply Qle_bool_iff.
    assert (H2 : Qltb r (DEACTIVATION_THRESHOLD cfg) = false) by (apply Qltb_ge; lra).
    rewrite H1, H2. now destruct b.
  - assert (H1 : Qle_bool (ACTIVATION_THRESHOLD cfg) r = false).
    { apply not_true_iff_false. rewrite Qle_bool_iff. lra. }
    assert (H2 : Qltb r (DEACTIVATION_THRESHOLD cfg) = true) by now apply Qltb_lt.
    rewrite H1, H2. now destruct b.
Qed.

Lemma nextActive_unsettled (cfg : Config) (s : bool) (r : Q) :
  ~ settled cfg s r -> nextActive cfg (negb s) r = negb s.
Proof.
  intros Hs. unfold nextActive, Qgeb. destruct s; simpl in *.
  - assert (H1 : Qle_bool (ACTIVATION_THRESHOLD cfg) r = false).
    { apply not_true_iff_false. now rewrite Qle_bool_iff. }
    now rewrite H1.
  - assert (H2 : Qltb r (DEACTIVATION_THRESHOLD cfg) = false).
    { apply not_true_iff_false. now rewrite Qltb_lt. }
    now rewrite H2.
Qed.

Lemma settled_push (cfg : Config) (s : bool) (h : list nat) :
  (1 <= SMOOTHING_FRAMES cfg)%nat -> validHistory cfg h -> h <> [] ->
  settled cfg s (detectionRate h) ->
  settled cfg s (detectionRate (pushSample cfg (bit s) h)).
Proof.
  intros HW Hv Hne Hs. pose proof (pushSample_rate cfg s h HW Hv Hne) as Hr.
  destruct s; simpl in *; lra.
Qed.

Lemma keyRun_history (cfg : Config) (s : bool) :
  (1 <= SMOOTHING_FRAMES cfg)%nat ->
  forall (n : nat) (h : list nat) (b : bool),
    validHistory cfg h ->
    fst (keyRun cfg (repeat s n) (h, b)) = Nat.iter n (pushSample cfg (bit s)) h
    /\ validHistory cfg (fst (keyRun cfg (repeat s n) (h, b))).
Proof.
  intros HW. induction n as [|n IH]; intros h b Hv; [now split|].
  unfold keyRun. cbn [repeat fold_left]. rewrite (keyFrame_valid cfg s b h HW Hv).
  destruct (pushSample_valid cfg s h HW Hv) as [Hv1 _].
  destruct (IH _ (nextActive cfg b (detectionRate (pushSample cfg (bit s) h))) Hv1)
    as [E Hv2].
  unfold keyRun in *. rewrite E. split; [|now rewrite <- E].
  now rewrite Nat.iter_succ_r.
Qed.

(** Once the samples have brought the rate to the threshold, the key is in
    the matching state. *)
Lemma keyRun_final (cfg : Config) (s : bool) (n : nat) (h : list nat) (b : bool) :
  (1 <= SMOOTHING_FRAMES cfg)%nat ->
  DEACTIVATION_THRESHOLD cfg <= ACTIVATION_THRESHOLD cfg ->
  validHistory cfg h ->
  (1 <= n)%nat ->
  settled cfg s (detectionRate (Nat.iter n (pushSample cfg (bit s)) h)) ->
  snd (keyRun cfg (repeat s n) (h, b)) = s.
Proof.
  intros HW Hth Hv Hn Hs. destruct n as [|m]; [lia|].
  assert (E : repeat s (S m) = repeat s m ++ [s]) by apply repeat_cons.
  rewrite E. unfold keyRun. rewrite fold_left_app. cbn [fold_left].
  fold (keyRun cfg (repeat s m) (h, b)).
  destruct (keyRun_history cfg s HW m h b Hv) as [Eh Hvm].
  destruct (keyRun cfg (repeat s m) (h, b)) as [hm bm]. simpl in Eh, Hvm.
  rewrite (keyFrame_valid cfg s bm hm HW Hvm). simpl snd.
  apply nextActive_settled; [exact Hth|]. rewrite Eh. exact Hs.
Qed.

(** How far [n] equal samples bring the rate. *)
Lemma iter_push_valid (cfg : Config) (s : bool) (n : nat) (h : list nat) :
  (1 <= SMOOTHING_FRAMES cfg)%nat -> validHistory cfg h ->
  validHistory cfg (Nat.iter n (pushSample cfg (bit s)) h).
Proof.
  intros HW Hv. induction n as [|n IH]; [exact Hv|].
  cbn [Nat.iter nat_rect]. now apply pushSample_valid.
Qed.

Lemma rate_after_ones (cfg : Config) (n : nat) (h : list nat) :
  (1 <= SMOOTHING_FRAMES cfg)%nat -> validHistory cfg h -> (1 <= n)%nat ->
  iq (Nat.min n (SMOOTHING_FRAMES cfg)) / iq (SMOOTHING_FRAMES cfg)
  <= detectionRate (Nat.iter n (pushSample cfg (bit true)) h).
Proof.
  intros HW Hv Hn.
  destruct (iter_push_valid cfg true n h HW Hv) as [Hall _].
  destruct (pushSample_fill cfg (bit true) HW n h (proj2 Hv))
    as (pre & k & E & Hl & Hk).
  rewrite E in *. rewrite detectionRate_eq, list_sum_app, length_app, repeat_length.
  assert (Hsum : list_sum (repeat (bit true) k) = k).
  { clear. induction k as [|k IH]; simpl in *; [reflexivity | now rewrite IH]. }
  rewrite Hsum. apply ratio_le; [lia | lia | nia].
Qed.

Lemma rate_after_zeros (cfg : Config) (n : nat) (h : list nat) :
  (1 <= SMOOTHING_FRAMES cfg)%nat -> validHistory cfg h -> (1 <= n)%nat ->
  detectionRate (Nat.iter n (pushSample cfg (bit false)) h)
  <= iq (SMOOTHING_FRAMES cfg - Nat.min n (SMOOTHING_FRAMES cfg))
     / iq (SMOOTHING_FRAMES cfg).
Proof.
  intros HW Hv Hn.
  destruct (iter_push_valid cfg false n h HW Hv) as [Hall _].
  destruct (pushSample_fill cfg (bit false) HW n h (proj2 Hv))
    as (pre & k & E & Hl & Hk).
  rewrite E in *. rewrite detectionRate_eq, list_sum_app, length_app, repeat_length.
  assert (Hsum : list_sum (repeat (bit false) k) = 0%nat).
  { clear. induction k as [|k IH]; simpl in *; [reflexivity | exact IH]. }
  rewrite Hsum.
  apply Forall_app in Hall. destruct Hall as [Hpre _].
  pose proof (list_sum_le_length pre Hpre) as Hp.
  apply ratio_le; [lia | lia | nia].
Qed.

(** [ACTIVATION_THRESHOLD x window] asserted frames reach the activation
    threshold; more than [(1 - DEACTIVATION_THRESHOLD) x window] frames without
    assertion fall below the release threshold. *)
Lemma enough_ones (cfg : Config) (n : nat) (h : list nat) :
  (1 <= SMOOTHING_FRAMES cfg)%nat -> validHistory cfg h -> (1 <= n)%nat ->
  ACTIVATION_THRESHOLD cfg <= 1 ->
  ACTIVATION_THRESHOLD cfg * iq (SMOOTHING_FRAMES cfg) <= iq n ->
  settled cfg true (detectionRate (Nat.iter n (pushSample cfg (bit true)) h)).
Proof.
  intros HW Hv Hn Hhigh Hlen. simpl.
  eapply Qle_trans; [|apply (rate_after_ones cfg n h HW Hv Hn)].
  pose proof (iq_pos (SMOOTHING_FRAMES cfg) HW) as Hpos.
  apply Qle_shift_div_l; [exact Hpos|].
  destruct (Nat.min_spec n (SMOOTHING_FRAMES cfg)) as [[_ ->] | [_ ->]].
  - exact Hlen.
  - pose proof (Qmult_le_compat_r _ _ (iq (SMOOTHING_FRAMES cfg)) Hhigh).
    lra.
Qed.

Lemma enough_zeros (cfg : Config) (n : nat) (h : list nat) :
  (1 <= SMOOTHING_FRAMES cfg)%nat -> validHistory cfg h -> (1 <= n)%nat ->
  0 < DEACTIVATION_THRESHOLD cfg ->
  (1 - DEACTIVATION_THRESHOLD cfg) * iq (SMOOTHING_FRAMES cfg) < iq n ->
  settled cfg false (detectionRate (Nat.iter n (pushSample cfg (bit false)) h)).
Proof.
  intros HW Hv Hn Hlow Hlen. simpl.
  eapply Qle_lt_trans; [apply (rate_after_zeros cfg n h HW Hv Hn)|].
  pose proof (iq_pos (SMOOTHING_FRAMES cfg) HW) as Hpos.
  apply Qlt_shift_div_r; [exact Hpos|].
  destruct (Nat.min_spec n (SMOOTHING_FRAMES cfg)) as [[Hlt ->] | [_ ->]].
  - assert (E : iq (SMOOTHING_FRAMES cfg - n) == iq (SMOOTHING_FRAMES cfg) - iq n).
    { unfold iq. rewrite Nat2Z.inj_sub by lia. unfold Zminus.
      rewrite inject_Z_plus, inject_Z_opp. ring. }
    rewrite E. lra.
  - rewrite Nat.sub_diag. change (iq 0) with 0.
    apply Qmult_lt_0_compat; assumption.
Qed.

(** Fed equal samples, the key changes state at most once, and towards the
    state that matches the samples. *)
Lemma keyTrace_shape (cfg : Config) (s : bool) :
  (1 <= SMOOTHING_FRAMES cfg)%nat ->
  DEACTIVATION_THRESHOLD cfg <= ACTIVATION_THRESHOLD cfg ->
  forall (n : nat) (h : list nat) (b : bool),
    validHistory cfg h ->
    (b = s -> h <> [] /\ settled cfg s (detectionRate h)) ->
    exists j, (j <= n)%nat
      /\ keyTrace cfg (repeat s n) (h, b) = repeat (negb s) j ++ repeat s (n - j)
      /\ (j = n -> (0 < n)%nat -> snd (keyRun cfg (repeat s n) (h, b)) = negb s).
Proof.
  intros HW Hth. induction n as [|n IH]; intros h b Hv Hb.
  - exists 0%nat. repeat split; auto. lia.
  - cbn [repeat keyTrace]. unfold keyRun. cbn [fold_left].
    fold (keyRun cfg (repeat s n) (keyFrame cfg s (h, b))).
    rewrite (keyFrame_valid cfg s b h HW Hv).
    destruct (pushSample_valid cfg s h HW Hv) as [Hv1 Hne1].
    set (h1 := pushSample cfg (bit s) h) in *.
    assert (Hon : settled cfg s (detectionRate h1) ->
                  exists j, (j <= S n)%nat
                    /\ s :: keyTrace cfg (repeat s n) (h1, s)
                       = repeat (negb s) j ++ repeat s (S n - j)
                    /\ (j = S n -> (0 < S n)%nat ->
                        snd (keyRun cfg (repeat s n) (h1, s)) = negb s)).
    { intros Hs. destruct (IH h1 s Hv1 (fun _ => conj Hne1 Hs)) as (j & Hj & Ht & Hf).
      assert (j = 0%nat).
      { destruct j as [|j]; [reflexivity|]. destruct n as [|n]; [lia|].
        cbn [repeat keyTrace] in Ht.
        rewrite (keyFrame_valid cfg s s h1 HW Hv1) in Ht. simpl in Ht.
        injection Ht as Ht _.
        rewrite (nextActive_settled cfg s s) in Ht;
          [destruct s; discriminate | exact Hth |].
        apply settled_push; auto. }
      subst j. exists 0%nat. rewrite Nat.sub_0_r in Ht. rewrite Ht.
      repeat split; [lia | lia]. }
    destruct (settled_dec cfg s (detectionRate h1)) as [Hs | Hs].
    + rewrite (nextActive_settled cfg s b _ Hth Hs). now apply Hon.
    + destruct (Bool.bool_dec b s) as [-> | Hbs].
      * exfalso. apply Hs. destruct (Hb eq_refl) as [Hne Hset].
        now apply settled_push.
      * assert (b = negb s) by (destruct b, s; simpl; congruence). subst b.
        rewrite (nextActive_unsettled cfg s _ Hs).
        destruct (IH h1 (negb s) Hv1) as (j & Hj & Ht & Hf).
        { intros Habs. destruct s; discriminate. }
        exists (S j). rewrite Ht. repeat split; [lia|].
        intros Hjn _. destruct n as [|n].
        -- reflexivity.
        -- apply Hf; lia.
Qed.

(** *** Counting transitions *)

Lemma countEdges_constant (from to s : bool) (n : nat) :
  from <> to -> countEdges from to s (repeat s n) = 0%nat.
Proof.
  intros Hne. induction n as [|n IH]; simpl; [reflexivity|]. rewrite IH.
  destruct from, to, s; simpl; congruence.
Qed.

Lemma countEdges_prefix (from to p : bool) (k : nat) (l : list bool) :
  from <> to ->
  countEdges from to p (repeat p k ++ l) = countEdges from to p l.
Proof.
  intros Hne. induction k as [|k IH]; simpl; [reflexivity|]. rewrite IH.
  destruct from, to, p; simpl; congruence.
Qed.

(** A sequence that starts in [negb s], switches to [s] and stays there has
    one transition towards [s] and none back. *)
Lemma countEdges_switch (s : bool) (j m : nat) :
  countEdges (negb s) s (negb s) (repeat (negb s) j ++ repeat s (S m)) = 1%nat
  /\ countEdges s (negb s) (negb s) (repeat (negb s) j ++ repeat s (S m)) = 0%nat.
Proof.
  rewrite !countEdges_prefix by (destruct s; discriminate).
  cbn [repeat countEdges].
  rewrite !countEdges_constant by (destruct s; discriminate).
  destruct s; split; reflexivity.
Qed.

Lemma map_has_constant (i : nat) (b : bool) (raws : list (jsset nat)) :
  Forall (fun raw => has i raw = b) raws ->
  map (has i) raws = repeat b (length raws).
Proof. induction 1 as [|raw raws H _ IH]; simpl; congruence. Qed.

(** A key fed equal samples until the rate reaches the threshold, starting
    from the opposite state, switches exactly once. *)
Lemma keyTrace_switches_once (cfg : Config) (s : bool) (n : nat) (h : list nat) :
  (1 <= SMOOTHING_FRAMES cfg)%nat ->
  DEACTIVATION_THRESHOLD cfg <= ACTIVATION_THRESHOLD cfg ->
  validHistory cfg h ->
  (1 <= n)%nat ->
  settled cfg s (detectionRate (Nat.iter n (pushSample cfg (bit s)) h)) ->
  countEdges (negb s) s (negb s) (keyTrace cfg (repeat s n) (h, negb s)) = 1%nat
  /\ countEdges s (negb s) (negb s) (keyTrace cfg (repeat s n) (h, negb s)) = 0%nat
  /\ snd (keyRun cfg (repeat s n) (h, negb s)) = s
  /\ validHistory cfg (fst (keyRun cfg (repeat s n) (h, negb s))).
Proof.
  intros HW Hth Hv Hn Hs.
  pose proof (keyRun_final cfg s n h (negb s) HW Hth Hv Hn Hs) as Hfin.
  destruct (keyTrace_shape cfg s HW Hth n h (negb s) Hv) as (j & Hj & Ht & Hlast).
  { intros Habs. destruct s; discriminate. }
  assert (Hlt : (j < n)%nat).
  { destruct (Nat.eq_dec j n) as [->|]; [|lia].
    rewrite Hfin in Hlast.
    assert (s = negb s) by (apply Hlast; lia). destruct s; discriminate. }
  rewrite Ht. replace (n - j)%nat with (S (n - j - 1)) by lia.
  destruct (countEdges_switch s j (n - j - 1)) as [H1 H2].
  split; [exact H1|]. split; [exact H2|]. split; [exact Hfin|].
  apply (keyRun_history cfg s HW n h (negb s) Hv).
Qed.

(** C2.  Hysteresis state transitions.  For a key with a non-empty detection
    history, with [detectionRate] the mean of its window: an inactive key
    becomes active exactly when [detectionRate >= ACTIVATION_THRESHOLD]; an
    active key becomes inactive exactly when
    [detectionRate < DEACTIVATION_THRESHOLD]; for a rate strictly between the
    two thresholds the state is unchanged.  With a window of at least one
    frame and thresholds satisfying
    [0 < DEACTIVATION_THRESHOLD <= ACTIVATION_THRESHOLD <= 1], feeding an
    inactive key all-1 samples for at least [ACTIVATION_THRESHOLD x window]
    frames activates it exactly once and never deactivates it, and feeding it
    afterwards all-0 samples for more than
    [(1 - DEACTIVATION_THRESHOLD) x window] frames, which is when the rate has
    dropped below [DEACTIVATION_THRESHOLD], deactivates it exactly once and
    never re-activates it. *)
Theorem C2_hysteresis_transitions (cfg : Config) (exportKeys : list Key) (i : nat) :
  (i < length exportKeys)%nat ->
  (forall (raw : jsset nat) (st : gmap nat (list nat) * jsset nat)
          (history : list nat),
      fst st !! i = Some history -> history <> [] ->
      let rate := detectionRate history in
      let st' := smoothKey cfg raw st i in
      (has i (snd st) = false ->
       (has i (snd st') = true <-> ACTIVATION_THRESHOLD cfg <= rate))
      /\ (has i (snd st) = true ->
          (has i (snd st') = false <-> rate < DEACTIVATION_THRESHOLD cfg))
      /\ (DEACTIVATION_THRESHOLD cfg < rate -> rate < ACTIVATION_THRESHOLD cfg ->
          has i (snd st') = has i (snd st)))
  /\ ((1 <= SMOOTHING_FRAMES cfg)%nat ->
      0 < DEACTIVATION_THRESHOLD cfg ->
      DEACTIVATION_THRESHOLD cfg <= ACTIVATION_THRESHOLD cfg ->
      ACTIVATION_THRESHOLD cfg <= 1 ->
      forall (st : gmap nat (list nat) * jsset nat) (ones zeros : list (jsset nat)),
        validHistory cfg (default [] (fst st !! i)) ->
        has i (snd st) = false ->
        Forall (fun raw => has i raw = true) ones ->
        ACTIVATION_THRESHOLD cfg * iq (SMOOTHING_FRAMES cfg) <= iq (length ones) ->
        Forall (fun raw => has i raw = false) zeros ->
        (1 - DEACTIVATION_THRESHOLD cfg) * iq (SMOOTHING_FRAMES cfg)
        < iq (length zeros) ->
        let rising := map (has i) (activeTrace cfg exportKeys ones st) in
        let st1 := smoothRun cfg exportKeys ones st in
        let falling := map (has i) (activeTrace cfg exportKeys zeros st1) in
        let st2 := smoothRun cfg exportKeys zeros st1 in
        activations false rising = 1%nat
        /\ deactivations false rising = 0%nat
        /\ has i (snd st1) = true
        /\ deactivations true falling = 1%nat
        /\ activations true falling = 0%nat
        /\ has i (snd st2) = false).
Proof.
  intros Hi. split.
  - intros raw st history Hh Hne rate st'.
    destruct (smoothKey_self cfg raw st i) as [_ Hact]; [now rewrite Hh|].
    rewrite Hh in Hact. simpl in Hact. fold rate in Hact. fold st' in Hact.
    rewrite Hact. unfold nextActive, Qgeb.
    split; [|split].
    + intros ->. simpl.
      destruct (Qle_bool (ACTIVATION_THRESHOLD cfg) rate) eqn:E.
      * apply Qle_bool_iff in E. tauto.
      * split; [discriminate|]. intros H. apply Qle_bool_iff in H. congruence.
    + intros ->. simpl.
      destruct (Qltb rate (DEACTIVATION_THRESHOLD cfg)) eqn:E.
      * apply Qltb_lt in E. tauto.
      * apply Qltb_ge in E. split; [discriminate | lra].
    + intros H1 H2.
      assert (E1 : Qle_bool (ACTIVATION_THRESHOLD cfg) rate = false).
      { apply not_true_iff_false. rewrite Qle_bool_iff. lra. }
      assert (E2 : Qltb rate (DEACTIVATION_THRESHOLD cfg) = false)
        by (apply Qltb_ge; lra).
      rewrite E1, E2. now destruct (has i (snd st)).
  - intros HW Hlow Hth Hhigh st ones zeros Hv Hoff Hones Hn1 Hzeros Hn0
           rising st1 falling st2.
    pose proof (iq_pos (SMOOTHING_FRAMES cfg) HW) as HposW.
    assert (Hlen1 : (1 <= length ones)%nat).
    { destruct ones; [|simpl; lia]. exfalso. change (iq (length [])) with 0 in Hn1.
      assert (0 < ACTIVATION_THRESHOLD cfg * iq (SMOOTHING_FRAMES cfg))
        by (apply Qmult_lt_0_compat; lra).
      lra. }
    assert (Hlen0 : (1 <= length zeros)%nat).
    { destruct zeros; [|simpl; lia]. exfalso. change (iq (length [])) with 0 in Hn0.
      assert (0 <= (1 - DEACTIVATION_THRESHOLD cfg) * iq (SMOOTHING_FRAMES cfg))
        by (apply Qmult_le_0_compat; lra).
      lra. }
    destruct (activeTrace_key cfg exportKeys i Hi ones st) as [Htr1 Hrun1].
    rewrite (map_has_constant i true ones Hones), Hoff in Htr1, Hrun1.
    destruct (keyTrace_switches_once cfg true (length ones)
                (default [] (fst st !! i)) HW Hth Hv Hlen1
                (enough_ones cfg _ _ HW Hv Hlen1 Hhigh Hn1)) as (A1 & A2 & A3 & A4).
    simpl negb in *. fold st1 in Hrun1.
    destruct (keyRun cfg (repeat true (length ones)) (default [] (fst st !! i), false))
      as [h1 b1] eqn:Ek. simpl in A3, A4. subst b1.
    injection Hrun1 as Hh1 Ha1.
    destruct (activeTrace_key cfg exportKeys i Hi zeros st1) as [Htr0 Hrun0].
    rewrite (map_has_constant i false zeros Hzeros), Hh1, Ha1 in Htr0, Hrun0.
    destruct (keyTrace_switches_once cfg false (length zeros) h1 HW Hth A4 Hlen0
                (enough_zeros cfg _ _ HW A4 Hlen0 Hlow Hn0)) as (B1 & B2 & B3 & _).
    simpl negb in *. fold st2 in Hrun0.
    assert (Ha2 : has i (snd st2) = false).
    { apply (f_equal snd) in Hrun0. simpl in Hrun0. now rewrite Hrun0. }
    unfold activations, deactivations, rising, falling.
    rewrite Htr1, Htr0. repeat split; assumption.
Qed.

(** ** The window invariant *)

Lemma pushSample_length (cfg : Config) (s : nat) (h : list nat) :
  (length h <= SMOOTHING_FRAMES cfg)%nat ->
  (length (pushSample cfg s h) <= SMOOTHING_FRAMES cfg)%nat.
Proof.
  intros H. unfold pushSample.
  destruct (Nat.ltb_spec (SMOOTHING_FRAMES cfg) (length (h ++ [s]))) as [Hf|Hf];
    [|exact Hf].
  destruct h as [|x t]; cbn [app tail length] in *; [lia|].
  rewrite length_app in *. cbn [length] in *. lia.
Qed.

Lemma pushSample_nonempty (cfg : Config) (s : nat) (h : list nat) :
  (1 <= SMOOTHING_FRAMES cfg)%nat ->
  (1 <= length (pushSample cfg s h))%nat.
Proof.
  intros HW. unfold pushSample.
  destruct (Nat.ltb_spec (SMOOTHING_FRAMES cfg) (length (h ++ [s]))) as [Hf|Hf].
  - destruct h as [|x t]; cbn [app tail length] in *; [lia|].
    rewrite length_app in *. cbn [length] in *. lia.
  - rewrite length_app. cbn [length]. lia.
Qed.

Lemma boundedHistory_default (cfg : Config) (hist : gmap nat (list nat)) (i : nat) :
  boundedHistory cfg hist ->
  (length (default [] (hist !! i)) <= SMOOTHING_FRAMES cfg)%nat.
Proof.
  intros H. destruct (hist !! i) as [h|] eqn:E; simpl; [apply (H i h E) | lia].
Qed.

Lemma boundedHistory_insert (cfg : Config) (hist : gmap nat (list nat))
    (i : nat) (h : list nat) :
  boundedHistory cfg hist -> (length h <= SMOOTHING_FRAMES cfg)%nat ->
  boundedHistory cfg (<[i := h]> hist).
Proof.
  intros H Hh j h' Hj. rewrite lookup_insert in Hj.
  destruct (decide (i = j)); [now injection Hj as <- | apply (H j h' Hj)].
Qed.

Lemma updateHistory_bounded (cfg : Config) (raw : jsset nat) (exportKeys : list Key)
    (hist : gmap nat (list nat)) :
  boundedHistory cfg hist ->
  boundedHistory cfg (updateHistory cfg raw exportKeys hist).
Proof.
  intros H i h. rewrite updateHistory_lookup.
  destruct (decide (i < length exportKeys)%nat); [|apply H].
  intros [= <-]. apply pushSample_length, boundedHistory_default, H.
Qed.

Lemma smoothKey_bounded (cfg : Config) (raw : jsset nat)
    (st : gmap nat (list nat) * jsset nat) (i : nat) :
  boundedHistory cfg (fst st) -> boundedHistory cfg (fst (smoothKey cfg raw st i)).
Proof.
  destruct st as [hist act]. simpl. intros H. unfold smoothKey.
  destruct (default [] (hist !! i)).
  - destruct (has i raw); simpl; [|exact H].
    apply boundedHistory_insert; [exact H | rewrite repeat_length; lia].
  - destruct (negb (has i act) && _); [exact H|].
    destruct (has i act && _); exact H.
Qed.

Lemma applySmoothing_bounded (cfg : Config) (raw : jsset nat) (exportKeys : list Key)
    (st : gmap nat (list nat) * jsset nat) :
  boundedHistory cfg (fst st) ->
  boundedHistory cfg (fst (applySmoothing cfg raw exportKeys st)).
Proof.
  unfold applySmoothing. generalize (seq 0 (length exportKeys)). intros l.
  revert st. induction l as [|i l IH]; intros st H; simpl; [exact H|].
  apply IH, smoothKey_bounded, H.
Qed.

Lemma drainKey_bounded (cfg : Config) (st : gmap nat (list nat) * jsset nat) (i : nat) :
  boundedHistory cfg (fst st) -> boundedHistory cfg (fst (drainKey cfg st i)).
Proof.
  destruct st as [hist act]. simpl. intros H. unfold drainKey.
  assert (Hb : boundedHistory cfg
                 (<[i := pushSample cfg 0 (default [] (hist !! i))]> hist)).
  { apply boundedHistory_insert; [exact H|].
    apply pushSample_length, boundedHistory_default, H. }
  destruct (pushSample cfg 0 (default [] (hist !! i))); [exact Hb|].
  destruct (has i act && _); exact Hb.
Qed.

Lemma drainAll_bounded (cfg : Config) (exportKeys : list Key)
    (st : gmap nat (list nat) * jsset nat) :
  boundedHistory cfg (fst st) ->
  boundedHistory cfg (fst (drainAll cfg exportKeys st)).
Proof.
  unfold drainAll. generalize (seq 0 (length exportKeys)). intros l.
  revert st. induction l as [|i l IH]; intros st H; simpl; [exact H|].
  apply IH, drainKey_bounded, H.
Qed.

Lemma smoothAndEmit_bounded (cfg : Config) (exportKeys : list Key)
    (handsDetected : bool) (raw : jsset nat) (e : Engine) :
  boundedHistory cfg (keyDetectionHistory e) ->
  boundedHistory cfg
    (keyDetectionHistory (fst (smoothAndEmit cfg exportKeys handsDetected raw e))).
Proof.
  intros H. unfold smoothAndEmit.
  pose proof (applySmoothing_bounded cfg raw exportKeys
                (updateHistory cfg raw exportKeys (keyDetectionHistory e),
                 smoothedActiveKeys e)
                (updateHistory_bounded cfg raw exportKeys _ H)) as H2.
  destruct (applySmoothing cfg raw exportKeys _) as [history2 active2].
  simpl in H2. destruct handsDetected.
  - destruct (emitWithHands exportKeys active2 (currentlyHoveredNotes e))
      as [[events notes]|]; exact H2.
  - pose proof (drainAll_bounded cfg exportKeys (history2, active2) H2) as H3.
    destruct (drainAll cfg exportKeys (history2, active2)) as [history3 active3].
    destruct (emitWithoutHands active3 (currentlyHoveredNotes e)). exact H3.
Qed.

Lemma processLandmarkerResults_bounded (canvasWidth canvasHeight : Q)
    (transformPointForDetection : Q -> Q -> point) (cfg : Config)
    (exportKeys : list Key) (frameCount : Z) (hands : list Hand) (e : Engine) :
  boundedHistory cfg (keyDetectionHistory e) ->
  boundedHistory cfg
    (keyDetectionHistory
       (fst (processLandmarkerResults canvasWidth canvasHeight
               transformPointForDetection cfg exportKeys frameCount hands e))).
Proof.
  intros H. unfold processLandmarkerResults.
  destruct exportKeys as [|k keys]; [exact H|].
  destruct (processHandsFrom _ _ _ _ _ _ _ _ _ _) as [fingers1 raw].
  set (e1 := mkEngine fingers1 _ _ _ _).
  set (limited := limitKeys _ _ _ _ _ _).
  set (detected := negb _).
  pose proof (smoothAndEmit_bounded cfg (k :: keys) detected limited e1 H) as H2.
  destruct (smoothAndEmit cfg (k :: keys) detected limited e1) as [e2 [events|]];
    exact H2.
Qed.

Lemma runFrames_bounded (canvasWidth canvasHeight : Q)
    (transformPointForDetection : Q -> Q -> point) (cfg : Config)
    (inputs : list FrameInput) :
  forall e, boundedHistory cfg (keyDetectionHistory e) ->
    boundedHistory cfg
      (keyDetectionHistory
         (runFrames canvasWidth canvasHeight transformPointForDetection cfg inputs e)).
Proof.
  induction inputs as [|f inputs IH]; intros e H; [exact H|].
  apply IH, processLandmarkerResults_bounded, H.
Qed.

(** The hysteresis loop of a frame, cut at the turn of key [i]. *)
Lemma applySmoothing_from_turn (cfg : Config) (raw : jsset nat) (exportKeys : list Key)
    (st : gmap nat (list nat) * jsset nat) (i : nat) :
  (i < length exportKeys)%nat ->
  applySmoothing cfg raw exportKeys st
  = fold_left (smoothKey cfg raw) (seq i (length exportKeys - i)) (turnOf cfg raw st i).
Proof.
  intros Hi. unfold applySmoothing, turnOf.
  replace (length exportKeys) with (i + (length exportKeys - i))%nat at 1 by lia.
  rewrite seq_app, fold_left_app. reflexivity.
Qed.

Lemma smoothAndEmit_state (cfg : Config) (exportKeys : list Key)
    (handsDetected : bool) (raw : jsset nat) (e : Engine) :
  let smoothed :=
    applySmoothing cfg raw exportKeys
      (updateHistory cfg raw exportKeys (keyDetectionHistory e), smoothedActiveKeys e) in
  let e' := fst (smoothAndEmit cfg exportKeys handsDetected raw e) in
  (keyDetectionHistory e', smoothedActiveKeys e')
  = if handsDetected then smoothed else drainAll cfg exportKeys smoothed.
Proof.
  intros smoothed e'. unfold e', smoothAndEmit. fold smoothed.
  destruct smoothed as [history2 active2]. destruct handsDetected.
  - now destruct (emitWithHands exportKeys active2 (currentlyHoveredNotes e))
      as [[events notes]|].
  - destruct (drainAll cfg exportKeys (history2, active2)) as [history3 active3].
    now destruct (emitWithoutHands active3 (currentlyHoveredNotes e)).
Qed.

Lemma processLandmarkerResults_state (canvasWidth canvasHeight : Q)
    (transformPointForDetection : Q -> Q -> point) (cfg : Config)
    (exportKeys : list Key) (frameCount : Z) (stabilizedLandmarks : list Hand)
    (e : Engine) :
  exportKeys <> [] ->
  let raw :=
    limitKeys canvasWidth canvasHeight transformPointForDetection exportKeys
      stabilizedLandmarks
      (snd (processHandsFrom canvasWidth canvasHeight transformPointForDetection
              cfg exportKeys frameCount 0 stabilizedLandmarks (fingers e) [])) in
  let smoothed :=
    applySmoothing cfg raw exportKeys
      (updateHistory cfg raw exportKeys (keyDetectionHistory e), smoothedActiveKeys e) in
  let e' := fst (processLandmarkerResults canvasWidth canvasHeight
                   transformPointForDetection cfg exportKeys frameCount
                   stabilizedLandmarks e) in
  (keyDetectionHistory e', smoothedActiveKeys e')
  = match stabilizedLandmarks with
    | [] => drainAll cfg exportKeys smoothed
    | _ => smoothed
    end.
Proof.
  intros Hkeys raw smoothed e'. unfold e', processLandmarkerResults.
  destruct exportKeys as [|k keys]; [contradiction|].
  unfold smoothed, raw.
  destruct (processHandsFrom _ _ _ _ _ _ _ _ _ _) as [fingers1 raw0]. cbn [snd].
  set (limited := limitKeys _ _ _ _ _ _).
  set (e1 := mkEngine fingers1 _ _ _ _).
  pose proof (smoothAndEmit_state cfg (k :: keys)
                (negb (Nat.eqb (length stabilizedLandmarks) 0)) limited e1) as H.
  cbv zeta in H. change (keyDetectionHistory e1) with (keyDetectionHistory e) in H.
  change (smoothedActiveKeys e1) with (smoothedActiveKeys e) in H.
  destruct (smoothAndEmit cfg (k :: keys) _ limited e1) as [e2 [events|]];
    cbn [fst keyDetectionHistory smoothedActiveKeys] in *;
    rewrite H; now destruct stabilizedLandmarks.
Qed.

(** C10.  Detection-history invariant.  Under a constant window length of at
    least one frame, in every frame processed with a non-empty layout, after
    any sequence of earlier frames from the initial state, and for every key
    [i] of the layout: the state the frame leaves is the one reached by
    running the hysteresis loop from the turn of key [i] on (followed by the
    release loop when no hand is detected), and at that turn the sample of
    this frame has already been pushed: the history of the key is its earlier
    window with the sample appended, of a length between 1 and
    [SMOOTHING_FRAMES], hence not empty.  The turn therefore does not take the
    branch guarded by [history.length === 0]: it leaves the histories as they
    are and decides by the thresholds, and in a frame with hands the window
    stored for the key is the pushed one. *)
Theorem C10_history_pushed_before_hysteresis (canvasWidth canvasHeight : Q)
    (transformPointForDetection : Q -> Q -> point) (cfg : Config)
    (earlier : list FrameInput) (exportKeys : list Key) (frameCount : Z)
    (stabilizedLandmarks : list Hand) (i : nat) :
  (1 <= SMOOTHING_FRAMES cfg)%nat ->
  (i < length exportKeys)%nat ->
  let e := runFrames canvasWidth canvasHeight transformPointForDetection cfg
                     earlier initialEngine in
  let raw :=
    limitKeys canvasWidth canvasHeight transformPointForDetection exportKeys
      stabilizedLandmarks
      (snd (processHandsFrom canvasWidth canvasHeight transformPointForDetection
              cfg exportKeys frameCount 0 stabilizedLandmarks (fingers e) [])) in
  let e' := fst (processLandmarkerResults canvasWidth canvasHeight
                   transformPointForDetection cfg exportKeys frameCount
                   stabilizedLandmarks e) in
  let atTurn :=
    turnOf cfg raw
           (updateHistory cfg raw exportKeys (keyDetectionHistory e),
            smoothedActiveKeys e) i in
  let fromTurn :=
    fold_left (smoothKey cfg raw) (seq i (length exportKeys - i)) atTurn in
  let pushed :=
    pushSample cfg (sample raw i) (default [] (keyDetectionHistory e !! i)) in
  (keyDetectionHistory e', smoothedActiveKeys e')
  = match stabilizedLandmarks with
    | [] => drainAll cfg exportKeys fromTurn
    | _ => fromTurn
    end
  /\ fst atTurn !! i = Some pushed
  /\ (1 <= length pushed <= SMOOTHING_FRAMES cfg)%nat
  /\ default [] (fst atTurn !! i) <> []
  /\ fst (smoothKey cfg raw atTurn i) = fst atTurn
  /\ has i (snd (smoothKey cfg raw atTurn i))
     = nextActive cfg (has i (smoothedActiveKeys e)) (detectionRate pushed)
  /\ (stabilizedLandmarks <> [] ->
      keyDetectionHistory e' !! i = Some pushed
      /\ has i (smoothedActiveKeys e')
         = nextActive cfg (has i (smoothedActiveKeys e)) (detectionRate pushed)).
Proof.
  intros HW Hi e raw e' atTurn fromTurn pushed.
  assert (Hkeys : exportKeys <> []) by (intros E; rewrite E in Hi; simpl in Hi; lia).
  assert (Hb : boundedHistory cfg (keyDetectionHistory e)).
  { apply runFrames_bounded. intros j h Hj. discriminate. }
  pose proof (processLandmarkerResults_state canvasWidth canvasHeight
                transformPointForDetection cfg exportKeys frameCount
                stabilizedLandmarks e Hkeys) as Hstate.
  cbv zeta in Hstate. fold raw e' in Hstate.
  rewrite (applySmoothing_from_turn cfg raw exportKeys _ i Hi) in Hstate.
  fold atTurn fromTurn in Hstate.
  destruct (turnOf_key cfg raw
              (updateHistory cfg raw exportKeys (keyDetectionHistory e),
               smoothedActiveKeys e) i) as [Hh Ha].
  fold atTurn in Hh, Ha. cbn [fst snd] in Hh, Ha.
  rewrite updateHistory_lookup in Hh.
  destruct (decide (i < length exportKeys)%nat); [|lia]. fold pushed in Hh.
  pose proof (pushSample_nonempty cfg (sample raw i)
                (default [] (keyDetectionHistory e !! i)) HW) as Hlow.
  pose proof (pushSample_length cfg (sample raw i) _
                (boundedHistory_default cfg _ i Hb)) as Hhigh.
  fold pushed in Hlow, Hhigh.
  assert (Hne : default [] (fst atTurn !! i) <> []).
  { rewrite Hh. simpl. intros E. rewrite E in Hlow. simpl in Hlow. lia. }
  destruct (smoothKey_self cfg raw atTurn i Hne) as [Hsame Hnext].
  rewrite Hh, Ha in Hnext. cbn [default from_option] in Hnext.
  split; [exact Hstate|]. split; [exact Hh|]. split; [lia|]. split; [exact Hne|].
  split; [exact Hsame|]. split; [exact Hnext|].
  intros Hhands.
  assert (Hfrom : (keyDetectionHistory e', smoothedActiveKeys e') = fromTurn)
    by (rewrite Hstate; destruct stabilizedLandmarks; [contradiction | reflexivity]).
  unfold fromTurn in Hfrom.
  replace (length exportKeys - i)%nat with (S (length exportKeys - S i)) in Hfrom by lia.
  cbn [seq fold_left] in Hfrom.
  destruct (applySmoothing_other cfg raw i (seq (S i) (length exportKeys - S i))
              (smoothKey cfg raw atTurn i)) as [H1 H2]; [rewrite in_seq; lia|].
  rewrite <- Hfrom in H1, H2. cbn [fst snd] in H1, H2.
  rewrite H1, H2, Hsame, Hh, Hnext. split; reflexivity.
Qed.

(** ** Event emitter *)

Section SetFacts.
Context {A : Type} (eqb : A -> A -> bool).
Hypothesis eqb_eq : forall x y, eqb x y = true <-> x = y.

Lemma set_has_In (x : A) (s : jsset A) : set_has eqb x s = true <-> In x s.
Proof.
  unfold set_has. rewrite existsb_exists. split.
  - intros (y & Hy & E). apply eqb_eq in E. now subst.
  - intros H. exists x. split; [exact H | now apply eqb_eq].
Qed.

Lemma set_has_false (x : A) (s : jsset A) : set_has eqb x s = false <-> ~ In x s.
Proof. rewrite <- set_has_In. symmetry. apply not_true_iff_false. Qed.

Lemma set_add_In (x y : A) (s : jsset A) :
  In x (set_add eqb y s) <-> x = y \/ In x s.
Proof.
  unfold set_add. destruct (set_has eqb y s) eqn:E.
  - apply set_has_In in E. split; [auto | intros [->|]; auto].
  - rewrite in_app_iff. simpl. intuition.
Qed.

Lemma set_of_list_In (x : A) (l : list A) : In x (set_of_list eqb l) <-> In x l.
Proof.
  unfold set_of_list.
  assert (H : forall s, In x (fold_left (fun s y => set_add eqb y s) l s)
                        <-> In x s \/ In x l).
  { induction l as [|y l IH]; intros s; simpl; [tauto|].
    rewrite IH, set_add_In. intuition. }
  rewrite H. simpl. tauto.
Qed.
Lemma set_add_NoDup (x : A) (s : jsset A) :
  List.NoDup s -> List.NoDup (set_add eqb x s).
Proof.
  intros H. unfold set_add. destruct (set_has eqb x s) eqn:E; [exact H|].
  apply set_has_false in E. apply List.NoDup_app; [exact H | | ].
  - repeat constructor. intros [].
  - intros y Hy [<- | []]. contradiction.
Qed.

Lemma set_of_list_NoDup (l : list A) : List.NoDup (set_of_list eqb l).
Proof.
  unfold set_of_list.
  assert (H : forall s, List.NoDup s ->
                        List.NoDup (fold_left (fun s y => set_add eqb y s) l s)).
  { induction l as [|y l IH]; intros s Hs; simpl; [exact Hs|].
    apply IH, set_add_NoDup, Hs. }
  apply H. constructor.
Qed.
End SetFacts.

Lemma hovered_keys (exportKeys : list Key) (hoveredKeyIndices : jsset nat)
    (hovered : list (nat * Key)) :
  mapM (fun i => (fun k => (i, k)) <$> exportKeys !! i) hoveredKeyIndices
  = Some hovered ->
  forall i k, In (i, k) hovered <-> In i hoveredKeyIndices /\ exportKeys !! i = Some k.
Proof.
  rewrite mapM_Some. induction 1 as [|j [j' kj] l l' Hj _ IH]; intros i k; simpl.
  - tauto.
  - rewrite IH. destruct (exportKeys !! j) as [kj0|] eqn:E; [|discriminate].
    simpl in Hj. injection Hj as <- <-. split.
    + intros [[= <- <-] | H]; auto. tauto.
    + intros [[<- | H] Hk]; [left; congruence | right; tauto].
Qed.

Lemma emitWithHands_spec (exportKeys : list Key) (hoveredKeyIndices : jsset nat)
    (current : jsset string) (events : list Event) (notes : jsset string) :
  emitWithHands exportKeys hoveredKeyIndices current = Some (events, notes) ->
  (forall n, In n notes <->
             exists i k, has i hoveredKeyIndices = true
                         /\ exportKeys !! i = Some k /\ note k = n)
  /\ (forall n, In (NoteOn n) events <-> In n notes /\ ~ In n current)
  /\ (forall n, In (NoteOff n) events <-> In n current /\ ~ In n notes).
Proof.
  unfold emitWithHands.
  destruct (mapM _ hoveredKeyIndices) as [hovered|] eqn:E; [|discriminate].
  simpl. intros [= <- <-]. pose proof (hovered_keys _ _ _ E) as Hk.
  assert (Hnotes : forall n,
    In n (set_of_list String.eqb
            (map (fun ik => note (snd ik)) (js_sort leftOf hovered))) <->
    exists i k, has i hoveredKeyIndices = true /\ exportKeys !! i = Some k /\ note k = n).
  { intros n. rewrite (set_of_list_In String.eqb String.eqb_eq), in_map_iff. split.
    - intros ([i k] & <- & Hin). apply js_sort_In, Hk in Hin.
      exists i, k. rewrite has_In. tauto.
    - intros (i & k & Hi & Hik & <-). exists (i, k). split; [reflexivity|].
      apply js_sort_In, Hk. rewrite <- has_In. tauto. }
  split; [exact Hnotes|]. split; intros n; rewrite in_app_iff, !in_map_iff.
  - split.
    + intros [(n' & [= ->] & Hin) | (n' & [=] & _)].
      apply filter_In in Hin. destruct Hin as [Hin Hnot].
      apply negb_true_iff, (set_has_false String.eqb String.eqb_eq) in Hnot. auto.
    + intros [Hin Hnot]. left. exists n. split; [reflexivity|].
      apply filter_In. split; [exact Hin|].
      now apply negb_true_iff, (set_has_false String.eqb String.eqb_eq).
  - split.
    + intros [(n' & [=] & _) | (n' & [= ->] & Hin)].
      apply filter_In in Hin. destruct Hin as [Hin Hnot].
      apply negb_true_iff, (set_has_false String.eqb String.eqb_eq) in Hnot. auto.
    + intros [Hin Hnot]. right. exists n. split; [reflexivity|].
      apply filter_In. split; [exact Hin|].
      now apply negb_true_iff, (set_has_false String.eqb String.eqb_eq).
Qed.

Lemma map_NoDup_injective {A B : Type} (f : A -> B) (l : list A) :
  (forall x y, f x = f y -> x = y) -> List.NoDup l -> List.NoDup (map f l).
Proof.
  intros Hinj. induction 1 as [|x l Hx _ IH]; simpl; constructor; [|exact IH].
  intros H. apply in_map_iff in H. destruct H as (y & Hy & Hin).
  apply Hinj in Hy. now subst.
Qed.

Lemma emitWithHands_NoDup (exportKeys : list Key) (hoveredKeyIndices : jsset nat)
    (current : jsset string) (events : list Event) (notes : jsset string) :
  emitWithHands exportKeys hoveredKeyIndices current = Some (events, notes) ->
  List.NoDup current -> List.NoDup events.
Proof.
  unfold emitWithHands.
  destruct (mapM _ hoveredKeyIndices) as [hovered|]; [|discriminate].
  simpl. intros [= <- _] Hcur.
  apply List.NoDup_app.
  - apply map_NoDup_injective; [intros x y [=]; assumption|].
    apply List.NoDup_filter, (set_of_list_NoDup String.eqb String.eqb_eq).
  - apply map_NoDup_injective; [intros x y [=]; assumption|].
    apply List.NoDup_filter, Hcur.
  - intros ev Hon Hoff. apply in_map_iff in Hon, Hoff.
    destruct Hon as (n & <- & _), Hoff as (n' & [=] & _).
Qed.

(** C6 (amended).  Event emission.  In a frame with hands: for every key index
    newly present in the stable active-key set a note-on for the key's note
    identifier is emitted exactly when that identifier is not already in the
    sounding set; for every key index newly absent whose identifier is in the
    sounding set, a note-off is emitted exactly when no remaining active key
    shares the identifier; nothing else is emitted (every note-on is for the
    identifier of an active key that is not yet sounding, every note-off for a
    sounding identifier that no active key has) and no event is emitted
    twice; and the sounding set becomes the set of identifiers of the active
    keys.  In a frame without hands nothing is emitted while some key is still
    active, and once the stable active-key set is empty every sounding note
    gets its note-off. *)
Theorem C6_event_emission (cfg : Config) (exportKeys : list Key)
    (raw : jsset nat) (e e' : Engine) (events : list Event) :
  let before := smoothedActiveKeys e in
  let after := smoothedActiveKeys e' in
  let sounding := currentlyHoveredNotes e in
  (smoothAndEmit cfg exportKeys true raw e = (e', Some events) ->
   (forall i k, exportKeys !! i = Some k ->
                has i before = false -> has i after = true ->
                (In (NoteOn (note k)) events <-> ~ In (note k) sounding))
   /\ (forall i k, exportKeys !! i = Some k ->
                   has i before = true -> has i after = false ->
                   In (note k) sounding ->
                   (In (NoteOff (note k)) events <->
                    forall j kj, has j after = true -> exportKeys !! j = Some kj ->
                                 note kj <> note k))
   /\ (forall n, In (NoteOn n) events <->
                 ~ In n sounding
                 /\ exists i k, has i after = true /\ exportKeys !! i = Some k
                                /\ note k = n)
   /\ (forall n, In (NoteOff n) events <->
                 In n sounding
                 /\ forall j kj, has j after = true -> exportKeys !! j = Some kj ->
                                 note kj <> n)
   /\ (List.NoDup sounding -> List.NoDup events)
   /\ (forall n, In n (currentlyHoveredNotes e') <->
                 exists i k, has i after = true /\ exportKeys !! i = Some k
                             /\ note k = n))
  /\ (smoothAndEmit cfg exportKeys false raw e = (e', Some events) ->
      (after <> [] -> events = [] /\ currentlyHoveredNotes e' = sounding)
      /\ (after = [] ->
          events = map NoteOff sounding /\ currentlyHoveredNotes e' = [])).
Proof.
  intros before after sounding. unfold smoothAndEmit.
  destruct (applySmoothing cfg raw exportKeys _) as [history2 active2].
  split.
  - destruct (emitWithHands exportKeys active2 (currentlyHoveredNotes e))
      as [[events0 notes]|] eqn:E; [|discriminate].
    intros [= <- <-]. destruct (emitWithHands_spec _ _ _ _ _ E) as (Hn & Hon & Hoff).
    pose proof (emitWithHands_NoDup _ _ _ _ _ E) as Hnd.
    unfold after, sounding. simpl.
    assert (Hshare : forall n,
      ~ In n notes <->
      forall j kj, has j active2 = true -> exportKeys !! j = Some kj -> note kj <> n).
    { intros n. rewrite Hn. split.
      - intros Hno j kj Hj Hkj Hnote. apply Hno. now exists j, kj.
      - intros Hall (j & kj & Hj & Hkj & Hnote). now apply (Hall j kj). }
    split; [|split; [|split; [|split; [|split]]]].
    + intros i k Hk _ Hafter. rewrite Hon. split; [tauto|].
      intros Hs. split; [|exact Hs]. apply Hn. now exists i, k.
    + intros i k Hk _ _ Hs. rewrite Hoff, Hshare. tauto.
    + intros n. rewrite Hon, Hn. tauto.
    + intros n. rewrite Hoff, Hshare. tauto.
    + exact Hnd.
    + exact Hn.
  - destruct (drainAll cfg exportKeys (history2, active2)) as [history3 active3].
    unfold emitWithoutHands.
    destruct active3 as [|a rest]; intros [= <- <-]; unfold after, sounding; simpl.
    + split; [intros H; now contradiction H | auto].
    + split; [auto | discriminate].
Qed.

(** ** Display transform *)

Module TransformFacts.
Import Transform.
Local Open Scope R_scope.

(** Rotating by [theta] and then by [- theta], then scaling back and
    flipping back, for given cosine and sine. *)
Lemma unrotate_unscale (c s k g u : R) (v : R) :
  c * c + s * s = 1 -> k <> 0 -> g * g = 1 ->
  ((c * (k * g * u) - s * v) * c - (s * (k * g * u) + c * v) * - s) / k * g = u.
Proof.
  intros Hcs Hk Hg.
  replace ((c * (k * g * u) - s * v) * c - (s * (k * g * u) + c * v) * - s)
    with (k * g * u * (c * c + s * s)) by ring.
  rewrite Hcs.
  replace (k * g * u * 1 / k * g) with (u * (g * g)) by (field; exact Hk).
  rewrite Hg. ring.
Qed.

Lemma unrotate_unscale' (c s k g u : R) (v : R) :
  c * c + s * s = 1 -> k <> 0 -> g * g = 1 ->
  ((c * u - s * (k * g * v)) * - s + (s * u + c * (k * g * v)) * c) / k * g = v.
Proof.
  intros Hcs Hk Hg.
  replace ((c * u - s * (k * g * v)) * - s + (s * u + c * (k * g * v)) * c)
    with (k * g * v * (c * c + s * s)) by ring.
  rewrite Hcs.
  replace (k * g * v * 1 / k * g) with (v * (g * g)) by (field; exact Hk).
  rewrite Hg. ring.
Qed.

Lemma sign_square (flip : bool) : sign flip * sign flip = 1.
Proof. destruct flip; unfold sign; ring. Qed.

Lemma flip_back (flip : bool) (x : R) :
  (if flip then - x else x) = x * sign flip.
Proof. destruct flip; unfold sign; ring. Qed.

(** C5.  Transform round trip: for every point of layout space, every
    transform with a positive scale, any translation, rotation angle and
    flip flags, and every layout bounding box, drawing the point with the
    display transform of [drawAllKeys] and mapping the result back with
    [transformPointForDetection] returns the point, in exact arithmetic. *)
Theorem C5_transform_round_trip (canvasWidth canvasHeight : R)
    (pianoTransform : PianoTransform) (keysBounds : option BoundsCenter)
    (P : R * R) :
  0 < scale pianoTransform ->
  let S := toScreenSpace canvasWidth canvasHeight pianoTransform keysBounds P in
  transformPointForDetection canvasWidth canvasHeight pianoTransform keysBounds
                             (fst S) (snd S) = P.
Proof.
  intros Hscale. destruct P as [px py].
  unfold toScreenSpace, transformPointForDetection, displayMatrix.
  destruct keysBounds as [kb|]; [|unfold apply, identity; simpl; f_equal; ring].
  set (k := scale pianoTransform) in *.
  set (theta := rotation pianoTransform * PI / 180).
  replace (- (rotation pianoTransform * PI) / 180) with (- theta)
    by (unfold theta; field).
  rewrite cos_neg, sin_neg.
  assert (Hk : k <> 0) by Lra.lra.
  pose proof (sin2_cos2 theta) as Hcs. unfold Rsqr in Hcs.
  assert (Hcs' : cos theta * cos theta + sin theta * sin theta = 1) by Lra.lra.
  unfold apply, translate, scaleBy, rotate, identity. cbn [a b c d e f fst snd].
  rewrite !flip_back.
  set (gh := sign (flipH pianoTransform)).
  set (gv := sign (flipV pianoTransform)).
  pose proof (sign_square (flipH pianoTransform)) as Hgh. fold gh in Hgh.
  pose proof (sign_square (flipV pianoTransform)) as Hgv. fold gv in Hgv.
  pose proof (unrotate_unscale (cos theta) (sin theta) k gh (px - centerX kb)
                (k * gv * (py - centerY kb)) Hcs' Hk Hgh) as Hx.
  pose proof (unrotate_unscale' (cos theta) (sin theta) k gv
                (k * gh * (px - centerX kb)) (py - centerY kb) Hcs' Hk Hgv) as Hy.
  assert (G : forall X q m : R, X = q - m -> X + m = q) by (intros; Lra.lra).
  f_equal; apply G.
  - etransitivity; [|exact Hx]. field. exact Hk.
  - etransitivity; [|exact Hy]. field. exact Hk.
Qed.
End TransformFacts.

(** ** Instances *)

Lemma C7_band_filter_witness :
  In 0%nat (map index (collectFingerKeys (redBand default_config twoWhitesBounds)
                                         false 20 8 twoWhites)).
Proof.
  apply (proj1 (proj2 (C7_band_filter default_config twoWhites twoWhitesBounds
                         false 20 8 0%nat (mkKey "C3" (rect 0 0 50 10) "white")
                         eq_refl eq_refl eq_refl))).
  - reflexivity.
  - reflexivity.
Defined.

Lemma C9_malformed_key_tolerance_witness :
  ((forall hovered h, ~ In (mkDrawCall 0%nat h) (drawAllKeys withEmpty hovered))
   /\ (forall band thumb tx ty,
          selectCandidate (collectFingerKeys band thumb tx ty withEmpty) <> Some 0%nat)
   /\ getKeysBoundingBox (delete 0%nat withEmpty) = getKeysBoundingBox withEmpty)
  /\ (In (mkDrawCall 0%nat (has 0%nat [])) (drawAllKeys withSegment [])
      /\ exists keysBounds,
           getKeysBoundingBox withSegment = Some keysBounds
           /\ forall p, In p (polygon segmentKey) ->
                        minX keysBounds <= fst p <= maxX keysBounds
                        /\ minY keysBounds <= snd p <= maxY keysBounds).
Proof.
  split.
  - pose proof (C9_malformed_key_tolerance withEmpty 0%nat emptyKey eq_refl)
      as (Hhit & _ & _ & _ & Hdraw & _ & _ & Hrest).
    split; [apply Hdraw; reflexivity|]. split.
    + intros band thumb tx ty. apply Hhit. simpl. lia.
    + apply Hrest. reflexivity.
  - pose proof (C9_malformed_key_tolerance withSegment 0%nat segmentKey eq_refl)
      as (_ & _ & _ & Hdrawn & _ & _ & Hbox & _).
    split.
    + apply Hdrawn. split; [discriminate | now left].
    + apply Hbox. discriminate.
Defined.

(** C9, as stated, fails for rendering: a key whose polygon has two vertices
    has fewer than three points, yet [drawAllKeys] hands it to [drawPoly]. *)
Lemma C9_two_point_key_is_drawn :
  (length (polygon segmentKey) < 3)%nat
  /\ withSegment !! 0%nat = Some segmentKey
  /\ In (mkDrawCall 0%nat false) (drawAllKeys withSegment []).
Proof. split; [simpl; lia | split; [reflexivity | now left]]. Qed.

Lemma C2_hysteresis_transitions_witness :
  (has 0%nat (snd (smoothKey default_config [] (<[0%nat := [0; 1; 1]%nat]> ∅, [])
                             0%nat)) = true
   <-> ACTIVATION_THRESHOLD default_config <= detectionRate [0; 1; 1]%nat)
  /\ activations false
       (map (has 0%nat) (activeTrace default_config twoWhites
                                     [[0]; [0]]%nat (∅, []))) = 1%nat.
Proof.
  pose proof (C2_hysteresis_transitions default_config twoWhites 0%nat
                ltac:(simpl; lia)) as [Hstep Hrun].
  split.
  - apply (Hstep [] (<[0%nat := [0; 1; 1]%nat]> ∅, []) [0; 1; 1]%nat);
      [reflexivity | discriminate | reflexivity].
  - assert (HW : (1 <= SMOOTHING_FRAMES default_config)%nat) by (simpl; lia).
    assert (Hlow : 0 < DEACTIVATION_THRESHOLD default_config) by reflexivity.
    assert (Hth : DEACTIVATION_THRESHOLD default_config
                  <= ACTIVATION_THRESHOLD default_config) by discriminate.
    assert (Hhigh : ACTIVATION_THRESHOLD default_config <= 1) by discriminate.
    assert (Hv : validHistory default_config
                   (default [] ((∅ : gmap nat (list nat)) !! 0%nat)))
      by (split; [exact (Forall_nil_2 _) | vm_compute; lia]).
    assert (Hones : Forall (fun raw => has 0%nat raw = true) [[0]; [0]]%nat)
      by (repeat constructor).
    assert (Hzeros : Forall (fun raw => has 0%nat raw = false) [[]; []; []])
      by (repeat constructor).
    assert (Hn1 : ACTIVATION_THRESHOLD default_config
                  * iq (SMOOTHING_FRAMES default_config) <= iq 2) by discriminate.
    assert (Hn0 : (1 - DEACTIVATION_THRESHOLD default_config)
                  * iq (SMOOTHING_FRAMES default_config) < iq 3) by reflexivity.
    exact (proj1 (Hrun HW Hlow Hth Hhigh (∅, []) [[0]; [0]]%nat [[]; []; []]
                       Hv eq_refl Hones Hn1 Hzeros Hn0)).
Defined.

Lemma C10_history_pushed_before_hysteresis_witness :
  let e := runFrames 1280 720 noTransform default_config
                     [mkFrameInput overlapping 2 [entering]] initialEngine in
  let e' := fst (processLandmarkerResults 1280 720 noTransform default_config
                   overlapping 4 [chord] e) in
  exists history,
    keyDetectionHistory e' !! 2%nat = Some history
    /\ (1 <= length history <= 3)%nat.
Proof.
  intros e e'.
  destruct (C10_history_pushed_before_hysteresis 1280 720 noTransform default_config
              [mkFrameInput overlapping 2 [entering]] overlapping 4 [chord] 2%nat
              ltac:(simpl; lia) ltac:(simpl; lia))
    as (_ & _ & Hlen & _ & _ & _ & Hstored).
  eexists. split; [apply Hstored; discriminate | exact Hlen].
Defined.

Lemma C6_event_emission_witness :
  (In (NoteOff "C3") [NoteOff "C3"]
   /\ ~ In (NoteOn "D3") [NoteOff "C3"])
  /\ [NoteOff "C3"; NoteOff "D3"] = map NoteOff ["C3"; "D3"]%string.
Proof.
  split.
  - assert (Hrun : smoothAndEmit default_config twoWhites true [1%nat] secondKeyHeld
                   = (fst (smoothAndEmit default_config twoWhites true [1%nat]
                                         secondKeyHeld),
                      Some [NoteOff "C3"]))
      by (vm_compute; reflexivity).
    assert (Hk : twoWhites !! 0%nat = Some (mkKey "C3" (rect 0 0 50 10) "white"))
      by reflexivity.
    assert (Hbefore : has 0%nat (smoothedActiveKeys secondKeyHeld) = true)
      by (vm_compute; reflexivity).
    assert (Hafter :
      has 0%nat (smoothedActiveKeys
                   (fst (smoothAndEmit default_config twoWhites true [1%nat]
                                       secondKeyHeld))) = false)
      by (vm_compute; reflexivity).
    assert (Hsound : In (note (mkKey "C3" (rect 0 0 50 10) "white"))
                        (currentlyHoveredNotes secondKeyHeld))
      by (vm_compute; now left).
    assert (Hsound2 : In "D3"%string (currentlyHoveredNotes secondKeyHeld))
      by (vm_compute; right; left; reflexivity).
    pose proof (proj1 (C6_event_emission default_config twoWhites [1%nat]
                         secondKeyHeld _ _) Hrun)
      as (_ & Hoff & Hon & _).
    split.
    + refine (proj2 (Hoff 0%nat _ Hk Hbefore Hafter Hsound) _).
      clear. intros j kj Hj Hkj. vm_compute in Hj.
      destruct j as [|[|j]]; [discriminate Hj | | discriminate Hj].
      injection Hkj as <-. intros E. discriminate E.
    + intros H. apply (proj1 (Hon "D3"%string)) in H. destruct H as [H _].
      exact (H Hsound2).
  - set (e1 := fst (smoothAndEmit default_config twoWhites false [] secondKeyHeld)).
    assert (Hrun : smoothAndEmit default_config twoWhites false [] e1
                   = (fst (smoothAndEmit default_config twoWhites false [] e1),
                      Some [NoteOff "C3"; NoteOff "D3"]))
      by (vm_compute; reflexivity).
    assert (Hempty : smoothedActiveKeys
                       (fst (smoothAndEmit default_config twoWhites false [] e1)) = [])
      by (vm_compute; reflexivity).
    assert (Hsound : currentlyHoveredNotes e1 = ["C3"; "D3"]%string)
      by (vm_compute; reflexivity).
    rewrite <- Hsound.
    exact (proj1 (proj2 (proj2
             (C6_event_emission default_config twoWhites [] e1 _ _) Hrun) Hempty)).
Defined.

(** C6, as stated, fails in a frame without hands.  Both keys of [twoWhites]
    are active, the first with history [1, 0, 0] and the second with
    [1, 1, 1].  In the next frame no hand is detected: the first key leaves
    the stable active-key set, the second stays, no remaining active key
    shares the identifier C3, and yet no note-off is emitted. *)
Lemma C6_no_note_off_without_hands :
  let e := secondKeyHeld in
  let r := smoothAndEmit default_config twoWhites false [] e in
  has 0%nat (smoothedActiveKeys e) = true
  /\ smoothedActiveKeys (fst r) = [1%nat]
  /\ currentlyHoveredNotes e = ["C3"; "D3"]%string
  /\ snd r = Some []
  /\ ~ In (NoteOff "C3") (default [] (snd r)).
Proof.
  vm_compute. repeat split. intros H. exact H.
Qed.

(** ** Concurrency limiter *)

Lemma add_length (x : nat) (s : jsset nat) : (length (add x s) <= S (length s))%nat.
Proof.
  unfold set_add. destruct (has x s); [lia|]. rewrite length_app. simpl. lia.
Qed.

(** The limiter never lets more than two keys through. *)
Lemma limitKeys_cap (canvasWidth canvasHeight : Q)
    (transformPointForDetection : Q -> Q -> point)
    (exportKeys : list Key) (hands : list Hand) (raw : jsset nat) :
  (length (limitKeys canvasWidth canvasHeight transformPointForDetection
                     exportKeys hands raw) <= 2)%nat.
Proof.
  unfold limitKeys. destruct (Nat.ltb_spec 2 (length raw)) as [Hmany|Hfew]; [|exact Hfew].
  set (sorted := keysWithDistance _ _ _ _ _ _).
  destruct (match thumbKeyIndexOf _ _ _ _ _ with Some t => _ | None => None end)
    as [t|].
  - destruct sorted as [|nearest rest]; [simpl; lia|].
    apply (add_length (fst nearest) [t]).
  - destruct sorted as [|k1 [|k2 rest]]; simpl; try lia.
    pose proof (add_length (fst k2) (add (fst k1) [])) as H2.
    pose proof (add_length (fst k1) []) as H1. cbn [length] in H1. lia.
Qed.

(** C3.  Concurrency limiter with thumb priority, at the input where it fails.
    One hand on the layout [overlapping]: in frame 4 the thumb lands at
    (160, 10), inside the black key (index 1) and inside the white key to its
    left (index 0), above the separator line; index and middle finger land on
    keys 2 and 3.  Hit-testing selects the black key for the thumb and the
    three keys 1, 2, 3 are asserted.  The limiter looks the thumb up without
    the line filter, finds the white key 0, which is not asserted, treats the
    frame as one without a thumb key and keeps the two nearest keys 2 and 3:
    the thumb-held key 1 is dropped. *)
Theorem C3_limiter_drops_thumb_key :
  chordKeys = [1; 2; 3]%nat
  /\ selectedKey default_config overlapping 4 (0, 0)%nat true 160 10 entered
     = Some 1%nat
  /\ thumbKeyIndexOf 1280 720 noTransform overlapping [chord] = Some 0%nat
  /\ limitKeys 1280 720 noTransform overlapping [chord] chordKeys = [2; 3]%nat
  /\ has 1%nat (limitKeys 1280 720 noTransform overlapping [chord] chordKeys) = false.
Proof. repeat split. Qed.

Module TransformInstances.
Import Transform.
Local Open Scope R_scope.

Lemma C5_transform_round_trip_witness :
  let t := mkPianoTransform 2 10 20 30 true false in
  let kb := Some (mkBoundsCenter 100 50) in
  let S := toScreenSpace 1280 720 t kb (3, 4) in
  transformPointForDetection 1280 720 t kb (fst S) (snd S) = (3, 4).
Proof.
  apply (TransformFacts.C5_transform_round_trip
           1280 720 (mkPianoTransform 2 10 20 30 true false)
           (Some (mkBoundsCenter 100 50)) (3, 4)).
  simpl. Lra.lra.
Defined.

(** With scale 1, no rotation, no flip and the layout translated onto its
    own position, detection reads the canvas point unchanged. *)
Remark transformPointForDetection_identity (canvasWidth canvasHeight : R)
    (kb : BoundsCenter) (x y : R) :
  transformPointForDetection canvasWidth canvasHeight
    (mkPianoTransform 1 (centerX kb - canvasWidth / 2)
                      (centerY kb - canvasHeight / 2) 0 false false)
    (Some kb) x y
  = (x, y).
Proof.
  unfold transformPointForDetection. cbn [scale translateX translateY rotation flipH flipV].
  replace (- (0 * PI) / 180) with 0 by field.
  rewrite cos_0, sin_0. f_equal; field.
Qed.
End TransformInstances.

(** * Further properties of the engine *)

(** ** Bounding box *)

Lemma touches_mono (acc : option (Q * Q * Q * Q)) (pts pts' : list point) :
  (forall p, In p pts -> In p pts') -> touches acc pts -> touches acc pts'.
Proof.
  intros Hsub. destruct acc as [[[[x0 y0] x1] y1]|]; simpl; [|tauto].
  intros ((a & Ha & Ea) & (b & Hb & Eb) & (c & Hc & Ec) & (d & Hd & Ed)).
  repeat split; [exists a | exists b | exists c | exists d]; auto.
Qed.

Lemma extendBox_touches (acc : option (Q * Q * Q * Q)) (p : point) (seen : list point) :
  touches acc seen -> touches (extendBox acc p) (p :: seen).
Proof.
  destruct acc as [[[[x0 y0] x1] y1]|]; simpl.
  - intros ((a & Ha & Ea) & (b & Hb & Eb) & (c & Hc & Ec) & (d & Hd & Ed)).
    repeat split.
    + destruct (Q.min_spec x0 (fst p)) as [[_ E] | [_ E]];
        [exists a | exists p]; rewrite E; auto. split; [auto | reflexivity].
    + destruct (Q.min_spec y0 (snd p)) as [[_ E] | [_ E]];
        [exists b | exists p]; rewrite E; auto. split; [auto | reflexivity].
    + destruct (Q.max_spec x1 (fst p)) as [[_ E] | [_ E]];
        [exists p | exists c]; rewrite E; auto. split; [auto | reflexivity].
    + destruct (Q.max_spec y1 (snd p)) as [[_ E] | [_ E]];
        [exists p | exists d]; rewrite E; auto. split; [auto | reflexivity].
  - intros _. repeat split; exists p; (split; [now left | reflexivity]).
Qed.

Lemma fold_extendBox_touches (pts : list point) :
  forall acc seen,
    touches acc seen ->
    touches (fold_left extendBox pts acc) (rev pts ++ seen).
Proof.
  induction pts as [|p pts IH]; intros acc seen H; simpl; [exact H|].
  rewrite <- app_assoc. simpl. apply IH. now apply extendBox_touches.
Qed.

Lemma fold_extendBox_none (pts : list point) (acc : option (Q * Q * Q * Q)) :
  fold_left extendBox pts acc = None <-> acc = None /\ pts = [].
Proof.
  revert acc. induction pts as [|p pts IH]; intros acc; simpl.
  - split; [auto | tauto].
  - rewrite IH. split.
    + intros [H _]. destruct acc as [[[[? ?] ?] ?]|]; discriminate.
    + intros [_ H]. discriminate.
Qed.

Lemma allVertices_nil (keys : list Key) :
  (forall k, In k keys -> polygon k = []) -> allVertices keys = [].
Proof.
  unfold allVertices. induction keys as [|k keys IH]; intros Hall; [reflexivity|].
  simpl. rewrite (Hall k) by now left. apply IH.
  intros k' Hk'. apply Hall. now right.
Qed.

(** X1.  [getKeysBoundingBox] returns [null] exactly when no key has a vertex.
    Otherwise the box it returns contains every vertex of every key, each of
    its four sides passes through some vertex, and [width], [height],
    [centerX], [centerY] are the extent and the midpoint of the box. *)
Theorem getKeysBoundingBox_exact (keys : list Key) :
  (getKeysBoundingBox keys = None <-> forall k, In k keys -> polygon k = [])
  /\ (forall kb, getKeysBoundingBox keys = Some kb ->
        (forall k p, In k keys -> In p (polygon k) ->
                     minX kb <= fst p <= maxX kb /\ minY kb <= snd p <= maxY kb)
        /\ (exists p, In p (allVertices keys) /\ fst p == minX kb)
        /\ (exists p, In p (allVertices keys) /\ snd p == minY kb)
        /\ (exists p, In p (allVertices keys) /\ fst p == maxX kb)
        /\ (exists p, In p (allVertices keys) /\ snd p == maxY kb)
        /\ width kb = maxX kb - minX kb /\ height kb = maxY kb - minY kb
        /\ centerX kb = (minX kb + maxX kb) / 2
        /\ centerY kb = (minY kb + maxY kb) / 2).
Proof.
  unfold getKeysBoundingBox. rewrite getKeysBoundingBox_flat. split.
  - destruct (fold_left extendBox (allVertices keys) None)
      as [[[[x0 y0] x1] y1]|] eqn:E.
    + split; [discriminate|]. intros Hall. exfalso.
      rewrite (allVertices_nil keys Hall) in E. discriminate.
    + apply fold_extendBox_none in E. destruct E as [_ E]. split; [|reflexivity].
      intros _ k Hk. destruct (polygon k) as [|p pts] eqn:Hp; [reflexivity|].
      exfalso. assert (Hin : In p (allVertices keys)).
      { unfold allVertices. apply in_flat_map. exists k. rewrite Hp. split; [auto | now left]. }
      rewrite E in Hin. contradiction.
  - intros kb Hkb.
    pose proof (fold_extendBox_covers (allVertices keys) None) as Hcov.
    pose proof (fold_extendBox_touches (allVertices keys) None [] I) as Htouch.
    destruct (fold_left extendBox (allVertices keys) None)
      as [[[[x0 y0] x1] y1]|]; [|discriminate].
    injection Hkb as <-. simpl.
    split.
    + intros k p Hk Hp. apply (Hcov p). right. unfold allVertices.
      apply in_flat_map. now exists k.
    + apply (touches_mono _ _ (allVertices keys)) in Htouch.
      * simpl in Htouch. destruct Htouch as (A & B & C & D). repeat split; auto.
      * intros p. rewrite app_nil_r, <- in_rev. auto.
Qed.

(** ** Hit-testing an axis-aligned rectangle *)

Lemma intersectInline_vertical (tx ty x ya yb : Q) :
  intersectInline tx ty (x, ya) (x, yb) = straddles ya yb ty && Qltb tx x.
Proof.
  unfold intersectInline. simpl fst. simpl snd.
  destruct (straddles ya yb ty) eqn:S; [simpl|reflexivity].
  rewrite (inlineQuotient_finite tx ty (x, ya) (x, yb) S). simpl.
  apply Qltb_compat. apply straddles_apart in S. field. exact S.
Qed.

Lemma intersectInline_horizontal (tx ty xa xb y : Q) :
  intersectInline tx ty (xa, y) (xb, y) = false.
Proof. unfold intersectInline, straddles. simpl. now rewrite xorb_nilpotent. Qed.

Lemma straddles_between (ya yb y : Q) :
  ya < yb -> (straddles ya yb y = true <-> ya <= y < yb).
Proof.
  intros Hlt. unfold straddles.
  destruct (Qgtb ya y) eqn:A, (Qgtb yb y) eqn:B; simpl;
    try apply Qgtb_gt in A; try apply Qgtb_gt in B;
    try apply Qltb_ge in A; try apply Qltb_ge in B;
    split; intros H; try discriminate; try reflexivity; lra.
Qed.

(** X2.  On an axis-aligned rectangle the crossing-number test of the
    hit-testing loop is the half-open box test: a point is inside exactly when
    [x0 <= tx < x1] and [y0 <= ty < y1].  The left and top sides belong to the
    key, the right and bottom sides do not. *)
Theorem insideInline_rect (x0 y0 x1 y1 tx ty : Q) :
  x0 < x1 -> y0 < y1 ->
  (insideInline tx ty (rect x0 y0 x1 y1) = true
   <-> (x0 <= tx < x1 /\ y0 <= ty < y1)).
Proof.
  intros Hx Hy. unfold insideInline, rect. simpl.
  rewrite (intersectInline_vertical tx ty x0 y0 y1).
  rewrite (intersectInline_horizontal tx ty x1 x0 y0).
  rewrite (intersectInline_vertical tx ty x1 y1 y0).
  rewrite (intersectInline_horizontal tx ty x0 x1 y1).
  rewrite (straddles_sym y1 y0).
  pose proof (straddles_between y0 y1 ty Hy) as Hs.
  destruct (straddles y0 y1 ty) eqn:S; simpl.
  - assert (Hin : y0 <= ty < y1) by now apply Hs.
    destruct (Qltb tx x0) eqn:A, (Qltb tx x1) eqn:B; simpl;
      try apply Qltb_lt in A; try apply Qltb_lt in B;
      try apply Qltb_ge in A; try apply Qltb_ge in B;
      split; intros H; try discriminate; try reflexivity;
      try (split; [lra | exact Hin]); try lra.
  - split; [discriminate|]. intros [_ H]. apply Hs in H. discriminate.
Qed.

Lemma insideInline_rect_witness :
  insideInline 0 0 (rect 0 0 50 10) = true.
Proof.
  apply (insideInline_rect 0 0 50 10 0 0); [reflexivity | reflexivity |].
  repeat split; discriminate || reflexivity.
Defined.

Lemma intersectGuarded_vertical (x y xe ya yb : Q) :
  ~ yb - ya + EPSILON == 0 ->
  intersectGuarded x y (xe, ya) (xe, yb) = straddles ya yb y && Qltb x xe.
Proof.
  intros Hd. unfold intersectGuarded, guardedQuotient. simpl fst. simpl snd.
  rewrite (jsdiv_finite _ _ Hd). simpl.
  f_equal. apply Qltb_compat. field. exact Hd.
Qed.

Lemma intersectGuarded_horizontal (x y xa xb ye : Q) :
  intersectGuarded x y (xa, ye) (xb, ye) = false.
Proof. unfold intersectGuarded, straddles. simpl. now rewrite xorb_nilpotent. Qed.

(** X3.  On an axis-aligned rectangle the guarded test of the limiter's thumb
    lookup and the test of the hit-testing loop give the same answer for every
    point, unless the rectangle is exactly 1e-10 high (the height at which the
    guard cancels the divisor of the right-hand side). *)
Theorem insideGuarded_rect (x0 y0 x1 y1 x y : Q) :
  y0 < y1 -> ~ y1 - y0 == EPSILON ->
  insideGuarded x y (rect x0 y0 x1 y1) = insideInline x y (rect x0 y0 x1 y1).
Proof.
  intros Hy He. unfold insideGuarded, insideInline, rect. simpl.
  rewrite (intersectInline_vertical x y x0 y0 y1).
  rewrite (intersectInline_horizontal x y x1 x0 y0).
  rewrite (intersectInline_vertical x y x1 y1 y0).
  rewrite (intersectInline_horizontal x y x0 x1 y1).
  rewrite (intersectGuarded_vertical x y x0 y0 y1)
    by (unfold EPSILON in *; intros E; lra).
  rewrite (intersectGuarded_horizontal x y x1 x0 y0).
  rewrite (intersectGuarded_vertical x y x1 y1 y0)
    by (intros E; apply He; lra).
  rewrite (intersectGuarded_horizontal x y x0 x1 y1).
  reflexivity.
Qed.

Lemma insideGuarded_rect_witness :
  insideGuarded 160 10 (rect 150 0 250 200) = insideInline 160 10 (rect 150 0 250 200).
Proof.
  apply (insideGuarded_rect 150 0 250 200 160 10).
  - reflexivity.
  - intros E. vm_compute in E. discriminate E.
Defined.

(** ** The sort sorts *)

Section SortFacts.
Context {A : Type} (before : A -> A -> bool).
Hypothesis before_total : forall a b, before a b = true \/ before b a = true.
Hypothesis before_trans :
forall a b c, before a b = true -> before b c = true -> before a c = true.

Lemma insert_sorted_sorted (x : A) (l : list A) :
StronglySorted (fun a b => before a b = true) l ->
StronglySorted (fun a b => before a b = true) (insert_sorted before x l).
Proof.
induction 1 as [|y l Hl IH Hy]; simpl.
- constructor; constructor.
- destruct (before x y) eqn:E.
  + constructor; [now constructor|]. constructor; [exact E|].
    eapply Forall_impl; [exact Hy|]. intros z Hz. simpl in Hz.
    exact (before_trans x y z E Hz).
  + constructor; [exact IH|].
    apply Forall_forall. intros z Hz.
    apply list_elem_of_In, insert_sorted_In in Hz. destruct Hz as [-> | Hz].
    * destruct (before_total x y) as [H | H]; [congruence | exact H].
    * rewrite Forall_forall in Hy. apply Hy. now apply list_elem_of_In.
Qed.

Lemma js_sort_sorted (l : list A) :
StronglySorted (fun a b => before a b = true) (js_sort before l).
Proof.
induction l as [|x l IH]; simpl; [constructor | now apply insert_sorted_sorted].
Qed.

Lemma before_refl (a : A) : before a a = true.
Proof. destruct (before_total a a); assumption. Qed.

(** The first element of the sorted list comes before every element. *)
Lemma js_sort_head_least (l : list A) (x : A) (rest : list A) :
js_sort before l = x :: rest ->
forall y, In y l -> before x y = true.
Proof.
intros E y Hy. pose proof (js_sort_sorted l) as Hs. rewrite E in Hs.
apply (js_sort_In before) in Hy. rewrite E in Hy.
inversion Hs as [|? ? _ Hall]; subst. destruct Hy as [<- | Hy].
- apply before_refl.
- rewrite Forall_forall in Hall. apply Hall. now apply list_elem_of_In.
Qed.

(** Whatever is among the first [n] sorted elements comes before whatever is
  not. *)
Lemma js_sort_firstn_least (l : list A) (n : nat) (x y : A) :
In x (firstn n (js_sort before l)) ->
In y (skipn n (js_sort before l)) ->
before x y = true.
Proof.
pose proof (js_sort_sorted l) as Hs. revert n.
induction Hs as [|z s Hs IH Hz]; intros n Hx Hy.
- destruct n; simpl in Hx; contradiction.
- destruct n as [|n]; simpl in Hx, Hy; [contradiction|].
  destruct Hx as [<- | Hx].
  + rewrite Forall_forall in Hz. apply Hz, list_elem_of_In.
    rewrite <- (firstn_skipn n s). apply in_or_app. now right.
  + now apply (IH n).
Qed.
End SortFacts.

(** ** The hit resolver picks the nearest key *)

Lemma candidateBefore_spec (a b : Candidate) :
  candidateBefore a b = true <->
  (priority a < priority b)%nat
  \/ (priority a = priority b /\ distance2 a <= distance2 b).
Proof.
  unfold candidateBefore.
  destruct (Nat.eqb_spec (priority a) (priority b)) as [E|E]; simpl.
  - rewrite Qle_bool_iff. split; [auto | intros [H | [_ H]]; [lia | exact H]].
  - rewrite Nat.leb_le. split; [intros H; left; lia | intros [H | [H _]]; lia].
Qed.

Lemma candidateBefore_total (a b : Candidate) :
  candidateBefore a b = true \/ candidateBefore b a = true.
Proof.
  rewrite !candidateBefore_spec.
  destruct (lt_eq_lt_dec (priority a) (priority b)) as [[H | H] | H]; auto.
  destruct (Qlt_le_dec (distance2 b) (distance2 a)) as [Hd | Hd].
  - right. right. split; [auto | lra].
  - left. right. auto.
Qed.

Lemma candidateBefore_trans (a b c : Candidate) :
  candidateBefore a b = true -> candidateBefore b c = true ->
  candidateBefore a c = true.
Proof.
  rewrite !candidateBefore_spec.
  intros [H1 | [H1 D1]] [H2 | [H2 D2]]; try (left; lia).
  right. split; [lia | lra].
Qed.

Lemma selectCandidate_least (fingerKeys : list Candidate) (i : nat) :
  selectCandidate fingerKeys = Some i ->
  exists c0, In c0 fingerKeys /\ index c0 = i
             /\ forall c, In c fingerKeys -> candidateBefore c0 c = true.
Proof.
  destruct fingerKeys as [|c1 [|c2 rest]].
  - discriminate.
  - intros [= <-]. exists c1. split; [now left|]. split; [reflexivity|].
    intros c [<- | []]. apply (before_refl _ candidateBefore_total).
  - remember (c1 :: c2 :: rest) as l eqn:El.
    assert (H : selectCandidate l = index <$> head (js_sort candidateBefore l))
      by now subst l.
    rewrite H. clear H El.
    destruct (js_sort candidateBefore l) as [|s sorted] eqn:E; [discriminate|].
    simpl. intros [= <-]. exists s. split.
    + apply (js_sort_In candidateBefore). rewrite E. now left.
    + split; [reflexivity|].
      apply (js_sort_head_least candidateBefore candidateBefore_total
               candidateBefore_trans l s sorted E).
Qed.

Lemma collectFrom_candidate (b : Band) (thumb : bool) (tx ty : Q) (keys : list Key) :
  forall i0 c,
    In c (collectFrom b thumb tx ty i0 keys) ->
    exists k, (i0 <= index c)%nat /\ keys !! (index c - i0)%nat = Some k
              /\ distance2 c = dist2 (tx, ty) (getPolygonCenter (polygon k))
              /\ priority c = (if thumb then 0 else 1)%nat.
Proof.
  induction keys as [|k keys IH]; intros i0 c; simpl; [tauto|].
  assert (Hrest : In c (collectFrom b thumb tx ty (S i0) keys) ->
                  exists k', (i0 <= index c)%nat
                             /\ (k :: keys) !! (index c - i0)%nat = Some k'
                             /\ distance2 c
                                = dist2 (tx, ty) (getPolygonCenter (polygon k'))
                             /\ priority c = (if thumb then 0 else 1)%nat).
  { intros H. destruct (IH _ _ H) as (k' & Hle & Hk & Hd & Hp).
    exists k'. repeat split; auto; try lia.
    replace (index c - i0)%nat with (S (index c - S i0)) by lia. exact Hk. }
  destruct (insideInline tx ty (polygon k) && passesLineFilter b ty k); [|exact Hrest].
  intros [<- | H]; [|now apply Hrest].
  exists k. simpl. rewrite Nat.sub_diag. repeat split. lia.
Qed.

(** X4.  Among the keys that contain the finger point and pass the line
    filter, the hit resolver selects one whose centroid is nearest to the
    point: no other candidate key has its centroid strictly closer. *)
Theorem selected_key_is_nearest (b : Band) (thumb : bool) (tx ty : Q)
    (exportKeys : list Key) (i : nat) (k : Key) :
  selectCandidate (collectFingerKeys b thumb tx ty exportKeys) = Some i ->
  exportKeys !! i = Some k ->
  forall j kj,
    exportKeys !! j = Some kj ->
    In j (map index (collectFingerKeys b thumb tx ty exportKeys)) ->
    dist2 (tx, ty) (getPolygonCenter (polygon k))
    <= dist2 (tx, ty) (getPolygonCenter (polygon kj)).
Proof.
  intros Hsel Hk j kj Hkj Hj.
  destruct (selectCandidate_least _ _ Hsel) as (c0 & Hc0 & Hi & Hleast).
  apply in_map_iff in Hj. destruct Hj as (c & Hcj & Hc).
  pose proof (Hleast c Hc) as Hbefore.
  unfold collectFingerKeys in Hc0, Hc.
  destruct (collectFrom_candidate b thumb tx ty exportKeys 0 c0 Hc0)
    as (k0 & _ & Hk0 & Hd0 & Hp0).
  destruct (collectFrom_candidate b thumb tx ty exportKeys 0 c Hc)
    as (k1 & _ & Hk1 & Hd1 & Hp1).
  rewrite Nat.sub_0_r in Hk0, Hk1. rewrite Hi, Hk in Hk0. rewrite Hcj, Hkj in Hk1.
  injection Hk0 as <-. injection Hk1 as <-.
  apply candidateBefore_spec in Hbefore. rewrite Hp0, Hp1, Hd0, Hd1 in Hbefore.
  destruct Hbefore as [H | [_ H]]; [lia | exact H].
Qed.

(** ** First contact and sustain *)

(** X5.  A finger seen for the first time never triggers: whatever the
    thresholds and wherever it lands, it asserts nothing, its rest counter is
    set to [REST_THRESHOLD_FRAMES], its position is recorded, and its key
    assignment and trigger bookkeeping are left as they were. *)
Theorem first_contact_does_not_trigger (cfg : Config) (exportKeys : list Key)
    (frameCount : Z) (fid : FingerId) (thumb : bool) (tx ty : Q)
    (st : FingerMaps) (raw : jsset nat) :
  previousFingerPositions st !! fid = None ->
  let after := processFinger cfg exportKeys frameCount fid thumb tx ty st raw in
  snd after = raw
  /\ selectedKey cfg exportKeys frameCount fid thumb tx ty st = None
  /\ previousFingerPositions (fst after) !! fid = Some (mkPosition tx ty frameCount)
  /\ fingerRestFrames (fst after) !! fid = Some (REST_THRESHOLD_FRAMES cfg)
  /\ fingerKeyMapping (fst after) = fingerKeyMapping st
  /\ fingerPreviousKeys (fst after) = fingerPreviousKeys st
  /\ fingerTriggeredKeys (fst after) = fingerTriggeredKeys st
  /\ fingerTriggerFrames (fst after) = fingerTriggerFrames st.
Proof.
  intros Hnew after. unfold after, selectedKey, processFinger, trackMotion.
  rewrite Hnew. cbn [fst snd]. unfold fingerKeysOf, isSkipped.
  cbn [isAtRest hasDownwardMovement hasMovement].
  rewrite lookup_insert_eq. cbn [default from_option].
  rewrite Z.leb_refl. cbn [andb negb].
  cbn [fst snd previousFingerPositions fingerRestFrames fingerKeyMapping
       fingerPreviousKeys fingerTriggeredKeys fingerTriggerFrames mbind option_bind].
  rewrite !lookup_insert_eq. repeat split.
Qed.

Lemma first_contact_does_not_trigger_witness :
  snd (processFinger default_config twoWhites 2 indexFinger false 45 8 noFingers []) = [].
Proof.
  apply (first_contact_does_not_trigger default_config twoWhites 2 indexFinger
           false 45 8 noFingers []).
  reflexivity.
Defined.

Lemma trackMotion_down_not_at_rest (cfg : Config) (frameCount : Z) (fid : FingerId)
    (tx ty : Q) (st : FingerMaps) :
  (0 < REST_THRESHOLD_FRAMES cfg)%Z ->
  hasDownwardMovement (snd (trackMotion cfg frameCount fid tx ty st)) = true ->
  isAtRest (snd (trackMotion cfg frameCount fid tx ty st)) = false.
Proof.
  intros Hrest. unfold trackMotion.
  destruct (previousFingerPositions st !! fid) as [prev|]; cbn [snd hasDownwardMovement isAtRest];
    [|discriminate].
  intros ->. rewrite orb_true_r, lookup_insert_eq. cbn [default from_option].
  apply Z.leb_gt. exact Hrest.
Qed.

(** X6.  Sustain: with a positive rest threshold, a finger that presses
    downward on the key it is assigned to asserts that key in this frame,
    whether the cooldown window is open or not. *)
Theorem pressing_down_sustains (cfg : Config) (exportKeys : list Key)
    (frameCount : Z) (fid : FingerId) (thumb : bool) (tx ty : Q)
    (st : FingerMaps) (raw : jsset nat) (k : nat) :
  (0 < REST_THRESHOLD_FRAMES cfg)%Z ->
  selectedKey cfg exportKeys frameCount fid thumb tx ty st = Some k ->
  fingerKeyMapping st !! fid = Some k ->
  hasDownwardMovement (snd (trackMotion cfg frameCount fid tx ty st)) = true ->
  has k (snd (processFinger cfg exportKeys frameCount fid thumb tx ty st raw)) = true.
Proof.
  intros Hrest Hsel Hmap Hdown.
  rewrite (processFinger_selected _ _ _ _ _ _ _ _ raw _ Hsel).
  pose proof (trackMotion_down_not_at_rest cfg frameCount fid tx ty st Hrest Hdown)
    as Hawake.
  destruct (trackMotion_keeps cfg frameCount fid tx ty st) as (Hm & _).
  unfold decideTrigger.
  destruct (shouldTrigger cfg _ _ fid k); cbn [snd]; [apply has_add_same|].
  unfold sustains. rewrite Hm, Hmap, Hdown, Hawake. cbn [eqb_opt].
  rewrite Nat.eqb_refl. cbn [andb negb snd]. apply has_add_same.
Qed.

(** ** A finger that does not move *)

Lemma trackMotion_stationary (cfg : Config) (frameCount : Z) (fid : FingerId)
    (tx ty : Q) (st : FingerMaps) (prev : Position) :
  0 <= MOVEMENT_THRESHOLD cfg -> 0 <= DOWNWARD_MOVEMENT_THRESHOLD cfg ->
  previousFingerPositions st !! fid = Some prev ->
  pos_x prev == tx -> pos_y prev == ty ->
  hasMovement (snd (trackMotion cfg frameCount fid tx ty st)) = false
  /\ hasDownwardMovement (snd (trackMotion cfg frameCount fid tx ty st)) = false
  /\ previousFingerPositions (fst (trackMotion cfg frameCount fid tx ty st)) !! fid
     = Some (mkPosition tx ty frameCount).
Proof.
  intros Hm Hd Hprev Hx Hy. unfold trackMotion. rewrite Hprev.
  cbn [fst snd hasMovement hasDownwardMovement previousFingerPositions].
  rewrite lookup_insert_eq. repeat split.
  - unfold sqrt_gt. apply orb_false_iff. split; apply Qltb_ge; [exact Hm|].
    assert (E : (tx - pos_x prev) * (tx - pos_x prev)
                + (ty - pos_y prev) * (ty - pos_y prev) == 0)
      by (rewrite Hx, Hy; ring).
    rewrite E. apply Qmult_le_0_compat; exact Hm.
  - unfold Qgtb. apply Qltb_ge. lra.
Qed.

Lemma stationary_frame (cfg : Config) (exportKeys : list Key) (frameCount : Z)
    (fid : FingerId) (thumb : bool) (tx ty : Q) (st : FingerMaps) (prev : Position) :
  0 <= MOVEMENT_THRESHOLD cfg -> 0 <= DOWNWARD_MOVEMENT_THRESHOLD cfg ->
  previousFingerPositions st !! fid = Some prev ->
  pos_x prev == tx -> pos_y prev == ty ->
  let r := processFinger cfg exportKeys frameCount fid thumb tx ty st [] in
  previousFingerPositions (fst r) !! fid = Some (mkPosition tx ty frameCount)
  /\ ((snd r = []
       /\ forall k, keyAt cfg exportKeys thumb tx ty = Some k ->
                    fingerPreviousKeys st !! fid = Some k ->
                    fingerPreviousKeys (fst r) !! fid = Some k)
      \/ exists k, keyAt cfg exportKeys thumb tx ty = Some k
                   /\ snd r = [k]
                   /\ fingerPreviousKeys (fst r) !! fid = Some k
                   /\ fingerPreviousKeys st !! fid <> Some k).
Proof.
  intros Hm Hd Hprev Hx Hy r.
  destruct (trackMotion_stationary cfg frameCount fid tx ty st prev Hm Hd Hprev Hx Hy)
    as (Hmove & Hdown & Hpos).
  destruct (trackMotion_keeps cfg frameCount fid tx ty st) as (_ & Hpk & _).
  unfold r, processFinger, keyAt.
  destruct (trackMotion cfg frameCount fid tx ty st) as [st1 m] eqn:Etm.
  cbn [fst snd] in Hmove, Hdown, Hpos, Hpk.
  unfold fingerKeysOf.
  destruct (isSkipped m).
  { cbn [fst snd]. split; [exact Hpos|]. left. split; [reflexivity|].
    intros k _ H. now rewrite Hpk. }
  destruct (getKeysBoundingBox exportKeys) as [kb|].
  2:{ cbn [fst snd]. split; [exact Hpos|]. left. split; [reflexivity|].
      intros k H. discriminate. }
  destruct (selectCandidate _) as [k|].
  2:{ cbn [fst snd clearKey previousFingerPositions]. split; [exact Hpos|].
      left. split; [reflexivity|]. intros k H. discriminate. }
  unfold decideTrigger.
  destruct (shouldTrigger cfg m st1 fid k) eqn:Etrig.
  - cbn [fst snd recordTrigger previousFingerPositions fingerPreviousKeys].
    split; [exact Hpos|]. right. exists k. rewrite lookup_insert_eq.
    repeat split.
    unfold shouldTrigger in Etrig. rewrite Hmove, Hdown in Etrig.
    cbn [orb] in Etrig. apply andb_true_iff in Etrig. destruct Etrig as [_ Hkc].
    apply keyChanged_true in Hkc. destruct Hkc as (p & Hp & Hne).
    rewrite Hpk in Hp. rewrite Hp. intros [= ->]. now apply Hne.
  - unfold sustains. rewrite Hdown. rewrite andb_false_r. cbn [andb fst snd].
    split; [exact Hpos|]. left. split; [reflexivity|].
    intros k' _ H. now rewrite Hpk.
Qed.

Lemma settled_finger_is_silent (cfg : Config) (exportKeys : list Key) (fid : FingerId)
    (thumb : bool) (tx ty : Q) (k : nat) :
  0 <= MOVEMENT_THRESHOLD cfg -> 0 <= DOWNWARD_MOVEMENT_THRESHOLD cfg ->
  keyAt cfg exportKeys thumb tx ty = Some k ->
  forall (frames : list Z) (st : FingerMaps) (prev : Position),
    previousFingerPositions st !! fid = Some prev ->
    pos_x prev == tx -> pos_y prev == ty ->
    fingerPreviousKeys st !! fid = Some k ->
    List.filter asserts (fingerOutputs cfg exportKeys fid thumb tx ty frames st) = [].
Proof.
  intros Hm Hd Hat. induction frames as [|f frames IH]; intros st prev Hprev Hx Hy Hk;
    [reflexivity|].
  cbn [fingerOutputs].
  destruct (stationary_frame cfg exportKeys f fid thumb tx ty st prev Hm Hd Hprev Hx Hy)
    as [Hpos [[Hout Hkeep] | (k' & Hat' & _ & _ & Hne)]].
  - cbn [List.filter]. rewrite Hout. cbn [asserts length Nat.eqb negb].
    apply (IH _ (mkPosition tx ty f) Hpos); try reflexivity.
    now apply Hkeep.
  - rewrite Hat in Hat'. injection Hat' as <-. contradiction.
Qed.

(** X7.  With non-negative movement thresholds, a finger that stays at the
    same transformed point asserts a key in at most one of the frames, however
    many frames pass: a finger lingering on a key does not re-trigger it. *)
Theorem stationary_finger_asserts_at_most_once (cfg : Config) (exportKeys : list Key)
    (fid : FingerId) (thumb : bool) (tx ty : Q) (frames : list Z)
    (st : FingerMaps) (prev : Position) :
  0 <= MOVEMENT_THRESHOLD cfg -> 0 <= DOWNWARD_MOVEMENT_THRESHOLD cfg ->
  previousFingerPositions st !! fid = Some prev ->
  pos_x prev == tx -> pos_y prev == ty ->
  (length (List.filter asserts
             (fingerOutputs cfg exportKeys fid thumb tx ty frames st)) <= 1)%nat.
Proof.
  intros Hm Hd. revert st prev.
  induction frames as [|f frames IH]; intros st prev Hprev Hx Hy; [simpl; lia|].
  cbn [fingerOutputs].
  destruct (stationary_frame cfg exportKeys f fid thumb tx ty st prev Hm Hd Hprev Hx Hy)
    as [Hpos [[Hout _] | (k & Hat & Hout & Hk & _)]].
  - cbn [List.filter]. rewrite Hout. cbn [asserts length Nat.eqb negb].
    apply (IH _ (mkPosition tx ty f) Hpos); reflexivity.
  - cbn [List.filter]. rewrite Hout. cbn [asserts length Nat.eqb negb].
    assert (Hs := settled_finger_is_silent cfg exportKeys fid thumb tx ty k Hm Hd Hat
                    frames _ (mkPosition tx ty f) Hpos (Qeq_refl _) (Qeq_refl _) Hk).
    rewrite Hs. simpl. lia.
Qed.

(** ** Forgetting fingers *)

Lemma purge_lookup {V : Type} (frameCount : Z) (positions : gmap (nat * nat) Position)
    (m : gmap (nat * nat) V) (fid : FingerId) :
  purge frameCount positions m !! fid
  = if isStale frameCount positions fid then None else m !! fid.
Proof.
  unfold purge. destruct (isStale frameCount positions fid) eqn:E.
  - apply map_lookup_filter_None. right. intros v _. simpl. congruence.
  - destruct (m !! fid) as [v|] eqn:Hm.
    + apply map_lookup_filter_Some. split; [exact Hm | exact E].
    + apply map_lookup_filter_None. left. exact Hm.
Qed.

Lemma new_finger_asserts_nothing (cfg : Config) (exportKeys : list Key)
    (frameCount : Z) (fid : FingerId) (thumb : bool) (tx ty : Q)
    (st : FingerMaps) (raw : jsset nat) :
  previousFingerPositions st !! fid = None ->
  snd (processFinger cfg exportKeys frameCount fid thumb tx ty st raw) = raw.
Proof.
  intros Hnew. unfold processFinger, trackMotion. rewrite Hnew.
  unfold fingerKeysOf, isSkipped. cbn [isAtRest hasDownwardMovement hasMovement].
  rewrite lookup_insert_eq. cbn [default from_option].
  rewrite Z.leb_refl. reflexivity.
Qed.

(** X8.  The clean-up at the end of a frame forgets exactly the fingers last
    seen more than 10 frames ago.  Such a finger loses its entry in each of the
    six dictionaries, so that when it shows up again it is a new finger and
    asserts nothing in that frame; every other finger keeps all its entries. *)
Theorem cleanUp_forgets_stale_fingers (frameCount : Z) (st : FingerMaps)
    (fid : FingerId) :
  (forall p, previousFingerPositions st !! fid = Some p ->
             (10 < frameCount - pos_frame p)%Z ->
             previousFingerPositions (cleanUp frameCount st) !! fid = None
             /\ fingerKeyMapping (cleanUp frameCount st) !! fid = None
             /\ fingerRestFrames (cleanUp frameCount st) !! fid = None
             /\ fingerPreviousKeys (cleanUp frameCount st) !! fid = None
             /\ fingerTriggeredKeys (cleanUp frameCount st) !! fid = None
             /\ fingerTriggerFrames (cleanUp frameCount st) !! fid = None
             /\ forall cfg exportKeys later thumb tx ty raw,
                  snd (processFinger cfg exportKeys later fid thumb tx ty
                                     (cleanUp frameCount st) raw) = raw)
  /\ ((forall p, previousFingerPositions st !! fid = Some p ->
                 (frameCount - pos_frame p <= 10)%Z) ->
      previousFingerPositions (cleanUp frameCount st) !! fid
      = previousFingerPositions st !! fid
      /\ fingerKeyMapping (cleanUp frameCount st) !! fid = fingerKeyMapping st !! fid
      /\ fingerRestFrames (cleanUp frameCount st) !! fid = fingerRestFrames st !! fid
      /\ fingerPreviousKeys (cleanUp frameCount st) !! fid = fingerPreviousKeys st !! fid
      /\ fingerTriggeredKeys (cleanUp frameCount st) !! fid
         = fingerTriggeredKeys st !! fid
      /\ fingerTriggerFrames (cleanUp frameCount st) !! fid
         = fingerTriggerFrames st !! fid).
Proof.
  split.
  - intros p Hp Hold.
    assert (E : isStale frameCount (previousFingerPositions st) fid = true).
    { unfold isStale. rewrite Hp. now apply Z.ltb_lt. }
    assert (Hgone : previousFingerPositions (cleanUp frameCount st) !! fid = None).
    { cbn [cleanUp previousFingerPositions]. now rewrite purge_lookup, E. }
    split; [exact Hgone|].
    unfold cleanUp.
    cbn [fingerKeyMapping fingerRestFrames fingerPreviousKeys
         fingerTriggeredKeys fingerTriggerFrames].
    rewrite !purge_lookup, E. repeat split.
    intros cfg exportKeys later thumb tx ty raw.
    now apply new_finger_asserts_nothing.
  - intros Hfresh.
    assert (E : isStale frameCount (previousFingerPositions st) fid = false).
    { unfold isStale. destruct (previousFingerPositions st !! fid) as [p|] eqn:Hp;
        [|reflexivity].
      apply Z.ltb_ge. now apply Hfresh. }
    unfold cleanUp.
    cbn [previousFingerPositions fingerKeyMapping fingerRestFrames fingerPreviousKeys
         fingerTriggeredKeys fingerTriggerFrames].
    rewrite !purge_lookup, E. repeat split.
Qed.

Lemma cleanUp_forgets_stale_fingers_witness :
  previousFingerPositions (cleanUp 15 struck) !! indexFinger = None
  /\ fingerTriggeredKeys (cleanUp 15 struck) !! indexFinger = None
  /\ snd (processFinger default_config twoWhites 16 indexFinger false 20 8
                        (cleanUp 15 struck) []) = [].
Proof.
  destruct (proj1 (cleanUp_forgets_stale_fingers 15 struck indexFinger)
              (mkPosition 20 8 4))
    as (Hpos & _ & _ & _ & Htrig & _ & Hnew).
  - vm_compute. reflexivity.
  - vm_compute. reflexivity.
  - split; [exact Hpos|]. split; [exact Htrig|]. apply Hnew.
Defined.

(** ** What the limiter keeps *)

Lemma In_add (x y : nat) (s : jsset nat) : In x (add y s) <-> x = y \/ In x s.
Proof.
  rewrite <- !has_In, has_add. rewrite orb_true_iff, Nat.eqb_eq. reflexivity.
Qed.

Lemma NoDup_add (x : nat) (s : jsset nat) : List.NoDup s -> List.NoDup (add x s).
Proof.
  intros Hs. unfold set_add. destruct (has x s) eqn:E; [exact Hs|].
  apply List.NoDup_app; [exact Hs | repeat constructor; intros [] |].
  intros y Hy [<- | []]. apply has_In in Hy. congruence.
Qed.

Lemma add_new_length (x : nat) (s : jsset nat) :
  ~ In x s -> length (add x s) = S (length s).
Proof.
  intros Hx. unfold set_add. destruct (has x s) eqn:E.
  - apply has_In in E. contradiction.
  - rewrite length_app. simpl. lia.
Qed.

Lemma insert_sorted_Permutation {A} (before : A -> A -> bool) (x : A) (l : list A) :
  Permutation (insert_sorted before x l) (x :: l).
Proof.
  induction l as [|y l IH]; simpl; [reflexivity|].
  destruct (before x y); [reflexivity|].
  rewrite IH. apply perm_swap.
Qed.

Lemma js_sort_Permutation {A} (before : A -> A -> bool) (l : list A) :
  Permutation (js_sort before l) l.
Proof.
  induction l as [|x l IH]; simpl; [reflexivity|].
  rewrite insert_sorted_Permutation. now constructor.
Qed.

Lemma nearerOrEqual_total (a b : nat * option Q) :
  nearerOrEqual a b = true \/ nearerOrEqual b a = true.
Proof.
  unfold nearerOrEqual. destruct (snd a) as [x|], (snd b) as [y|]; auto.
  rewrite !Qle_bool_iff. destruct (Qlt_le_dec x y) as [H|H]; [left; lra | now right].
Qed.

Lemma nearerOrEqual_trans (a b c : nat * option Q) :
  nearerOrEqual a b = true -> nearerOrEqual b c = true -> nearerOrEqual a c = true.
Proof.
  unfold nearerOrEqual.
  destruct (snd a) as [x|], (snd b) as [y|], (snd c) as [z|]; auto; try discriminate.
  rewrite !Qle_bool_iff. lra.
Qed.

Lemma fold_add_In {B : Type} (x : nat) (l : list (nat * B)) (acc : jsset nat) :
  In x (fold_left (fun s k => add (fst k) s) l acc) <-> In x acc \/ In x (map fst l).
Proof.
  revert acc. induction l as [|c l IH]; intros acc; simpl; [intuition|].
  rewrite IH, In_add. intuition.
Qed.

Section Limiter.
Variables canvasWidth canvasHeight : Q.
Variable transformPointForDetection : Q -> Q -> point.
Variable exportKeys : list Key.
Variable hands : list Hand.

Local Abbreviation distanceOf :=
(fingerDistance2 canvasWidth canvasHeight transformPointForDetection exportKeys hands).
Local Abbreviation sortedKeys :=
(keysWithDistance canvasWidth canvasHeight transformPointForDetection exportKeys hands).
Local Abbreviation thumbIndex :=
(thumbKeyIndexOf canvasWidth canvasHeight transformPointForDetection exportKeys hands).
Local Abbreviation limited :=
(limitKeys canvasWidth canvasHeight transformPointForDetection exportKeys hands).

Lemma keysWithDistance_indices (otherKeys : list nat) :
Permutation (map fst (sortedKeys otherKeys)) otherKeys.
Proof.
unfold keysWithDistance. rewrite js_sort_Permutation, map_map. simpl.
now rewrite map_id.
Qed.

Lemma otherKeys_without_thumb (raw : jsset nat) :
(forall t, thumbIndex = Some t -> has t raw = false) ->
List.filter (fun i => neqb_opt i thumbIndex) raw = raw.
Proof.
intros Hno. destruct thumbIndex as [t|]; simpl.
- specialize (Hno t eq_refl).
  induction raw as [|i raw' IH]; simpl; [reflexivity|].
  simpl in Hno. apply orb_false_iff in Hno. destruct Hno as [Hti Hno].
  rewrite Nat.eqb_sym, Hti. simpl. now rewrite IH.
- induction raw as [|i raw' IH]; simpl; [reflexivity | now rewrite IH].
Qed.

Lemma limitKeys_subset (raw : jsset nat) (k : nat) :
In k (limited raw) -> In k raw.
Proof.
unfold limitKeys. destruct (2 <? length raw)%nat; [|auto].
set (otherKeys := List.filter (fun i => neqb_opt i thumbIndex) raw).
assert (Hin : forall c, In c (sortedKeys otherKeys) -> In (fst c) raw).
{ intros c Hc. apply (in_map fst) in Hc.
  apply (Permutation_in _ (keysWithDistance_indices otherKeys)) in Hc.
  unfold otherKeys in Hc. now apply filter_In in Hc. }
destruct thumbIndex as [t|].
- destruct (has t raw) eqn:Ht.
  + apply has_In in Ht.
    destruct (sortedKeys otherKeys) as [|nearest rest].
    * intros [<- | []]. exact Ht.
    * intros Hk. apply In_add in Hk. destruct Hk as [-> | [<- | []]];
        [apply Hin; now left | exact Ht].
  + intros Hk. apply fold_add_In in Hk. destruct Hk as [[] | Hk].
    apply in_map_iff in Hk. destruct Hk as (c & <- & Hc). apply Hin.
    rewrite <- (firstn_skipn 2 (sortedKeys otherKeys)). apply in_or_app. now left.
- intros Hk. apply fold_add_In in Hk. destruct Hk as [[] | Hk].
  apply in_map_iff in Hk. destruct Hk as (c & <- & Hc). apply Hin.
  rewrite <- (firstn_skipn 2 (sortedKeys otherKeys)). apply in_or_app. now left.
Qed.

(** X9.  Of a set of asserted keys the limiter keeps keys of that set, none of
  them twice: all of them when there are at most two, and exactly two when
  there are more. *)
Theorem limitKeys_keeps_two_of_the_set (raw : jsset nat) :
List.NoDup raw ->
let kept :=
  limitKeys canvasWidth canvasHeight transformPointForDetection exportKeys hands raw in
(forall k, In k kept -> In k raw)
/\ List.NoDup kept
/\ length kept = Nat.min 2 (length raw)
/\ ((length raw <= 2)%nat -> kept = raw).
Proof.
intros Hnd kept. unfold kept, limitKeys.
destruct (Nat.ltb_spec 2 (length raw)) as [Hmany|Hfew].
2:{ repeat split; auto. lia. }
rewrite Nat.min_l by lia.
set (otherKeys := List.filter (fun i => neqb_opt i thumbIndex) raw).
pose proof (keysWithDistance_indices otherKeys) as Hperm.
assert (Hother : forall i, In i otherKeys -> In i raw /\ neqb_opt i thumbIndex = true).
{ intros i Hi. unfold otherKeys in Hi. now apply filter_In in Hi. }
assert (Hin : forall c, In c (sortedKeys otherKeys) -> In (fst c) otherKeys).
{ intros c Hc. apply (Permutation_in _ Hperm). now apply in_map. }
destruct thumbIndex as [t|] eqn:Et.
- destruct (has t raw) eqn:Ht.
  + apply has_In in Ht.
    assert (Hlen : (0 < length otherKeys)%nat).
    { unfold otherKeys.
      assert (Hsplit := filter_length (fun i => neqb_opt i (Some t)) raw).
      assert (Hone : (length (List.filter (fun x => negb (neqb_opt x (Some t))) raw) <= 1)%nat).
      { apply (List.NoDup_incl_length (l' := [t])).
        - apply List.NoDup_filter. exact Hnd.
        - intros i Hi. apply filter_In in Hi. destruct Hi as [_ Hi]. simpl in Hi.
          rewrite negb_involutive in Hi. apply Nat.eqb_eq in Hi. now left. }
      lia. }
    rewrite <- (Permutation_length Hperm), length_map in Hlen.
    destruct (sortedKeys otherKeys) as [|nearest rest] eqn:Es; [simpl in Hlen; lia|].
    assert (Hn : In (fst nearest) otherKeys) by (apply Hin; now left).
    apply Hother in Hn. destruct Hn as [Hnraw Hnt]. simpl in Hnt.
    apply negb_true_iff, Nat.eqb_neq in Hnt.
    repeat split.
    * intros k Hk. apply In_add in Hk. destruct Hk as [-> | [<- | []]]; assumption.
    * apply NoDup_add. repeat constructor. intros [].
    * rewrite add_new_length; [reflexivity|]. intros [E | []]. congruence.
    * lia.
  + assert (E : otherKeys = raw).
    { unfold otherKeys. rewrite <- Et. apply otherKeys_without_thumb.
      intros t' Ht'. rewrite Et in Ht'. now injection Ht' as <-. }
    rewrite E in *. clear E otherKeys.
    pose proof (Permutation_length Hperm) as Hl. rewrite length_map in Hl.
    assert (Hnds : List.NoDup (map fst (sortedKeys raw))).
    { apply (Permutation_NoDup (l := raw)); [now symmetry | exact Hnd]. }
    destruct (sortedKeys raw) as [|k1 [|k2 rest]]; simpl in Hl; try lia.
    change (firstn 2 (k1 :: k2 :: rest)) with [k1; k2]. cbn [fold_left]. simpl map in Hnds.
    apply List.NoDup_cons_iff in Hnds. destruct Hnds as [Hne _].
    repeat split.
    * intros k Hk. apply In_add in Hk. destruct Hk as [-> | Hk].
      { apply Hin. right. now left. }
      apply In_add in Hk. destruct Hk as [-> | []]. apply Hin. now left.
    * apply NoDup_add, NoDup_add. constructor.
    * rewrite add_new_length; [reflexivity|].
      intros Hk. apply In_add in Hk. destruct Hk as [E | []].
      apply Hne. left. now symmetry.
    * lia.
- assert (E : otherKeys = raw).
  { unfold otherKeys. rewrite <- Et. apply otherKeys_without_thumb.
    intros t' Ht'. rewrite Et in Ht'. discriminate. }
  rewrite E in *. clear E otherKeys.
  pose proof (Permutation_length Hperm) as Hl. rewrite length_map in Hl.
  assert (Hnds : List.NoDup (map fst (sortedKeys raw))).
  { apply (Permutation_NoDup (l := raw)); [now symmetry | exact Hnd]. }
  destruct (sortedKeys raw) as [|k1 [|k2 rest]]; simpl in Hl; try lia.
  change (firstn 2 (k1 :: k2 :: rest)) with [k1; k2]. cbn [fold_left]. simpl map in Hnds.
  apply List.NoDup_cons_iff in Hnds. destruct Hnds as [Hne _].
  repeat split.
  + intros k Hk. apply In_add in Hk. destruct Hk as [-> | Hk].
    { apply Hin. right. now left. }
    apply In_add in Hk. destruct Hk as [-> | []]. apply Hin. now left.
  + apply NoDup_add, NoDup_add. constructor.
  + rewrite add_new_length; [reflexivity|].
    intros Hk. apply In_add in Hk. destruct Hk as [E | []].
    apply Hne. left. now symmetry.
  + lia.
Qed.

Lemma limited_nearest_aux (unsorted : list (nat * option Q)) (k j : nat) :
(forall c, In c (js_sort nearerOrEqual unsorted) -> c = (fst c, distanceOf (fst c))) ->
In k (fold_left (fun s c => add (fst c) s)
                (firstn 2 (js_sort nearerOrEqual unsorted)) []) ->
In (j, distanceOf j) (js_sort nearerOrEqual unsorted) ->
~ In j (fold_left (fun s c => add (fst c) s)
                  (firstn 2 (js_sort nearerOrEqual unsorted)) []) ->
nearerOrEqual (k, distanceOf k) (j, distanceOf j) = true.
Proof.
intros Hdist Hk Hj Hjout.
apply fold_add_In in Hk. destruct Hk as [[] | Hk].
apply in_map_iff in Hk. destruct Hk as (c & <- & Hc).
rewrite <- (Hdist c)
  by (rewrite <- (firstn_skipn 2 (js_sort nearerOrEqual unsorted));
      apply in_or_app; now left).
apply (js_sort_firstn_least nearerOrEqual nearerOrEqual_total nearerOrEqual_trans
         unsorted 2 c (j, distanceOf j) Hc).
rewrite <- (firstn_skipn 2 (js_sort nearerOrEqual unsorted)) in Hj.
apply in_app_or in Hj. destruct Hj as [Hj | Hj]; [|exact Hj].
exfalso. apply Hjout, fold_add_In. right.
apply in_map_iff. exists (j, distanceOf j). split; [reflexivity | exact Hj].
Qed.

(** X10.  The keys the limiter keeps, the key under the thumb apart, are the
  ones nearest to a fingertip: a kept key that is not the thumb's is at
  most as far from its nearest fingertip as any asserted key that was
  dropped. *)
Theorem limitKeys_keeps_the_nearest (raw : jsset nat) (k j : nat) :
let kept :=
  limitKeys canvasWidth canvasHeight transformPointForDetection exportKeys hands raw in
let distance :=
  fingerDistance2 canvasWidth canvasHeight transformPointForDetection exportKeys hands in
In k kept ->
neqb_opt k (thumbKeyIndexOf canvasWidth canvasHeight transformPointForDetection
                            exportKeys hands) = true ->
In j raw -> ~ In j kept ->
nearerOrEqual (k, distance k) (j, distance j) = true.
Proof.
cbv zeta. unfold limitKeys.
destruct (Nat.ltb_spec 2 (length raw)) as [Hmany|Hfew]; [|intros; contradiction].
set (otherKeys := List.filter (fun i => neqb_opt i thumbIndex) raw).
unfold keysWithDistance.
set (unsorted := map _ otherKeys).
assert (Hunsorted : forall i, In i otherKeys -> In (i, distanceOf i) unsorted).
{ intros i Hi. unfold unsorted. apply in_map_iff. exists i. split; [reflexivity|exact Hi]. }
assert (Hdist : forall c, In c (js_sort nearerOrEqual unsorted) ->
                          c = (fst c, distanceOf (fst c))).
{ intros c Hc. apply js_sort_In in Hc. unfold unsorted in Hc.
  apply in_map_iff in Hc. destruct Hc as (i & <- & _). reflexivity. }
intros Hk Hkt Hj Hjout.
destruct thumbIndex as [t|] eqn:Et.
- destruct (has t raw) eqn:Ht.
  + destruct (js_sort nearerOrEqual unsorted) as [|nearest rest] eqn:Es.
    * destruct Hk as [<- | []]. simpl in Hkt. now rewrite Nat.eqb_refl in Hkt.
    * apply In_add in Hk. destruct Hk as [-> | [<- | []]].
      2:{ simpl in Hkt. now rewrite Nat.eqb_refl in Hkt. }
      rewrite <- (Hdist nearest) by now left.
      apply (js_sort_head_least nearerOrEqual nearerOrEqual_total nearerOrEqual_trans
               unsorted nearest rest Es).
      apply Hunsorted. unfold otherKeys. apply filter_In. split; [exact Hj|].
      simpl. apply negb_true_iff, Nat.eqb_neq. intros ->.
      apply Hjout, In_add. right. now left.
  + assert (Hj' : In (j, distanceOf j) (js_sort nearerOrEqual unsorted)).
    { apply js_sort_In, Hunsorted. unfold otherKeys. apply filter_In.
      split; [exact Hj|]. simpl. apply negb_true_iff, Nat.eqb_neq. intros ->.
      apply has_In in Hj. congruence. }
    apply (limited_nearest_aux unsorted); assumption.
- assert (Hj' : In (j, distanceOf j) (js_sort nearerOrEqual unsorted)).
  { apply js_sort_In, Hunsorted. unfold otherKeys. apply filter_In.
    split; [exact Hj|]. reflexivity. }
  apply (limited_nearest_aux unsorted); assumption.
Qed.
End Limiter.

(** ** No key without a finger *)

Lemma processFinger_asserts (cfg : Config) (exportKeys : list Key) (frameCount : Z)
    (fid : FingerId) (thumb : bool) (tx ty : Q) (st : FingerMaps)
    (raw : jsset nat) (k : nat) :
  In k (snd (processFinger cfg exportKeys frameCount fid thumb tx ty st raw)) ->
  In k raw
  \/ exists key keysBounds,
       exportKeys !! k = Some key
       /\ getKeysBoundingBox exportKeys = Some keysBounds
       /\ insideInline tx ty (polygon key) = true
       /\ passesLineFilter (redBand cfg keysBounds) ty key = true.
Proof.
  unfold processFinger.
  destruct (trackMotion cfg frameCount fid tx ty st) as [st1 m].
  unfold fingerKeysOf. destruct (isSkipped m); [auto|].
  destruct (getKeysBoundingBox exportKeys) as [kb|]; [|auto].
  destruct (selectCandidate _) as [sel|] eqn:Esel; [|auto].
  assert (Hsel : forall x, In x (add sel raw) ->
            In x raw
            \/ exists key keysBounds,
                 exportKeys !! x = Some key /\ Some kb = Some keysBounds
                 /\ insideInline tx ty (polygon key) = true
                 /\ passesLineFilter (redBand cfg keysBounds) ty key = true).
  { intros x Hx. apply In_add in Hx. destruct Hx as [-> | Hx]; [|now left]. right.
    apply selectCandidate_In in Esel. unfold collectFingerKeys in Esel.
    apply collectFrom_index in Esel. destruct Esel as (key & _ & Hkey & Hin & Hline).
    rewrite Nat.sub_0_r in Hkey. exists key, kb. auto. }
  unfold decideTrigger. destruct (shouldTrigger cfg m st1 fid sel); [apply Hsel|].
  destruct (sustains m st1 fid sel); [apply Hsel | auto].
Qed.

Section UnderFingers.
Variables canvasWidth canvasHeight : Q.
Variable transformPointForDetection : Q -> Q -> point.
Variable cfg : Config.
Variable exportKeys : list Key.

Local Abbreviation fingerOn :=
(fingerIn transformPointForDetection cfg exportKeys).

Lemma processFingersFrom_asserts (frameCount : Z) (handIndex : nat) (hasThumb : bool)
  (k : nat) :
forall (pts : list point) (fingerIndex : nat) (st : FingerMaps) (raw : jsset nat),
  In k (snd (processFingersFrom transformPointForDetection cfg exportKeys frameCount
               handIndex hasThumb fingerIndex pts st raw)) ->
  In k raw \/ exists pt, In pt pts /\ fingerOn pt k.
Proof.
induction pts as [|[x y] pts IH]; intros fingerIndex st raw; cbn [processFingersFrom];
  [auto|].
destruct (processFinger _ _ _ _ _ _ _ _ _) as [st1 raw1] eqn:E.
intros H. apply IH in H. destruct H as [H | (pt & Hpt & Hon)].
- replace raw1 with (snd (processFinger cfg exportKeys frameCount
                            (handIndex, fingerIndex)
                            (hasThumb && Nat.eqb fingerIndex 0)
                            (fst (transformPointForDetection x y))
                            (snd (transformPointForDetection x y)) st raw)) in H
    by now rewrite E.
  apply processFinger_asserts in H. destruct H as [H | H]; [now left|].
  right. exists (x, y). split; [now left | exact H].
- right. exists pt. split; [now right | exact Hon].
Qed.

Lemma processHandsFrom_asserts (frameCount : Z) (k : nat) :
forall (detected : list Hand) (handIndex : nat) (st : FingerMaps) (raw : jsset nat),
  In k (snd (processHandsFrom canvasWidth canvasHeight transformPointForDetection
               cfg exportKeys frameCount handIndex detected st raw)) ->
  In k raw
  \/ exists hand pt, In hand detected
                     /\ In pt (allFingerPoints canvasWidth canvasHeight hand)
                     /\ fingerOn pt k.
Proof.
induction detected as [|h detected IH]; intros handIndex st raw; cbn [processHandsFrom];
  [auto|].
destruct (processFingersFrom _ _ _ _ _ _ _ _ _ _) as [st1 raw1] eqn:E.
intros H. apply IH in H. destruct H as [H | (hand & pt & Hh & Hpt & Hon)].
- replace raw1 with (snd (processFingersFrom transformPointForDetection cfg exportKeys
                            frameCount handIndex
                            (bool_decide (is_Some (thumbTip h))) 0
                            (allFingerPoints canvasWidth canvasHeight h) st raw)) in H
    by now rewrite E.
  apply processFingersFrom_asserts in H. destruct H as [H | (pt & Hpt & Hon)];
    [now left|].
  right. exists h, pt. split; [now left | auto].
- right. exists hand, pt. split; [now right | auto].
Qed.

(** X11.  No key without a finger: every key that a frame hands to the
  smoother as asserted has, in that frame, a fingertip of a detected hand
  inside its polygon (after the detection transform) and on its side of the
  separator line. *)
Theorem asserted_keys_are_under_a_fingertip (frameCount : Z) (hands : list Hand)
  (st : FingerMaps) (k : nat) :
let raw :=
  snd (processHandsFrom canvasWidth canvasHeight transformPointForDetection
         cfg exportKeys frameCount 0 hands st []) in
In k (limitKeys canvasWidth canvasHeight transformPointForDetection
                exportKeys hands raw) ->
exists hand pt, In hand hands
                /\ In pt (allFingerPoints canvasWidth canvasHeight hand)
                /\ fingerIn transformPointForDetection cfg exportKeys pt k.
Proof.
intros raw Hk. apply limitKeys_subset in Hk. unfold raw in Hk.
apply processHandsFrom_asserts in Hk. destruct Hk as [[] | Hk]. exact Hk.
Qed.
End UnderFingers.

(** ** The emitter between frames *)

Lemma filter_none {A : Type} (f : A -> bool) (l : list A) :
  (forall x, In x l -> f x = false) -> List.filter f l = [].
Proof.
  induction l as [|x l IH]; intros H; [reflexivity|]. simpl.
  rewrite (H x) by now left. apply IH. intros y Hy. apply H. now right.
Qed.

(** X12.  Within a frame no note is both started and stopped, and holding the
    same keys emits nothing: when the emitter is run again on the same active
    keys with the sounding set it has just produced, it emits no event and
    leaves the sounding set as it is. *)
Theorem emitWithHands_settles (exportKeys : list Key) (hoveredKeyIndices : jsset nat)
    (current : jsset string) (events : list Event) (notes : jsset string) :
  emitWithHands exportKeys hoveredKeyIndices current = Some (events, notes) ->
  (forall n, In (NoteOn n) events -> ~ In (NoteOff n) events)
  /\ emitWithHands exportKeys hoveredKeyIndices notes = Some ([], notes).
Proof.
  intros H. split.
  - destruct (emitWithHands_spec _ _ _ _ _ H) as (_ & Hon & Hoff).
    intros n Hn Hf. apply Hon in Hn. apply Hoff in Hf. tauto.
  - revert H. unfold emitWithHands.
    destruct (mapM _ hoveredKeyIndices) as [hovered|]; [|discriminate].
    simpl. intros [= _ <-].
    set (new := set_of_list String.eqb _).
    rewrite (filter_none (fun n => negb (set_has String.eqb n new)) new).
    + reflexivity.
    + intros n Hn. apply negb_false_iff.
      now apply (set_has_In String.eqb String.eqb_eq).
Qed.

Lemma emitWithHands_settles_witness :
  emitWithHands twoWhites [0%nat; 1%nat] ["D3"%string; "E3"%string]
  = Some ([NoteOn "C3"; NoteOff "E3"], ["C3"%string; "D3"%string])
  /\ emitWithHands twoWhites [0%nat; 1%nat] ["C3"%string; "D3"%string]
     = Some ([], ["C3"%string; "D3"%string]).
Proof.
  assert (H : emitWithHands twoWhites [0%nat; 1%nat] ["D3"%string; "E3"%string]
              = Some ([NoteOn "C3"; NoteOff "E3"], ["C3"%string; "D3"%string]))
    by (vm_compute; reflexivity).
  split; [exact H|].
  exact (proj2 (emitWithHands_settles twoWhites [0%nat; 1%nat]
                  ["D3"%string; "E3"%string] _ _ H)).
Defined.

(** ** Runs on a fixed layout *)

Lemma In_remove (x y : nat) (s : jsset nat) : In x (remove y s) -> In x s.
Proof. unfold set_delete. intros H. now apply filter_In in H. Qed.

Lemma smoothKey_active (cfg : Config) (raw : jsset nat)
    (st : gmap nat (list nat) * jsset nat) (i x : nat) :
  In x (snd (smoothKey cfg raw st i)) -> x = i \/ In x (snd st).
Proof.
  destruct st as [hist act]. unfold smoothKey.
  destruct (default [] (hist !! i)) as [|s h].
  - destruct (has i raw); simpl; [|auto]. apply In_add.
  - destruct (negb (has i act) && _); simpl; [apply In_add|].
    destruct (has i act && _); simpl; [|auto].
    intros H. right. eapply In_remove, H.
Qed.

Lemma applySmoothing_inLayout (cfg : Config) (raw : jsset nat) (exportKeys : list Key)
    (st : gmap nat (list nat) * jsset nat) :
  inLayout exportKeys (snd st) ->
  inLayout exportKeys (snd (applySmoothing cfg raw exportKeys st)).
Proof.
  unfold applySmoothing.
  assert (H : forall l st, (forall i, In i l -> (i < length exportKeys)%nat) ->
                           inLayout exportKeys (snd st) ->
                           inLayout exportKeys (snd (fold_left (smoothKey cfg raw) l st))).
  { clear st. induction l as [|i l IH]; intros st Hl Hst; [exact Hst|]. simpl.
    apply IH; [intros j Hj; apply Hl; now right|].
    intros x Hx. apply smoothKey_active in Hx. destruct Hx as [-> | Hx].
    - apply Hl. now left.
    - now apply Hst. }
  apply H. intros i Hi. apply in_seq in Hi. lia.
Qed.

Lemma drainKey_active (cfg : Config) (st : gmap nat (list nat) * jsset nat) (i x : nat) :
  In x (snd (drainKey cfg st i)) -> In x (snd st).
Proof.
  destruct st as [hist act]. unfold drainKey.
  destruct (pushSample cfg 0 (default [] (hist !! i))) as [|s h]; [auto|].
  destruct (has i act && _); simpl; [apply In_remove | auto].
Qed.

Lemma drainAll_active (cfg : Config) (exportKeys : list Key)
    (st : gmap nat (list nat) * jsset nat) (x : nat) :
  In x (snd (drainAll cfg exportKeys st)) -> In x (snd st).
Proof.
  unfold drainAll. generalize (seq 0 (length exportKeys)). intros l. revert st.
  induction l as [|i l IH]; intros st; simpl; [auto|].
  intros H. apply IH in H. now apply drainKey_active in H.
Qed.

Lemma emitWithHands_inLayout (exportKeys : list Key) (active : jsset nat)
    (current : jsset string) :
  inLayout exportKeys active ->
  is_Some (emitWithHands exportKeys active current).
Proof.
  intros Hin. unfold emitWithHands.
  assert (H : is_Some (mapM (fun i => (fun k => (i, k)) <$> exportKeys !! i) active)).
  { apply mapM_is_Some, Forall_forall. intros i Hi. apply list_elem_of_In, Hin in Hi.
    simpl. apply lookup_lt_is_Some_2 in Hi. destruct Hi as [k ->]. now eexists. }
  destruct H as [hovered ->]. simpl. now eexists.
Qed.

Lemma smoothAndEmit_inLayout (cfg : Config) (exportKeys : list Key)
    (handsDetected : bool) (raw : jsset nat) (e : Engine) :
  inLayout exportKeys (smoothedActiveKeys e) ->
  is_Some (snd (smoothAndEmit cfg exportKeys handsDetected raw e))
  /\ inLayout exportKeys
       (smoothedActiveKeys (fst (smoothAndEmit cfg exportKeys handsDetected raw e))).
Proof.
  intros H. unfold smoothAndEmit.
  pose proof (applySmoothing_inLayout cfg raw exportKeys
                (updateHistory cfg raw exportKeys (keyDetectionHistory e),
                 smoothedActiveKeys e) H) as H2.
  destruct (applySmoothing cfg raw exportKeys _) as [history2 active2].
  simpl in H2. destruct handsDetected.
  - destruct (emitWithHands_inLayout exportKeys active2 (currentlyHoveredNotes e) H2)
      as [[events notes] ->].
    simpl. split; [now eexists | exact H2].
  - assert (H3 : inLayout exportKeys (snd (drainAll cfg exportKeys (history2, active2)))).
    { intros x Hx. apply drainAll_active in Hx. now apply H2. }
    destruct (drainAll cfg exportKeys (history2, active2)) as [history3 active3].
    destruct (emitWithoutHands active3 (currentlyHoveredNotes e)) as [events notes].
    simpl. split; [now eexists | exact H3].
Qed.

Section FixedLayout.
Variables canvasWidth canvasHeight : Q.
Variable transformPointForDetection : Q -> Q -> point.
Variable cfg : Config.
Variable exportKeys : list Key.

Local Abbreviation frameOn :=
(processLandmarkerResults canvasWidth canvasHeight transformPointForDetection cfg).
Local Abbreviation run :=
(runFrames canvasWidth canvasHeight transformPointForDetection cfg).
Local Abbreviation trace :=
(eventTrace canvasWidth canvasHeight transformPointForDetection cfg).

Lemma frame_inLayout (frameCount : Z) (hands : list Hand) (e : Engine) :
inLayout exportKeys (smoothedActiveKeys e) ->
is_Some (snd (frameOn exportKeys frameCount hands e))
/\ inLayout exportKeys (smoothedActiveKeys (fst (frameOn exportKeys frameCount hands e))).
Proof.
intros H. unfold processLandmarkerResults.
destruct exportKeys as [|k keys] eqn:Ek; [split; [now eexists | exact H]|].
destruct (processHandsFrom _ _ _ _ _ _ _ _ _ _) as [fingers1 raw].
set (e1 := mkEngine fingers1 _ _ _ _).
set (limited := limitKeys _ _ _ _ _ _).
set (detected := negb _).
destruct (smoothAndEmit_inLayout cfg (k :: keys) detected limited e1 H) as [H1 H2].
destruct (smoothAndEmit cfg (k :: keys) detected limited e1) as [e2 [events|]].
- simpl. split; [now eexists | exact H2].
- destruct H1 as [? H1]. discriminate H1.
Qed.

Lemma run_inLayout (inputs : list FrameInput) :
Forall (fun f => layout f = exportKeys) inputs ->
forall e, inLayout exportKeys (smoothedActiveKeys e) ->
          inLayout exportKeys (smoothedActiveKeys (run inputs e)).
Proof.
induction 1 as [|f inputs Hf _ IH]; intros e He; [exact He|].
cbn [runFrames fold_left]. apply IH. rewrite Hf. now apply frame_inLayout.
Qed.

(** X13.  As long as the layout is not replaced, the event emitter never
  reads a key outside the layout: in a run of frames on one layout, started
  from the initial state, no frame ends in the emitter's [TypeError],
  whatever hands the frames see. *)
Theorem emitter_never_raises_on_a_fixed_layout (inputs : list FrameInput) :
Forall (fun f => layout f = exportKeys) inputs ->
Forall (fun events => is_Some events)
       (eventTrace canvasWidth canvasHeight transformPointForDetection cfg inputs
                   initialEngine).
Proof.
assert (H : forall e, inLayout exportKeys (smoothedActiveKeys e) ->
                      Forall (fun f => layout f = exportKeys) inputs ->
                      Forall (fun events => is_Some events) (trace inputs e)).
{ induction inputs as [|f inputs IH]; intros e He Hall; [constructor|].
  apply Forall_cons in Hall. destruct Hall as [Hf Hall].
  cbn [eventTrace]. rewrite Hf.
  destruct (frame_inLayout (frame f) (hands f) e He) as [H1 H2].
  constructor; [exact H1 | now apply IH]. }
apply H. intros i [].
Qed.
End FixedLayout.

(** ** When the hands leave the picture *)

Lemma zeroTail_push (cfg : Config) (k : nat) (h : list nat) :
  zeroTail k h -> zeroTail (S k) (pushSample cfg 0 h).
Proof.
  intros Hz.
  assert (Hp : zeroTail (S k) (h ++ [0%nat])).
  { intros j x Hj Hlen. rewrite length_app in Hlen. simpl in Hlen.
    destruct (Nat.lt_ge_cases j (length h)) as [Hlt | Hge].
    - rewrite lookup_app_l in Hj by exact Hlt. apply (Hz j x Hj). lia.
    - rewrite lookup_app_r in Hj by exact Hge.
      destruct (j - length h)%nat; simpl in Hj; [congruence | discriminate]. }
  unfold pushSample. destruct (_ <? _)%nat; [|exact Hp].
  destruct (h ++ [0%nat]) as [|y t]; [exact Hp|]. simpl.
  intros j x Hj Hlen. apply (Hp (S j) x Hj). simpl. lia.
Qed.

Lemma zeroTail_all (k : nat) (h : list nat) :
  zeroTail k h -> (length h <= k)%nat -> list_sum h = 0%nat.
Proof.
  intros Hz Hlen.
  assert (H : forall x, In x h -> x = 0%nat).
  { intros x Hx. apply list_elem_of_In, list_elem_of_lookup in Hx.
    destruct Hx as [j Hj]. apply (Hz j x Hj). lia. }
  clear Hz Hlen. induction h as [|y h IH]; [reflexivity|]. simpl.
  rewrite (H y) by now left. apply IH. intros x Hx. apply H. now right.
Qed.

Lemma detectionRate_zeros (h : list nat) : list_sum h = 0%nat -> detectionRate h == 0.
Proof.
  intros H. rewrite detectionRate_eq, H. unfold iq. simpl. unfold Qdiv.
  apply Qmult_0_l.
Qed.

Lemma drainKey_other (cfg : Config) (st : gmap nat (list nat) * jsset nat) (i j : nat) :
  i <> j ->
  fst (drainKey cfg st j) !! i = fst st !! i
  /\ has i (snd (drainKey cfg st j)) = has i (snd st).
Proof.
  intros Hne. destruct st as [hist act]. unfold drainKey.
  assert (Hb : Nat.eqb i j = false) by now apply Nat.eqb_neq.
  destruct (pushSample cfg 0 (default [] (hist !! j))) as [|s h]; simpl.
  - rewrite lookup_insert_ne by congruence. auto.
  - destruct (has j act && _); simpl; rewrite lookup_insert_ne by congruence;
      [now rewrite has_remove, Hb | auto].
Qed.

Lemma drainKey_self (cfg : Config) (st : gmap nat (list nat) * jsset nat) (i : nat) :
  let pushed := pushSample cfg 0 (default [] (fst st !! i)) in
  fst (drainKey cfg st i) !! i = Some pushed
  /\ (pushed <> [] -> detectionRate pushed < DEACTIVATION_THRESHOLD cfg ->
      has i (snd (drainKey cfg st i)) = false).
Proof.
  destruct st as [hist act]. simpl. unfold drainKey.
  destruct (pushSample cfg 0 (default [] (hist !! i))) as [|s h]; simpl.
  - rewrite lookup_insert_eq. split; [reflexivity|]. intros H. contradiction.
  - destruct (has i act) eqn:Ha; simpl.
    + destruct (Qltb _ _) eqn:Hr; simpl; rewrite lookup_insert_eq.
      * split; [reflexivity|]. intros _ _. apply has_remove_same.
      * split; [reflexivity|]. intros _ Hlt. apply Qltb_lt in Hlt. congruence.
    + rewrite lookup_insert_eq. auto.
Qed.

Lemma drainFold_other (cfg : Config) (i : nat) :
  forall (l : list nat) (st : gmap nat (list nat) * jsset nat),
    ~ In i l ->
    fst (fold_left (drainKey cfg) l st) !! i = fst st !! i
    /\ has i (snd (fold_left (drainKey cfg) l st)) = has i (snd st).
Proof.
  induction l as [|j l IH]; intros st Hnot; simpl; [auto|].
  destruct (IH (drainKey cfg st j)) as [H1 H2]; [intros H; apply Hnot; now right|].
  destruct (drainKey_other cfg st i j) as [H3 H4]; [intros ->; apply Hnot; now left|].
  rewrite H1, H2. auto.
Qed.

(** The release loop of a frame without hands, seen from key [i]. *)
Lemma drainAll_key (cfg : Config) (exportKeys : list Key)
    (st : gmap nat (list nat) * jsset nat) (i : nat) :
  (i < length exportKeys)%nat ->
  let pushed := pushSample cfg 0 (default [] (fst st !! i)) in
  fst (drainAll cfg exportKeys st) !! i = Some pushed
  /\ (pushed <> [] -> detectionRate pushed < DEACTIVATION_THRESHOLD cfg ->
      has i (snd (drainAll cfg exportKeys st)) = false).
Proof.
  intros Hi pushed. unfold drainAll.
  replace (length exportKeys) with (i + S (length exportKeys - S i))%nat by lia.
  rewrite seq_app, fold_left_app. cbn [seq fold_left Nat.add].
  set (t := fold_left (drainKey cfg) (seq 0 i) st).
  destruct (drainFold_other cfg i (seq 0 i) st) as [Hh _]; [rewrite in_seq; lia|].
  fold t in Hh.
  destruct (drainFold_other cfg i (seq (S i) (length exportKeys - S i))
              (drainKey cfg t i)) as [H1 H2]; [rewrite in_seq; lia|].
  rewrite H1, H2. destruct (drainKey_self cfg t i) as [H3 H4].
  rewrite Hh in H3, H4. split; [exact H3 | exact H4].
Qed.

Lemma smoothFrame_quiet_key (cfg : Config) (exportKeys : list Key)
    (st : gmap nat (list nat) * jsset nat) (i : nat) :
  (i < length exportKeys)%nat ->
  default [] (fst (smoothFrame cfg exportKeys st []) !! i)
  = pushSample cfg 0 (default [] (fst st !! i)).
Proof.
  intros Hi. pose proof (smoothFrame_key cfg exportKeys st [] i Hi) as H.
  cbv zeta in H. apply (f_equal fst) in H. cbn [fst] in H. rewrite H.
  unfold keyFrame. cbn [set_has existsb fst snd].
  destruct (pushSample cfg 0 (default [] (fst st !! i))); reflexivity.
Qed.

(** What a frame without hands leaves behind. *)
Lemma smoothAndEmit_without_hands (cfg : Config) (exportKeys : list Key) (e : Engine) :
  let st3 := drainAll cfg exportKeys
               (smoothFrame cfg exportKeys
                            (keyDetectionHistory e, smoothedActiveKeys e) []) in
  let r := smoothAndEmit cfg exportKeys false [] e in
  keyDetectionHistory (fst r) = fst st3
  /\ smoothedActiveKeys (fst r) = snd st3
  /\ hoveredKeyIndices (fst r) = snd st3
  /\ ((snd st3 <> [] /\ snd r = Some []
       /\ currentlyHoveredNotes (fst r) = currentlyHoveredNotes e)
      \/ (snd st3 = [] /\ snd r = Some (map NoteOff (currentlyHoveredNotes e))
          /\ currentlyHoveredNotes (fst r) = [])).
Proof.
  unfold smoothAndEmit, smoothFrame. cbn [fst snd].
  destruct (applySmoothing cfg [] exportKeys _) as [history2 active2].
  destruct (drainAll cfg exportKeys (history2, active2)) as [history3 active3].
  unfold emitWithoutHands. destruct active3 as [|x rest]; cbn [fst snd
    keyDetectionHistory smoothedActiveKeys hoveredKeyIndices currentlyHoveredNotes].
  - repeat split. right. repeat split.
  - repeat split. left. repeat split. discriminate.
Qed.

Section HandsGone.
Variables canvasWidth canvasHeight : Q.
Variable transformPointForDetection : Q -> Q -> point.
Variable cfg : Config.
Variable exportKeys : list Key.
Hypothesis layout_loaded : exportKeys <> [].
Hypothesis window_positive : (1 <= SMOOTHING_FRAMES cfg)%nat.
Hypothesis release_positive : 0 < DEACTIVATION_THRESHOLD cfg.

Local Abbreviation frameOn :=
(processLandmarkerResults canvasWidth canvasHeight transformPointForDetection cfg).
Local Abbreviation run :=
(runFrames canvasWidth canvasHeight transformPointForDetection cfg).
Local Abbreviation trace :=
(eventTrace canvasWidth canvasHeight transformPointForDetection cfg).

Lemma frame_without_hands (frameCount : Z) (e : Engine) (k : nat) :
inLayout exportKeys (smoothedActiveKeys e) ->
boundedHistory cfg (keyDetectionHistory e) ->
(forall i, (i < length exportKeys)%nat ->
           zeroTail k (default [] (keyDetectionHistory e !! i))) ->
let r := frameOn exportKeys frameCount [] e in
inLayout exportKeys (smoothedActiveKeys (fst r))
/\ boundedHistory cfg (keyDetectionHistory (fst r))
/\ (forall i, (i < length exportKeys)%nat ->
              zeroTail (S (S k)) (default [] (keyDetectionHistory (fst r) !! i)))
/\ hoveredKeyIndices (fst r) = smoothedActiveKeys (fst r)
/\ ((SMOOTHING_FRAMES cfg <= S (S k))%nat -> smoothedActiveKeys (fst r) = [])
/\ ((smoothedActiveKeys (fst r) <> [] /\ snd r = Some []
     /\ currentlyHoveredNotes (fst r) = currentlyHoveredNotes e)
    \/ (smoothedActiveKeys (fst r) = []
        /\ snd r = Some (map NoteOff (currentlyHoveredNotes e))
        /\ currentlyHoveredNotes (fst r) = [])).
Proof.
intros Hin Hb Hz r.
destruct (frame_inLayout canvasWidth canvasHeight transformPointForDetection cfg
            exportKeys frameCount [] e Hin) as [_ Hin'].
pose proof (processLandmarkerResults_bounded canvasWidth canvasHeight
              transformPointForDetection cfg exportKeys frameCount [] e Hb) as Hb'.
fold r in Hin', Hb'.
assert (Hr : exists e2 events,
           smoothAndEmit cfg exportKeys false [] e = (e2, Some events)
           /\ r = (mkEngine (cleanUp frameCount (fingers e2)) (keyDetectionHistory e2)
                            (smoothedActiveKeys e2) (hoveredKeyIndices e2)
                            (currentlyHoveredNotes e2), Some events)).
{ unfold r, processLandmarkerResults.
  destruct exportKeys as [|k0 keys] eqn:Ek; [contradiction|].
  cbn [processHandsFrom limitKeys length Nat.ltb Nat.leb Nat.eqb negb].
  destruct e as [fs hist act hov notes].
  cbn [fingers keyDetectionHistory smoothedActiveKeys hoveredKeyIndices
       currentlyHoveredNotes].
  destruct (smoothAndEmit_without_hands cfg (k0 :: keys)
              (mkEngine fs hist act hov notes)) as (_ & _ & _ & Hev).
  destruct (smoothAndEmit cfg (k0 :: keys) false [] (mkEngine fs hist act hov notes))
    as [e2 out].
  cbn [fst snd] in Hev.
  destruct Hev as [(_ & -> & _) | (_ & -> & _)]; eexists _, _; split; reflexivity. }
destruct Hr as (e2 & events & He2 & Hr).
destruct (smoothAndEmit_without_hands cfg exportKeys e) as (Hh & Ha & Hhov & Hev).
rewrite He2 in Hh, Ha, Hhov, Hev. cbn [fst snd] in Hh, Ha, Hhov, Hev.
set (st2 := smoothFrame cfg exportKeys (keyDetectionHistory e, smoothedActiveKeys e) [])
  in *.
assert (Hkey : forall i, (i < length exportKeys)%nat ->
          keyDetectionHistory e2 !! i
          = Some (pushSample cfg 0
                    (pushSample cfg 0 (default [] (keyDetectionHistory e !! i))))).
{ intros i Hi. rewrite Hh.
  destruct (drainAll_key cfg exportKeys st2 i Hi) as [H1 _]. rewrite H1.
  unfold st2. now rewrite smoothFrame_quiet_key. }
assert (Hzero : forall i, (i < length exportKeys)%nat ->
          zeroTail (S (S k)) (default [] (keyDetectionHistory e2 !! i))).
{ intros i Hi. rewrite (Hkey i Hi). cbn [default from_option].
  apply zeroTail_push, zeroTail_push, Hz, Hi. }
rewrite Hr in Hin', Hb' |- *.
cbn [fst snd keyDetectionHistory smoothedActiveKeys hoveredKeyIndices
     currentlyHoveredNotes] in Hin', Hb' |- *.
split; [exact Hin'|]. split; [exact Hb'|]. split; [exact Hzero|].
split; [congruence|]. split.
- intros Hfull.
  assert (Hnone : forall x, In x (smoothedActiveKeys e2) -> False).
  { intros x Hon.
    assert (Hx : (x < length exportKeys)%nat) by now apply Hin'.
    apply has_In in Hon.
    destruct (drainAll_key cfg exportKeys st2 x Hx) as [H1 H2].
    rewrite <- Hh, (Hkey x Hx) in H1. injection H1 as H1.
    rewrite <- H1 in H2. rewrite <- Ha in H2.
    set (h := pushSample cfg 0 (pushSample cfg 0 _)) in *.
    assert (Hlen : (1 <= length h <= SMOOTHING_FRAMES cfg)%nat).
    { split; [apply pushSample_nonempty, window_positive|].
      apply (Hb' x). apply Hkey, Hx. }
    rewrite H2 in Hon; [discriminate Hon | |].
    + intros E. rewrite E in Hlen. simpl in Hlen. lia.
    + rewrite detectionRate_zeros; [exact release_positive|].
      apply (zeroTail_all (S (S k))); [|lia].
      specialize (Hzero x Hx). rewrite (Hkey x Hx) in Hzero. exact Hzero. }
  destruct (smoothedActiveKeys e2) as [|x rest]; [reflexivity|].
  exfalso. apply (Hnone x). now left.
- rewrite <- Ha in Hev. exact Hev.
Qed.

Lemma run_without_hands (inputs : list FrameInput) :
Forall (fun f => layout f = exportKeys /\ hands f = []) inputs ->
forall (e : Engine) (k : nat),
  inLayout exportKeys (smoothedActiveKeys e) ->
  boundedHistory cfg (keyDetectionHistory e) ->
  (forall i, (i < length exportKeys)%nat ->
             zeroTail k (default [] (keyDetectionHistory e !! i))) ->
  inputs <> [] ->
  (SMOOTHING_FRAMES cfg <= k + 2 * length inputs)%nat ->
  smoothedActiveKeys (run inputs e) = []
  /\ hoveredKeyIndices (run inputs e) = []
  /\ currentlyHoveredNotes (run inputs e) = []
  /\ forall n, In n (currentlyHoveredNotes e) ->
               exists events, In (Some events) (trace inputs e)
                              /\ In (NoteOff n) events.
Proof.
induction 1 as [|f inputs [Hl Hh] Hall IH]; intros e k Hin Hb Hz Hne Hlen;
  [contradiction|].
cbn [runFrames fold_left eventTrace]. rewrite Hl, Hh.
destruct (frame_without_hands (frame f) e k Hin Hb Hz)
  as (Hin1 & Hb1 & Hz1 & Hhov & Hfull & Hev).
set (r := frameOn exportKeys (frame f) [] e) in *.
destruct inputs as [|g inputs].
- cbn [fold_left]. simpl in Hlen.
  assert (Hempty : smoothedActiveKeys (fst r) = []) by (apply Hfull; lia).
  destruct Hev as [(Hact & _) | (_ & Hout & Hnotes)]; [contradiction|].
  split; [exact Hempty|]. split; [congruence|]. split; [exact Hnotes|].
  intros n Hn. exists (map NoteOff (currentlyHoveredNotes e)).
  split; [left; exact Hout | now apply in_map].
- destruct (IH (fst r) (S (S k)) Hin1 Hb1 Hz1) as (Ha & Hho & Hno & Hoff);
    [discriminate | simpl in Hlen |- *; lia|].
  split; [exact Ha|]. split; [exact Hho|]. split; [exact Hno|].
  intros n Hn.
  destruct Hev as [(_ & _ & Hsame) | (_ & Hout & _)].
  + rewrite <- Hsame in Hn. destruct (Hoff n Hn) as (events & Hev & Hnoff).
    exists events. split; [right; exact Hev | exact Hnoff].
  + exists (map NoteOff (currentlyHoveredNotes e)).
    split; [left; exact Hout | now apply in_map].
Qed.

(** X14.  No stuck notes.  On a loaded layout, with a window of at least one
  frame and a positive release threshold: once the hands have been out of
  the picture for at least half the window length (frames count double
  there: each pushes two zero samples), no key is active or highlighted, no
  note is sounding, and every note that was sounding when the hands left
  has been sent its note-off. *)
Theorem hands_gone_releases_everything (earlier gone : list FrameInput) :
Forall (fun f => layout f = exportKeys) earlier ->
Forall (fun f => layout f = exportKeys /\ hands f = []) gone ->
(SMOOTHING_FRAMES cfg <= 2 * length gone)%nat ->
let e := runFrames canvasWidth canvasHeight transformPointForDetection cfg earlier
                   initialEngine in
let e' := runFrames canvasWidth canvasHeight transformPointForDetection cfg gone e in
smoothedActiveKeys e' = []
/\ hoveredKeyIndices e' = []
/\ currentlyHoveredNotes e' = []
/\ forall n, In n (currentlyHoveredNotes e) ->
             exists events,
               In (Some events)
                  (eventTrace canvasWidth canvasHeight transformPointForDetection cfg
                              gone e)
               /\ In (NoteOff n) events.
Proof.
intros Hearlier Hgone Hlen e e'. unfold e'.
apply (run_without_hands gone Hgone e 0).
- apply run_inLayout; [exact Hearlier | intros i []].
- apply runFrames_bounded. intros j h Hj. discriminate.
- intros i _ j x Hj Hshort. apply lookup_lt_Some in Hj. lia.
- intros ->. simpl in Hlen. lia.
- simpl. lia.
Qed.
End HandsGone.

(** ** Painting order *)

Lemma indexed_indices (exportKeys : list Key) :
  map fst (indexed exportKeys) = seq 0 (length exportKeys).
Proof.
  unfold indexed.
  assert (H : forall (l : list Key) (start : nat),
             map fst (imap (fun i k => (start + i, k)%nat) l) = seq start (length l)).
  { induction l as [|k l IH]; intros start; [reflexivity|].
    cbn [imap map length seq fst]. rewrite Nat.add_0_r. f_equal.
    rewrite <- (IH (S start)). f_equal. apply imap_ext. intros i x _. simpl.
    f_equal. lia. }
  apply (H exportKeys 0%nat).
Qed.

Lemma drawPass_indices (keyType : string) (hovered : jsset nat)
    (sortedKeys : list (nat * Key)) :
  List.NoDup (map fst sortedKeys) ->
  List.NoDup (map drawnIndex (drawPass keyType hovered sortedKeys)).
Proof.
  induction sortedKeys as [|[i k] s IH]; intros Hnd; [constructor|].
  simpl in Hnd. apply List.NoDup_cons_iff in Hnd. destruct Hnd as [Hi Hnd].
  unfold drawPass. cbn [omap list_omap fst snd]. fold (drawPass keyType hovered s).
  assert (Hrest : ~ In i (map drawnIndex (drawPass keyType hovered s))).
  { intros H. apply Hi. apply in_map_iff in H. destruct H as (c & <- & Hc).
    apply drawPass_In in Hc. destruct Hc as (j & kj & Hj & _ & _ & ->).
    simpl. apply in_map_iff. exists (j, kj). auto. }
  destruct (polygon k); [now apply IH|].
  destruct (String.eqb (type k) keyType); [|now apply IH].
  simpl. constructor; [exact Hrest | now apply IH].
Qed.

(** X15.  One pass over the layout hands every drawable key (a key with at
    least one vertex whose type is white or black) to [drawPoly], with its
    highlight flag, and no other key; no key index is drawn twice; and all
    white keys are painted before any black key, so that black keys end up on
    top. *)
Theorem drawAllKeys_once_white_first (exportKeys : list Key) (hovered : jsset nat) :
  (forall i k, exportKeys !! i = Some k -> polygon k <> [] ->
               type k = "white"%string \/ type k = "black"%string ->
               In (mkDrawCall i (has i hovered)) (drawAllKeys exportKeys hovered))
  /\ (forall call, In call (drawAllKeys exportKeys hovered) ->
                   highlight call = has (drawnIndex call) hovered
                   /\ exists k, exportKeys !! drawnIndex call = Some k
                                /\ polygon k <> []
                                /\ (type k = "white"%string \/ type k = "black"%string))
  /\ List.NoDup (map drawnIndex (drawAllKeys exportKeys hovered))
  /\ forall before call after,
       drawAllKeys exportKeys hovered = before ++ call :: after ->
       (exists k, exportKeys !! drawnIndex call = Some k /\ type k = "black"%string) ->
       forall later, In later after ->
         exists k, exportKeys !! drawnIndex later = Some k /\ type k = "black"%string.
Proof.
  assert (Hsorted : List.NoDup (map fst (js_sort leftOf (indexed exportKeys)))).
  { apply (Permutation_NoDup (l := map fst (indexed exportKeys))).
    - apply Permutation_map. symmetry. apply js_sort_Permutation.
    - rewrite indexed_indices. apply List.seq_NoDup. }
  assert (Hkey : forall keyType call,
             In call (drawPass keyType hovered (js_sort leftOf (indexed exportKeys))) ->
             exists k, exportKeys !! drawnIndex call = Some k /\ type k = keyType).
  { intros keyType call H. apply drawPass_In in H.
    destruct H as (i & k & Hin & _ & Ht & ->).
    apply js_sort_In, indexed_In in Hin. exists k. auto. }
  split; [|split].
  - intros i k Hk Hp Ht. apply drawAllKeys_In. exists i, k. auto.
  - intros call Hc. apply drawAllKeys_In in Hc.
    destruct Hc as (i & k & Hk & Hp & Ht & ->). simpl. split; [reflexivity|].
    exists k. auto.
  - unfold drawAllKeys. split.
    + rewrite map_app. apply List.NoDup_app; try now apply drawPass_indices.
      intros i Hw Hb. apply in_map_iff in Hw, Hb.
      destruct Hw as (cw & <- & Hw), Hb as (cb & Hi & Hb).
      apply Hkey in Hw, Hb. destruct Hw as (kw & Hkw & Htw), Hb as (kb & Hkb & Htb).
      rewrite Hi, Hkw in Hkb. injection Hkb as <-. rewrite Htw in Htb.
      discriminate Htb.
    + intros before call after Hsplit (k & Hk & Ht) later Hlater.
      apply app_eq_app in Hsplit.
      destruct Hsplit as (l & [[Hw Hb] | [_ Hb]]).
      * destruct l as [|c l]; simpl in Hb.
        -- apply (Hkey "black"%string). rewrite <- Hb. now right.
        -- injection Hb as <- Hb. exfalso.
           assert (Hc : In call (drawPass "white" hovered
                                   (js_sort leftOf (indexed exportKeys)))).
           { rewrite Hw. apply in_or_app. right. now left. }
           apply Hkey in Hc. destruct Hc as (k' & Hk' & Ht').
           rewrite Hk in Hk'. injection Hk' as <-. rewrite Ht in Ht'.
           discriminate Ht'.
      * apply (Hkey "black"%string). rewrite Hb. apply in_or_app. right. now right.
Qed.

(** ** The display transform as a similarity *)

Module TransformMetric.
Import Transform.
Local Open Scope R_scope.

Lemma rotate_back (c s k u v : R) :
c * c + s * s = 1 -> k <> 0 ->
c * (k * ((u * c + v * s) / k)) - s * (k * ((v * c - u * s) / k)) = u
/\ s * (k * ((u * c + v * s) / k)) + c * (k * ((v * c - u * s) / k)) = v.
Proof.
intros Hcs Hk.
replace (k * ((u * c + v * s) / k)) with (u * c + v * s) by (field; exact Hk).
replace (k * ((v * c - u * s) / k)) with (v * c - u * s) by (field; exact Hk).
split.
- replace (c * (u * c + v * s) - s * (v * c - u * s)) with (u * (c * c + s * s))
    by ring.
  rewrite Hcs. ring.
- replace (s * (u * c + v * s) + c * (v * c - u * s)) with (v * (c * c + s * s))
    by ring.
  rewrite Hcs. ring.
Qed.

(** X16.  The detection transform followed by the display transform is the
  identity: a fingertip mapped into layout space and drawn with the matrix of
  [drawAllKeys] lands on the fingertip, for every scale other than zero. *)
Theorem detection_then_display (canvasWidth canvasHeight : R)
  (pianoTransform : PianoTransform) (keysBounds : option BoundsCenter) (x y : R) :
scale pianoTransform <> 0 ->
toScreenSpace canvasWidth canvasHeight pianoTransform keysBounds
  (transformPointForDetection canvasWidth canvasHeight pianoTransform keysBounds x y)
= (x, y).
Proof.
intros Hk.
unfold toScreenSpace, transformPointForDetection, displayMatrix.
destruct keysBounds as [kb|]; [|unfold apply, identity; simpl; f_equal; ring].
set (k := scale pianoTransform) in *.
set (theta := rotation pianoTransform * PI / 180).
replace (- (rotation pianoTransform * PI) / 180) with (- theta)
  by (unfold theta; field).
rewrite cos_neg, sin_neg.
pose proof (sin2_cos2 theta) as Hcs. unfold Rsqr in Hcs.
assert (Hcs' : cos theta * cos theta + sin theta * sin theta = 1) by Lra.lra.
set (u := x - canvasWidth / 2 - translateX pianoTransform).
set (v := y - canvasHeight / 2 - translateY pianoTransform).
destruct (rotate_back (cos theta) (sin theta) k u v Hcs' Hk) as [Hx Hy].
unfold apply, translate, scaleBy, rotate, identity. cbn [a b c d e f fst snd].
f_equal.
- transitivity
    (cos theta * (k * ((u * cos theta + v * sin theta) / k))
     - sin theta * (k * ((v * cos theta - u * sin theta) / k))
     + (canvasWidth / 2 + translateX pianoTransform)).
  + destruct (flipH pianoTransform), (flipV pianoTransform); unfold sign;
      field; exact Hk.
  + rewrite Hx. unfold u. ring.
- transitivity
    (sin theta * (k * ((u * cos theta + v * sin theta) / k))
     + cos theta * (k * ((v * cos theta - u * sin theta) / k))
     + (canvasHeight / 2 + translateY pianoTransform)).
  + destruct (flipH pianoTransform), (flipV pianoTransform); unfold sign;
      field; exact Hk.
  + rewrite Hy. unfold v. ring.
Qed.

(** X17.  The detection transform is a similarity of ratio [1 / scale]: the
  squared distance between two mapped points is the squared distance between
  the points divided by the square of the scale.  Movement thresholds, which
  are compared with distances in layout space, therefore stand for [scale]
  times as many screen pixels. *)
Theorem detection_scales_distances (canvasWidth canvasHeight : R)
  (pianoTransform : PianoTransform) (kb : BoundsCenter) (x1 y1 x2 y2 : R) :
scale pianoTransform <> 0 ->
let p :=
  transformPointForDetection canvasWidth canvasHeight pianoTransform (Some kb) x1 y1 in
let q :=
  transformPointForDetection canvasWidth canvasHeight pianoTransform (Some kb) x2 y2 in
(fst p - fst q) * (fst p - fst q) + (snd p - snd q) * (snd p - snd q)
= ((x1 - x2) * (x1 - x2) + (y1 - y2) * (y1 - y2))
  / (scale pianoTransform * scale pianoTransform).
Proof.
intros Hk p q. unfold p, q, transformPointForDetection. cbn [fst snd].
set (k := scale pianoTransform) in *.
set (theta := - (rotation pianoTransform * PI) / 180).
pose proof (sin2_cos2 theta) as Hcs. unfold Rsqr in Hcs.
set (cs := cos theta) in *. set (sn := sin theta) in *.
set (u := x1 - x2). set (v := y1 - y2).
transitivity (((u * cs - v * sn) * (u * cs - v * sn)
               + (u * sn + v * cs) * (u * sn + v * cs)) / (k * k)).
- destruct (flipH pianoTransform), (flipV pianoTransform); unfold u, v;
    field; exact Hk.
- replace ((u * cs - v * sn) * (u * cs - v * sn)
           + (u * sn + v * cs) * (u * sn + v * cs))
    with ((u * u + v * v) * (sn * sn + cs * cs)) by ring.
  rewrite Hcs. f_equal. ring.
Qed.
End TransformMetric.

(** ** Landmark stabiliser *)

Lemma stabilizeHand_lookup (alpha : Q) :
  forall (cachedHand handLandmarks : list Landmark) (idx : nat),
    stabilizeHand alpha cachedHand handLandmarks !! idx
    = match cachedHand !! idx, handLandmarks !! idx with
      | Some cached, Some pt => Some (blend alpha cached pt)
      | None, Some pt => Some pt
      | cached, None => cached
      end.
Proof.
  induction cachedHand as [|c cs IH]; intros [|p ps] idx; simpl.
  - reflexivity.
  - now destruct ((p :: ps) !! idx).
  - now destruct ((c :: cs) !! idx).
  - destruct idx as [|idx]; simpl; [reflexivity | apply IH].
Qed.

Lemma stabilizeHands_lookup (alpha : Q) :
  forall (cache rawLandmarks : list (list Landmark)) (handIndex : nat),
    stabilizeHands alpha cache rawLandmarks !! handIndex
    = match cache !! handIndex, rawLandmarks !! handIndex with
      | Some cachedHand, Some handLandmarks =>
          Some (stabilizeHand alpha cachedHand handLandmarks)
      | None, Some handLandmarks => Some handLandmarks
      | cachedHand, None => cachedHand
      end.
Proof.
  induction cache as [|c cs IH]; intros [|p ps] handIndex; simpl.
  - reflexivity.
  - now destruct ((p :: ps) !! handIndex).
  - now destruct ((c :: cs) !! handIndex).
  - destruct handIndex as [|handIndex]; simpl; [reflexivity | apply IH].
Qed.

Lemma stabilizeLandmarks_lookup (alpha : Q) (cache rawLandmarks : list (list Landmark))
    (handIndex : nat) :
  snd (stabilizeLandmarks alpha cache rawLandmarks) !! handIndex
  = match rawLandmarks !! handIndex with
    | Some handLandmarks =>
        Some (match cache !! handIndex with
              | Some cachedHand => stabilizeHand alpha cachedHand handLandmarks
              | None => handLandmarks
              end)
    | None => None
    end.
Proof.
  unfold stabilizeLandmarks. destruct rawLandmarks as [|hand rest] eqn:E; [reflexivity|].
  rewrite <- E. cbn [snd].
  destruct (rawLandmarks !! handIndex) as [handLandmarks|] eqn:Hraw.
  - rewrite lookup_take_lt by (now apply lookup_lt_Some in Hraw).
    rewrite stabilizeHands_lookup, Hraw. now destruct (cache !! handIndex).
  - apply lookup_take_ge. now apply lookup_ge_None in Hraw.
Qed.

Lemma blend_offset (alpha : Q) (cached pt : Landmark) :
  offsetScaled (1 - alpha) pt (blend alpha cached pt) pt cached.
Proof. unfold offsetScaled, blend. simpl. repeat split; ring. Qed.

Lemma between_coordinate (alpha c p : Q) :
  0 <= alpha <= 1 -> Qmin c p <= c + (p - c) * alpha <= Qmax c p.
Proof.
  intros [H0 H1].
  destruct (Qlt_le_dec c p) as [Hlt | Hle].
  - rewrite Q.min_l, Q.max_r by lra.
    assert (0 <= (p - c) * alpha) by (apply Qmult_le_0_compat; lra).
    assert (0 <= (p - c) * (1 - alpha)) by (apply Qmult_le_0_compat; lra).
    split; lra.
  - rewrite Q.min_r, Q.max_l by lra.
    assert (0 <= (c - p) * alpha) by (apply Qmult_le_0_compat; lra).
    assert (0 <= (c - p) * (1 - alpha)) by (apply Qmult_le_0_compat; lra).
    split; lra.
Qed.

Lemma stabilizeLandmarks_cache (alpha : Q) (cache rawLandmarks : list (list Landmark)) :
  fst (stabilizeLandmarks alpha cache rawLandmarks)
  = snd (stabilizeLandmarks alpha cache rawLandmarks).
Proof. unfold stabilizeLandmarks. now destruct rawLandmarks. Qed.

Lemma stabilizeLandmarks_landmark (alpha : Q) (cache rawLandmarks : list (list Landmark))
    (handIndex idx : nat) (handLandmarks cachedHand : list Landmark)
    (pt cached : Landmark) :
  rawLandmarks !! handIndex = Some handLandmarks ->
  cache !! handIndex = Some cachedHand ->
  handLandmarks !! idx = Some pt ->
  cachedHand !! idx = Some cached ->
  exists hand, snd (stabilizeLandmarks alpha cache rawLandmarks) !! handIndex = Some hand
               /\ hand !! idx = Some (blend alpha cached pt).
Proof.
  intros Hraw Hc Hpt Hcached.
  exists (stabilizeHand alpha cachedHand handLandmarks).
  rewrite stabilizeLandmarks_lookup, Hraw, Hc. split; [reflexivity|].
  now rewrite stabilizeHand_lookup, Hcached, Hpt.
Qed.

(** X18.  The stabiliser returns one hand per detected hand and keeps what it
    returns as its cache.  A hand with no cached predecessor (the first hand
    after a frame without hands, or an additional hand) is returned as
    detected.  A landmark with a cached predecessor moves the fraction [alpha]
    of the way from the cached position to the detected one, so that for
    [0 <= alpha <= 1] it lies between the two. *)
Theorem stabilizeLandmarks_blends (alpha : Q) (cache rawLandmarks : list (list Landmark)) :
  let out := stabilizeLandmarks alpha cache rawLandmarks in
  length (snd out) = length rawLandmarks
  /\ fst out = snd out
  /\ (forall handIndex handLandmarks,
        rawLandmarks !! handIndex = Some handLandmarks ->
        cache !! handIndex = None ->
        snd out !! handIndex = Some handLandmarks)
  /\ (forall handIndex handLandmarks cachedHand idx pt cached,
        rawLandmarks !! handIndex = Some handLandmarks ->
        cache !! handIndex = Some cachedHand ->
        handLandmarks !! idx = Some pt ->
        cachedHand !! idx = Some cached ->
        exists hand, snd out !! handIndex = Some hand
                     /\ hand !! idx = Some (blend alpha cached pt)
                     /\ offsetScaled (1 - alpha) pt (blend alpha cached pt) pt cached
                     /\ (0 <= alpha <= 1 -> between cached (blend alpha cached pt) pt)).
Proof.
  intros out. split; [|split; [|split]].
  - unfold out, stabilizeLandmarks. destruct rawLandmarks as [|hand rest] eqn:E;
      [reflexivity|].
    rewrite <- E. cbn [snd]. rewrite length_take.
    assert (H : forall c r : list (list Landmark),
               (length r <= length (stabilizeHands alpha c r))%nat).
    { induction c as [|x c IH]; intros [|y r]; simpl; try lia.
      specialize (IH r). lia. }
    specialize (H cache rawLandmarks). lia.
  - apply stabilizeLandmarks_cache.
  - intros handIndex handLandmarks Hraw Hnew. unfold out.
    now rewrite stabilizeLandmarks_lookup, Hraw, Hnew.
  - intros handIndex handLandmarks cachedHand idx pt cached Hraw Hc Hpt Hcached.
    destruct (stabilizeLandmarks_landmark alpha cache rawLandmarks handIndex idx
                handLandmarks cachedHand pt cached Hraw Hc Hpt Hcached)
      as (hand & Hhand & Hidx).
    exists hand. split; [exact Hhand|]. split; [exact Hidx|].
    split; [apply blend_offset|].
    intros Ha. unfold between, blend. simpl.
    repeat split; apply between_coordinate; exact Ha.
Qed.

Lemma Qpower_S (a : Q) (n : nat) : a ^ Z.of_nat (S n) == a * a ^ Z.of_nat n.
Proof.
  rewrite Nat2Z.inj_succ, <- Z.add_1_r, Qpower_plus' by lia.
  rewrite Qmult_comm. apply Qmult_comp; [|reflexivity]. simpl. reflexivity.
Qed.

(** X19.  A hand held still is approached geometrically: when the same
    landmarks are detected in [n] frames in a row, a stabilised landmark's
    offset from its detected position is [(1 - alpha) ^ n] times what it was
    before. *)
Theorem stabilizeRun_converges (alpha : Q) (rawLandmarks : list (list Landmark))
    (handIndex idx : nat) (handLandmarks : list Landmark) (pt : Landmark) :
  rawLandmarks !! handIndex = Some handLandmarks ->
  handLandmarks !! idx = Some pt ->
  forall (n : nat) (cache : list (list Landmark)) (cachedHand : list Landmark)
         (cached : Landmark),
    cache !! handIndex = Some cachedHand ->
    cachedHand !! idx = Some cached ->
    exists hand now,
      stabilizeRun alpha (repeat rawLandmarks n) cache !! handIndex = Some hand
      /\ hand !! idx = Some now
      /\ offsetScaled ((1 - alpha) ^ Z.of_nat n) pt now pt cached.
Proof.
  intros Hraw Hpt. induction n as [|n IH]; intros cache cachedHand cached Hc Hcached.
  - exists cachedHand, cached. split; [exact Hc|]. split; [exact Hcached|].
    unfold offsetScaled. simpl. repeat split; ring.
  - cbn [repeat stabilizeRun fold_left].
    destruct (stabilizeLandmarks_landmark alpha cache rawLandmarks handIndex idx
                handLandmarks cachedHand pt cached Hraw Hc Hpt Hcached)
      as (hand1 & Hh1 & Hp1).
    destruct (blend_offset alpha cached pt) as (Ox & Oy & Oz).
    rewrite <- stabilizeLandmarks_cache in Hh1.
    destruct (IH _ hand1 (blend alpha cached pt) Hh1 Hp1)
      as (hand & now & Hh & Hn & (Nx & Ny & Nz)).
    exists hand, now. split; [exact Hh|]. split; [exact Hn|].
    unfold offsetScaled. rewrite Qpower_S.
    rewrite Nx, Ny, Nz, Ox, Oy, Oz. repeat split; ring.
Qed.

(** ** Fingers do not interfere *)



(** ** Hands entering the picture *)

Lemma processFinger_positions (cfg : Config) (exportKeys : list Key) (frameCount : Z)
    (fid : FingerId) (thumb : bool) (tx ty : Q) (st : FingerMaps) (raw : jsset nat) :
  previousFingerPositions
    (fst (processFinger cfg exportKeys frameCount fid thumb tx ty st raw))
  = <[fid := mkPosition tx ty frameCount]> (previousFingerPositions st).
Proof.
  unfold processFinger.
  assert (H : previousFingerPositions (fst (trackMotion cfg frameCount fid tx ty st))
              = <[fid := mkPosition tx ty frameCount]> (previousFingerPositions st)).
  { unfold trackMotion. destruct (previousFingerPositions st !! fid); reflexivity. }
  destruct (trackMotion cfg frameCount fid tx ty st) as [st1 m]. cbn [fst] in H.
  destruct (fingerKeysOf cfg exportKeys thumb tx ty m) as [fingerKeys|]; [|exact H].
  destruct (selectCandidate fingerKeys) as [sel|]; [|exact H].
  unfold decideTrigger. destruct (shouldTrigger cfg m st1 fid sel); [exact H|].
  destruct (sustains m st1 fid sel); exact H.
Qed.

Section Entering.
Variables canvasWidth canvasHeight : Q.
Variable transformPointForDetection : Q -> Q -> point.
Variable cfg : Config.
Variable exportKeys : list Key.
Variable frameCount : Z.

Lemma processFingersFrom_new (handIndex : nat) (hasThumb : bool) :
forall (pts : list point) (fingerIndex : nat) (st : FingerMaps) (raw : jsset nat),
  seenBefore st handIndex fingerIndex ->
  snd (processFingersFrom transformPointForDetection cfg exportKeys frameCount
         handIndex hasThumb fingerIndex pts st raw) = raw
  /\ seenBefore
       (fst (processFingersFrom transformPointForDetection cfg exportKeys frameCount
               handIndex hasThumb fingerIndex pts st raw))
       (S handIndex) 0.
Proof.
induction pts as [|[x y] pts IH]; intros fingerIndex st raw Hseen;
  cbn [processFingersFrom].
- split; [reflexivity|]. intros h f Hf. destruct (Hseen h f Hf) as [H | [-> _]];
    left; lia.
- assert (Hnew : previousFingerPositions st !! (handIndex, fingerIndex) = None).
  { destruct (previousFingerPositions st !! (handIndex, fingerIndex)) eqn:E;
      [|reflexivity].
    assert (Hsome : is_Some (previousFingerPositions st !! (handIndex, fingerIndex)))
      by (rewrite E; now eexists).
    destruct (Hseen handIndex fingerIndex Hsome) as [H | [_ H]]; lia. }
  pose proof (new_finger_asserts_nothing cfg exportKeys frameCount
                (handIndex, fingerIndex) (hasThumb && Nat.eqb fingerIndex 0)
                (fst (transformPointForDetection x y))
                (snd (transformPointForDetection x y)) st raw Hnew) as Hraw.
  pose proof (processFinger_positions cfg exportKeys frameCount
                (handIndex, fingerIndex) (hasThumb && Nat.eqb fingerIndex 0)
                (fst (transformPointForDetection x y))
                (snd (transformPointForDetection x y)) st raw) as Hpos.
  destruct (processFinger _ _ _ _ _ _ _ _ _) as [st1 raw1].
  cbn [fst snd] in Hraw, Hpos. subst raw1.
  apply IH. intros h f Hf. rewrite Hpos in Hf.
  destruct (decide ((handIndex, fingerIndex) = (h, f))) as [[= <- <-]|Hne].
  + right. split; [reflexivity | lia].
  + rewrite lookup_insert_ne in Hf by exact Hne.
    destruct (Hseen h f Hf) as [H | [-> H]]; [now left | right; split; [reflexivity|lia]].
Qed.

Lemma processHandsFrom_new :
forall (detected : list Hand) (handIndex : nat) (st : FingerMaps) (raw : jsset nat),
  seenBefore st handIndex 0 ->
  snd (processHandsFrom canvasWidth canvasHeight transformPointForDetection cfg
         exportKeys frameCount handIndex detected st raw) = raw.
Proof.
induction detected as [|h detected IH]; intros handIndex st raw Hseen;
  cbn [processHandsFrom]; [reflexivity|].
destruct (processFingersFrom_new handIndex (bool_decide (is_Some (thumbTip h)))
            (allFingerPoints canvasWidth canvasHeight h) 0 st raw Hseen)
  as [Hraw Hnext].
destruct (processFingersFrom _ _ _ _ _ _ _ _ _ _) as [st1 raw1].
cbn [fst snd] in Hraw, Hnext. subst raw1. now apply IH.
Qed.

(** X21.  A hand entering the picture is silent in its first frame.  When no
  finger position is on record (at the start, and after every frame without
  hands, which clears the dictionaries), the detection loop asserts no key,
  however many hands the frame shows and wherever their fingers are: every
  finger is seen for the first time. *)
Theorem entering_hands_assert_nothing (detected : list Hand) (st : FingerMaps) :
previousFingerPositions st = ∅ ->
snd (processHandsFrom canvasWidth canvasHeight transformPointForDetection cfg
       exportKeys frameCount 0 detected st []) = [].
Proof.
intros Hempty. apply processHandsFrom_new.
intros h f [p Hp]. rewrite Hempty, lookup_empty in Hp. discriminate Hp.
Qed.
End Entering.

Lemma entering_hands_assert_nothing_witness :
  snd (processHandsFrom 1280 720 noTransform default_config overlapping 2 0
         [chord; entering] noFingers []) = [].
Proof.
  apply (entering_hands_assert_nothing 1280 720 noTransform default_config
           overlapping 2 [chord; entering] noFingers).
  reflexivity.
Defined.

(** ** The per-finger dictionaries stay in step *)

Lemma processFinger_consistent (cfg : Config) (exportKeys : list Key) (frameCount : Z)
    (fid : FingerId) (thumb : bool) (tx ty : Q) (st : FingerMaps) (raw : jsset nat) :
  consistentFingers st ->
  consistentFingers (fst (processFinger cfg exportKeys frameCount fid thumb tx ty st raw)).
Proof.
  intros Hst. unfold processFinger.
  destruct (trackMotion_keeps cfg frameCount fid tx ty st) as (Hm & Hp & Ht & Hf).
  destruct (trackMotion cfg frameCount fid tx ty st) as [st1 m]. cbn [fst] in *.
  assert (H1 : consistentFingers st1).
  { intros f. rewrite Hm, Hp, Ht, Hf. apply Hst. }
  destruct (fingerKeysOf cfg exportKeys thumb tx ty m) as [fingerKeys|]; [|exact H1].
  destruct (selectCandidate fingerKeys) as [sel|].
  - unfold decideTrigger. destruct (shouldTrigger cfg m st1 fid sel).
    + cbn [fst]. intros f. unfold recordTrigger.
      cbn [fingerKeyMapping fingerPreviousKeys fingerTriggeredKeys fingerTriggerFrames].
      destruct (decide (fid = f)) as [->|Hne].
      * rewrite !lookup_insert_eq. repeat split; intros _; now eexists.
      * rewrite !lookup_insert_ne by exact Hne. apply H1.
    + destruct (sustains m st1 fid sel); exact H1.
  - cbn [fst]. intros f. unfold clearKey.
    cbn [fingerKeyMapping fingerPreviousKeys fingerTriggeredKeys fingerTriggerFrames].
    destruct (H1 f) as (Ha & Hb & Hc).
    destruct (decide (fid = f)) as [->|Hne].
    + rewrite !lookup_delete_eq. split; [reflexivity|]. split; [exact Hb|].
      intros [? H]. discriminate H.
    + rewrite !lookup_delete_ne by exact Hne. auto.
Qed.

Lemma cleanUp_consistent (frameCount : Z) (st : FingerMaps) :
  consistentFingers st -> consistentFingers (cleanUp frameCount st).
Proof.
  intros Hst f. unfold cleanUp.
  cbn [fingerKeyMapping fingerPreviousKeys fingerTriggeredKeys fingerTriggerFrames].
  rewrite !purge_lookup.
  destruct (isStale frameCount (previousFingerPositions st) f); [|apply Hst].
  split; [reflexivity|]. split; [split; intros [? H]; discriminate H|].
  intros [? H]. discriminate H.
Qed.

Lemma noFingers_consistent : consistentFingers noFingers.
Proof.
  intros f. unfold noFingers.
  cbn [fingerKeyMapping fingerPreviousKeys fingerTriggeredKeys fingerTriggerFrames].
  rewrite !lookup_empty. split; [reflexivity|].
  split; [split; intros [? H]; discriminate H|]. intros [? H]. discriminate H.
Qed.

Lemma smoothAndEmit_consistent (cfg : Config) (exportKeys : list Key)
    (handsDetected : bool) (raw : jsset nat) (e : Engine) :
  consistentFingers (fingers e) ->
  consistentFingers (fingers (fst (smoothAndEmit cfg exportKeys handsDetected raw e))).
Proof.
  intros H. unfold smoothAndEmit.
  destruct (applySmoothing cfg raw exportKeys _) as [history2 active2].
  destruct handsDetected.
  - destruct (emitWithHands exportKeys active2 (currentlyHoveredNotes e))
      as [[events notes]|]; exact H.
  - destruct (drainAll cfg exportKeys (history2, active2)) as [history3 active3].
    destruct (emitWithoutHands active3 (currentlyHoveredNotes e)).
    apply noFingers_consistent.
Qed.

Section Consistency.
Variables canvasWidth canvasHeight : Q.
Variable transformPointForDetection : Q -> Q -> point.
Variable cfg : Config.

Lemma processFingersFrom_consistent (exportKeys : list Key) (frameCount : Z)
  (handIndex : nat) (hasThumb : bool) :
forall (pts : list point) (fingerIndex : nat) (st : FingerMaps) (raw : jsset nat),
  consistentFingers st ->
  consistentFingers
    (fst (processFingersFrom transformPointForDetection cfg exportKeys frameCount
            handIndex hasThumb fingerIndex pts st raw)).
Proof.
induction pts as [|[x y] pts IH]; intros fingerIndex st raw Hst;
  cbn [processFingersFrom]; [exact Hst|].
pose proof (processFinger_consistent cfg exportKeys frameCount
              (handIndex, fingerIndex) (hasThumb && Nat.eqb fingerIndex 0)
              (fst (transformPointForDetection x y))
              (snd (transformPointForDetection x y)) st raw Hst) as H1.
destruct (processFinger _ _ _ _ _ _ _ _ _) as [st1 raw1]. now apply IH.
Qed.

Lemma processHandsFrom_consistent (exportKeys : list Key) (frameCount : Z) :
forall (detected : list Hand) (handIndex : nat) (st : FingerMaps) (raw : jsset nat),
  consistentFingers st ->
  consistentFingers
    (fst (processHandsFrom canvasWidth canvasHeight transformPointForDetection cfg
            exportKeys frameCount handIndex detected st raw)).
Proof.
induction detected as [|h detected IH]; intros handIndex st raw Hst;
  cbn [processHandsFrom]; [exact Hst|].
pose proof (processFingersFrom_consistent exportKeys frameCount handIndex
              (bool_decide (is_Some (thumbTip h))) 
              (allFingerPoints canvasWidth canvasHeight h) 0 st raw Hst) as H1.
destruct (processFingersFrom _ _ _ _ _ _ _ _ _ _) as [st1 raw1]. now apply IH.
Qed.

Lemma frame_consistent (exportKeys : list Key) (frameCount : Z) (detected : list Hand)
  (e : Engine) :
consistentFingers (fingers e) ->
consistentFingers
  (fingers (fst (processLandmarkerResults canvasWidth canvasHeight
                   transformPointForDetection cfg exportKeys frameCount detected e))).
Proof.
intros H. unfold processLandmarkerResults.
destruct exportKeys as [|k keys]; [exact H|].
pose proof (processHandsFrom_consistent (k :: keys) frameCount detected 0
              (fingers e) [] H) as H1.
destruct (processHandsFrom _ _ _ _ _ _ _ _ _ _) as [fingers1 raw].
set (e1 := mkEngine fingers1 _ _ _ _).
set (limited := limitKeys _ _ _ _ _ _).
set (handsDetected := negb _).
pose proof (smoothAndEmit_consistent cfg (k :: keys) handsDetected limited e1 H1) as H2.
destruct (smoothAndEmit cfg (k :: keys) handsDetected limited e1) as [e2 [events|]].
- cbn [fst fingers]. now apply cleanUp_consistent.
- exact H2.
Qed.

(** X22.  The per-finger dictionaries stay in step.  After any run of frames
  from the initial state, whatever layouts and hands the frames see, and for
  every finger: [fingerKeyMapping] and [fingerPreviousKeys] hold the same
  entry (so "the key changed" and "the finger is assigned another key" are
  one test), the finger has a trigger frame exactly when it has a triggered
  key (the default [|| 0] of the cooldown is never used for a finger that
  has triggered), and a finger with a key assigned has triggered before. *)
Theorem finger_dictionaries_stay_in_step (inputs : list FrameInput) (fid : FingerId) :
let st :=
  fingers (runFrames canvasWidth canvasHeight transformPointForDetection cfg
                     inputs initialEngine) in
fingerKeyMapping st !! fid = fingerPreviousKeys st !! fid
/\ (is_Some (fingerTriggeredKeys st !! fid) <-> is_Some (fingerTriggerFrames st !! fid))
/\ (is_Some (fingerKeyMapping st !! fid) -> is_Some (fingerTriggeredKeys st !! fid)).
Proof.
intros st.
assert (H : forall e, consistentFingers (fingers e) ->
                      consistentFingers
                        (fingers (runFrames canvasWidth canvasHeight
                                    transformPointForDetection cfg inputs e))).
{ induction inputs as [|f inputs IH]; intros e He; [exact He|].
  cbn [runFrames fold_left]. apply IH. now apply frame_consistent. }
apply (H initialEngine noFingers_consistent fid).
Qed.
End Consistency.

(** ** Detection windows *)

Section Windows.
Variable cfg : Config.
Hypothesis window_positive : (1 <= SMOOTHING_FRAMES cfg)%nat.

Lemma soundHistories_default (hist : gmap nat (list nat)) (i : nat) :
soundHistories cfg hist -> validHistory cfg (default [] (hist !! i)).
Proof.
intros H. destruct (hist !! i) as [h|] eqn:E; simpl; [apply (H i h E)|].
split; [constructor | simpl; lia].
Qed.

Lemma soundHistories_insert (hist : gmap nat (list nat)) (i : nat) (h : list nat) :
soundHistories cfg hist -> validHistory cfg h -> h <> [] ->
soundHistories cfg (<[i := h]> hist).
Proof.
intros H Hv Hne j h' Hj. rewrite lookup_insert in Hj.
destruct (decide (i = j)); [injection Hj as <-; auto | apply (H j h' Hj)].
Qed.

Lemma soundHistories_push (hist : gmap nat (list nat)) (i : nat) (s : bool) :
soundHistories cfg hist ->
soundHistories cfg (<[i := pushSample cfg (bit s) (default [] (hist !! i))]> hist).
Proof.
intros H.
destruct (pushSample_valid cfg s (default [] (hist !! i)) window_positive
            (soundHistories_default hist i H)) as [Hv Hne].
now apply soundHistories_insert.
Qed.

Lemma updateHistory_sound (raw : jsset nat) (exportKeys : list Key)
  (hist : gmap nat (list nat)) :
soundHistories cfg hist -> soundHistories cfg (updateHistory cfg raw exportKeys hist).
Proof.
unfold updateHistory. generalize (seq 0 (length exportKeys)). intros l.
revert hist. induction l as [|i l IH]; intros hist H; simpl; [exact H|].
apply IH. unfold recordDetection, sample.
apply (soundHistories_push hist i (has i raw) H).
Qed.

Lemma smoothKey_sound (raw : jsset nat) (st : gmap nat (list nat) * jsset nat) (i : nat) :
soundHistories cfg (fst st) -> soundHistories cfg (fst (smoothKey cfg raw st i)).
Proof.
destruct st as [hist act]. simpl. intros H. unfold smoothKey.
destruct (default [] (hist !! i)).
- destruct (has i raw); simpl; [|exact H].
  apply soundHistories_insert; [exact H | split |].
  + apply Forall_forall. intros x Hx. apply list_elem_of_In, repeat_spec in Hx. lia.
  + rewrite repeat_length. lia.
  + destruct (SMOOTHING_FRAMES cfg); [lia | discriminate].
- destruct (negb (has i act) && _); [exact H|].
  destruct (has i act && _); exact H.
Qed.

Lemma applySmoothing_sound (raw : jsset nat) (exportKeys : list Key)
  (st : gmap nat (list nat) * jsset nat) :
soundHistories cfg (fst st) ->
soundHistories cfg (fst (applySmoothing cfg raw exportKeys st)).
Proof.
unfold applySmoothing. generalize (seq 0 (length exportKeys)). intros l.
revert st. induction l as [|i l IH]; intros st H; simpl; [exact H|].
apply IH, smoothKey_sound, H.
Qed.

Lemma drainKey_sound (st : gmap nat (list nat) * jsset nat) (i : nat) :
soundHistories cfg (fst st) -> soundHistories cfg (fst (drainKey cfg st i)).
Proof.
destruct st as [hist act]. simpl. intros H. unfold drainKey.
pose proof (soundHistories_push hist i false H) as Hb. cbn [bit] in Hb.
destruct (pushSample cfg 0 (default [] (hist !! i))); [exact Hb|].
destruct (has i act && _); exact Hb.
Qed.

Lemma drainAll_sound (exportKeys : list Key) (st : gmap nat (list nat) * jsset nat) :
soundHistories cfg (fst st) -> soundHistories cfg (fst (drainAll cfg exportKeys st)).
Proof.
unfold drainAll. generalize (seq 0 (length exportKeys)). intros l.
revert st. induction l as [|i l IH]; intros st H; simpl; [exact H|].
apply IH, drainKey_sound, H.
Qed.

Lemma smoothAndEmit_sound (exportKeys : list Key) (handsDetected : bool)
  (raw : jsset nat) (e : Engine) :
soundHistories cfg (keyDetectionHistory e) ->
soundHistories cfg
  (keyDetectionHistory (fst (smoothAndEmit cfg exportKeys handsDetected raw e))).
Proof.
intros H. unfold smoothAndEmit.
pose proof (applySmoothing_sound raw exportKeys
              (updateHistory cfg raw exportKeys (keyDetectionHistory e),
               smoothedActiveKeys e)
              (updateHistory_sound raw exportKeys _ H)) as H2.
destruct (applySmoothing cfg raw exportKeys _) as [history2 active2].
simpl in H2. destruct handsDetected.
- destruct (emitWithHands exportKeys active2 (currentlyHoveredNotes e))
    as [[events notes]|]; exact H2.
- pose proof (drainAll_sound exportKeys (history2, active2) H2) as H3.
  destruct (drainAll cfg exportKeys (history2, active2)) as [history3 active3].
  destruct (emitWithoutHands active3 (currentlyHoveredNotes e)). exact H3.
Qed.

Lemma frame_sound (canvasWidth canvasHeight : Q)
  (transformPointForDetection : Q -> Q -> point)
  (exportKeys : list Key) (frameCount : Z) (detected : list Hand) (e : Engine) :
soundHistories cfg (keyDetectionHistory e) ->
soundHistories cfg
  (keyDetectionHistory
     (fst (processLandmarkerResults canvasWidth canvasHeight
             transformPointForDetection cfg exportKeys frameCount detected e))).
Proof.
intros H. unfold processLandmarkerResults.
destruct exportKeys as [|k keys]; [exact H|].
destruct (processHandsFrom _ _ _ _ _ _ _ _ _ _) as [fingers1 raw].
set (e1 := mkEngine fingers1 _ _ _ _).
set (limited := limitKeys _ _ _ _ _ _).
set (handsDetected := negb _).
pose proof (smoothAndEmit_sound (k :: keys) handsDetected limited e1 H) as H2.
destruct (smoothAndEmit cfg (k :: keys) handsDetected limited e1) as [e2 [events|]];
  exact H2.
Qed.

(** X23.  Detection rates are fractions.  With a window of at least one frame,
  after any run of frames from the initial state, whatever layouts and hands
  the frames see, every stored detection window holds between 1 and
  [SMOOTHING_FRAMES] samples, each 0 or 1, and its detection rate lies
  between 0 and 1: the division by [history.length] is never a division by
  zero, and thresholds outside [0, 1] can never be crossed. *)
Theorem detection_rates_are_fractions (canvasWidth canvasHeight : Q)
  (transformPointForDetection : Q -> Q -> point) (inputs : list FrameInput)
  (i : nat) (history : list nat) :
keyDetectionHistory
  (runFrames canvasWidth canvasHeight transformPointForDetection cfg inputs
             initialEngine) !! i = Some history ->
(1 <= length history <= SMOOTHING_FRAMES cfg)%nat
/\ (forall s, In s history -> s = 0%nat \/ s = 1%nat)
/\ 0 <= detectionRate history <= 1.
Proof.
assert (H : forall e, soundHistories cfg (keyDetectionHistory e) ->
                      soundHistories cfg
                        (keyDetectionHistory
                           (runFrames canvasWidth canvasHeight
                                      transformPointForDetection cfg inputs e))).
{ induction inputs as [|f inputs IH]; intros e He; [exact He|].
  cbn [runFrames fold_left]. apply IH. now apply frame_sound. }
intros Hh.
destruct (H initialEngine (fun j h Hj => ltac:(discriminate Hj)) i history Hh)
  as [[Hbin Hlen] Hne].
assert (Hpos : (0 < length history)%nat) by (destruct history; [contradiction | simpl; lia]).
split; [lia|]. split.
- intros s Hs. rewrite Forall_forall in Hbin. apply list_elem_of_In, Hbin in Hs. lia.
- rewrite detectionRate_eq. pose proof (iq_pos _ Hpos) as Hq.
  pose proof (list_sum_le_length history Hbin) as Hsum.
  split.
  + apply Qle_shift_div_l; [exact Hq|]. rewrite Qmult_0_l.
    change 0 with (iq 0). apply iq_le. lia.
  + apply Qle_shift_div_r; [exact Hq|]. rewrite Qmult_1_l. now apply iq_le.
Qed.
End Windows.

Lemma detection_rates_are_fractions_witness :
  (1 <= length [0%nat; 1%nat] <= SMOOTHING_FRAMES default_config)%nat
  /\ (forall s, In s [0%nat; 1%nat] -> s = 0%nat \/ s = 1%nat)
  /\ 0 <= detectionRate [0%nat; 1%nat] <= 1.
Proof.
  apply (detection_rates_are_fractions default_config ltac:(vm_compute; lia)
           1280 720 noTransform session 2%nat).
  vm_compute. reflexivity.
Defined.

(** ** Active keys and their windows *)

Lemma nextActive_positive (cfg : Config) (isCurrentlyActive : bool) (rate : Q) :
  0 < ACTIVATION_THRESHOLD cfg -> 0 < DEACTIVATION_THRESHOLD cfg ->
  nextActive cfg isCurrentlyActive rate = true -> 0 < rate.
Proof.
  intros Ha Hd. unfold nextActive.
  destruct (negb isCurrentlyActive && Qgeb rate (ACTIVATION_THRESHOLD cfg)) eqn:E1.
  - intros _. apply andb_true_iff in E1. destruct E1 as [_ E1].
    apply Qgeb_ge in E1. lra.
  - destruct (isCurrentlyActive && Qltb rate (DEACTIVATION_THRESHOLD cfg)) eqn:E2;
      [discriminate|].
    intros ->. simpl in E2. apply Qltb_ge in E2. lra.
Qed.

Lemma smoothFrame_active_key (cfg : Config) (exportKeys : list Key)
    (st : gmap nat (list nat) * jsset nat) (raw : jsset nat) (i : nat) :
  (1 <= SMOOTHING_FRAMES cfg)%nat ->
  0 < ACTIVATION_THRESHOLD cfg -> 0 < DEACTIVATION_THRESHOLD cfg ->
  (i < length exportKeys)%nat ->
  has i (snd (smoothFrame cfg exportKeys st raw)) = true ->
  0 < detectionRate (default [] (fst (smoothFrame cfg exportKeys st raw) !! i)).
Proof.
  intros HW Ha Hd Hi Hon.
  pose proof (smoothFrame_key cfg exportKeys st raw i Hi) as H. cbv zeta in H.
  pose proof (pushSample_nonempty cfg (if has i raw then 1 else 0)%nat
                (default [] (fst st !! i)) HW) as Hne.
  unfold keyFrame in H. cbn [fst snd] in H.
  destruct (pushSample cfg (if has i raw then 1 else 0)%nat (default [] (fst st !! i)))
    as [|s h]; [simpl in Hne; lia|].
  injection H as Hh Hact. rewrite Hh. rewrite Hon in Hact. symmetry in Hact.
  exact (nextActive_positive cfg _ _ Ha Hd Hact).
Qed.

Lemma drainAll_active_key (cfg : Config) (exportKeys : list Key)
    (st : gmap nat (list nat) * jsset nat) (i : nat) :
  (1 <= SMOOTHING_FRAMES cfg)%nat -> 0 < DEACTIVATION_THRESHOLD cfg ->
  (i < length exportKeys)%nat ->
  has i (snd (drainAll cfg exportKeys st)) = true ->
  0 < detectionRate (default [] (fst (drainAll cfg exportKeys st) !! i)).
Proof.
  intros HW Hd Hi Hon. destruct (drainAll_key cfg exportKeys st i Hi) as [Hh Hoff].
  rewrite Hh. cbn [default from_option].
  set (pushed := pushSample cfg 0 (default [] (fst st !! i))) in *.
  destruct (Qlt_le_dec (detectionRate pushed) (DEACTIVATION_THRESHOLD cfg)) as [Hlt | Hge];
    [|exact (Qlt_le_trans _ _ _ Hd Hge)].
  rewrite Hoff in Hon; [discriminate Hon | | exact Hlt].
  intros E. pose proof (pushSample_nonempty cfg 0%nat (default [] (fst st !! i)) HW) as Hne.
  fold pushed in Hne. rewrite E in Hne. simpl in Hne. lia.
Qed.

Lemma smoothAndEmit_active_key (cfg : Config) (exportKeys : list Key)
    (handsDetected : bool) (raw : jsset nat) (e : Engine) (i : nat) :
  (1 <= SMOOTHING_FRAMES cfg)%nat ->
  0 < ACTIVATION_THRESHOLD cfg -> 0 < DEACTIVATION_THRESHOLD cfg ->
  inLayout exportKeys (smoothedActiveKeys e) ->
  In i (smoothedActiveKeys (fst (smoothAndEmit cfg exportKeys handsDetected raw e))) ->
  0 < detectionRate
        (default [] (keyDetectionHistory
                       (fst (smoothAndEmit cfg exportKeys handsDetected raw e)) !! i)).
Proof.
  intros HW Ha Hd Hin.
  destruct (smoothAndEmit_inLayout cfg exportKeys handsDetected raw e Hin) as [_ Hin'].
  intros Hi. pose proof (Hin' i Hi) as Hlt. revert Hi.
  pose proof (smoothFrame_active_key cfg exportKeys
                (keyDetectionHistory e, smoothedActiveKeys e) raw i HW Ha Hd Hlt) as H2.
  unfold smoothAndEmit. unfold smoothFrame in H2. cbn [fst snd] in H2.
  destruct (applySmoothing cfg raw exportKeys _) as [history2 active2].
  cbn [fst snd] in H2. destruct handsDetected.
  - destruct (emitWithHands exportKeys active2 (currentlyHoveredNotes e))
      as [[events notes]|]; cbn [fst smoothedActiveKeys keyDetectionHistory];
      intros Hi; apply H2, has_In, Hi.
  - pose proof (drainAll_active_key cfg exportKeys (history2, active2) i HW Hd Hlt) as H3.
    destruct (drainAll cfg exportKeys (history2, active2)) as [history3 active3].
    destruct (emitWithoutHands active3 (currentlyHoveredNotes e)).
    cbn [fst snd smoothedActiveKeys keyDetectionHistory] in *.
    intros Hi. apply H3, has_In, Hi.
Qed.

Section ActiveKeys.
Variables canvasWidth canvasHeight : Q.
Variable transformPointForDetection : Q -> Q -> point.
Variable cfg : Config.
Variable exportKeys : list Key.
Hypothesis window_positive : (1 <= SMOOTHING_FRAMES cfg)%nat.
Hypothesis activation_positive : 0 < ACTIVATION_THRESHOLD cfg.
Hypothesis release_positive : 0 < DEACTIVATION_THRESHOLD cfg.

Lemma frame_active_key (frameCount : Z) (detected : list Hand) (e : Engine) (i : nat) :
inLayout exportKeys (smoothedActiveKeys e) ->
(forall j, In j (smoothedActiveKeys e) ->
           0 < detectionRate (default [] (keyDetectionHistory e !! j))) ->
In i (smoothedActiveKeys
        (fst (processLandmarkerResults canvasWidth canvasHeight
                transformPointForDetection cfg exportKeys frameCount detected e))) ->
0 < detectionRate
      (default []
         (keyDetectionHistory
            (fst (processLandmarkerResults canvasWidth canvasHeight
                    transformPointForDetection cfg exportKeys frameCount detected e))
          !! i)).
Proof.
intros Hin Hrate. unfold processLandmarkerResults.
destruct exportKeys as [|k keys] eqn:Ek; [apply Hrate|].
destruct (processHandsFrom _ _ _ _ _ _ _ _ _ _) as [fingers1 raw].
set (e1 := mkEngine fingers1 _ _ _ _).
set (limited := limitKeys _ _ _ _ _ _).
set (handsDetected := negb _).
pose proof (smoothAndEmit_active_key cfg (k :: keys) handsDetected limited e1 i
              window_positive activation_positive release_positive Hin) as H.
destruct (smoothAndEmit cfg (k :: keys) handsDetected limited e1) as [e2 [events|]];
  exact H.
Qed.

(** X24.  A key is active only while its window still holds a detection.
  With a window of at least one frame and positive thresholds, after any run
  of frames on one layout from the initial state, every active (highlighted)
  key has a detection rate above zero: some frame among the last
  [SMOOTHING_FRAMES] pushes recorded the key as asserted. *)
Theorem active_keys_have_a_detection (inputs : list FrameInput) (i : nat) :
Forall (fun f => layout f = exportKeys) inputs ->
let e := runFrames canvasWidth canvasHeight transformPointForDetection cfg
                   inputs initialEngine in
In i (smoothedActiveKeys e) ->
0 < detectionRate (default [] (keyDetectionHistory e !! i)).
Proof.
intros Hall e. unfold e. clear e.
assert (H : forall e0,
           inLayout exportKeys (smoothedActiveKeys e0) ->
           (forall j, In j (smoothedActiveKeys e0) ->
                      0 < detectionRate (default [] (keyDetectionHistory e0 !! j))) ->
           forall j,
             In j (smoothedActiveKeys
                     (runFrames canvasWidth canvasHeight transformPointForDetection
                                cfg inputs e0)) ->
             0 < detectionRate
                   (default []
                      (keyDetectionHistory
                         (runFrames canvasWidth canvasHeight
                                    transformPointForDetection cfg inputs e0) !! j))).
{ induction Hall as [|f inputs Hf _ IH]; intros e0 Hin Hrate; [exact Hrate|].
  cbn [runFrames fold_left]. rewrite Hf. apply IH.
  - now apply frame_inLayout.
  - intros j. now apply frame_active_key. }
apply H; intros j [].
Qed.
End ActiveKeys.

Lemma active_keys_have_a_detection_witness :
  0 < detectionRate
        (default []
           (keyDetectionHistory
              (runFrames 1280 720 noTransform default_config session initialEngine)
            !! 2%nat)).
Proof.
  apply (active_keys_have_a_detection 1280 720 noTransform default_config overlapping).
  - vm_compute. lia.
  - reflexivity.
  - reflexivity.
  - repeat constructor.
  - vm_compute. left. reflexivity.
Defined.

(** ** Layout generator *)

Lemma generateFrom_length (startOctave startIndex : nat) (keyWidth blackKeyWidth : Q) :
  forall (remaining i : nat) (currentX lastWhiteKeyX : Q),
    length (generateFrom startOctave startIndex keyWidth blackKeyWidth remaining i
                         currentX lastWhiteKeyX) = remaining.
Proof.
  induction remaining as [|n IH]; intros i currentX lastWhiteKeyX; [reflexivity|].
  cbn [generateFrom]. cbv zeta.
  destruct (existsb _ whiteNotes); cbn [length]; now rewrite IH.
Qed.

Lemma generateKeys_length (startOctave startIndex : nat) (numOctaves : Q) :
  length (generateKeys startOctave startIndex numOctaves)
  = Z.to_nat (totalKeysOf numOctaves).
Proof.
  unfold generateKeys. destruct (Z.leb_spec (totalKeysOf numOctaves) 0) as [H | H].
  - simpl. lia.
  - apply generateFrom_length.
Qed.

Lemma generatePianoKeys_length (startNote : string) (numOctaves : Q) :
  length (generatePianoKeys startNote numOctaves) = Z.to_nat (totalKeysOf numOctaves).
Proof.
  unfold generatePianoKeys.
  destruct (indexOf _ chromaticNotes 0); apply generateKeys_length.
Qed.

Lemma totalKeysOf_whole (m : nat) :
  totalKeysOf (inject_Z (Z.of_nat m)) = (12 * Z.of_nat m)%Z.
Proof.
  unfold totalKeysOf.
  assert (E : Qltb 0 (remainder1 (inject_Z (Z.of_nat m))) = false).
  { apply Qltb_ge. unfold remainder1. cbn [Qnum Qden inject_Z].
    rewrite Z.quot_1_r. unfold inject_Z. lra. }
  rewrite E. unfold Qfloor, inject_Z, Qmult. cbn [Qnum Qden].
  rewrite Z.div_1_r. lia.
Qed.

Lemma totalKeysOf_half (m : nat) :
  totalKeysOf (inject_Z (Z.of_nat m) + (1 # 2)) = (12 * Z.of_nat m + 11)%Z.
Proof.
  unfold totalKeysOf.
  assert (E : Qltb 0 (remainder1 (inject_Z (Z.of_nat m) + (1 # 2))) = true).
  { apply Qltb_lt. unfold remainder1, inject_Z, Qplus. cbn [Qnum Qden].
    replace (Z.quot (Z.of_nat m * 2 + 1 * 1) (Z.pos (1 * 2))) with (Z.of_nat m).
    - unfold Qlt, Qminus, Qplus, Qopp. cbn [Qnum Qden]. lia.
    - rewrite Z.quot_div_nonneg by lia.
      apply Z.div_unique with (r := 1%Z); lia. }
  rewrite E. unfold Qfloor, inject_Z, Qplus, Qmult. cbn [Qnum Qden].
  replace ((Z.of_nat m * 2 + 1 * 1) * 12 / Z.pos (1 * 2 * 1))%Z
    with (12 * Z.of_nat m + 6)%Z; [lia|].
  apply Z.div_unique with (r := 0%Z); lia.
Qed.

(** X25.  How many keys a layout has.  Whatever the start note, a whole number
    [m] of octaves gives [12 m] keys, and [m] octaves and a half give
    [12 m + 11] keys: the half octave adds eleven keys (six for the half and
    the five of [numOctaves % 1 > 0]), so that 2.5 octaves from C3 are 35 keys,
    C3 to A#5. *)
Theorem generatePianoKeys_count (startNote : string) (m : nat) :
  length (generatePianoKeys startNote (inject_Z (Z.of_nat m))) = (12 * m)%nat
  /\ length (generatePianoKeys startNote (inject_Z (Z.of_nat m) + (1 # 2)))
     = (12 * m + 11)%nat.
Proof.
  rewrite !generatePianoKeys_length, totalKeysOf_whole, totalKeysOf_half. lia.
Qed.

Lemma generateFrom_lookup (startOctave startIndex : nat) (keyWidth blackKeyWidth : Q) :
  forall (remaining i : nat) (currentX lastWhiteKeyX : Q) (j : nat) (k : Key),
    generateFrom startOctave startIndex keyWidth blackKeyWidth remaining i
                 currentX lastWhiteKeyX !! j = Some k ->
    let name := nth ((startIndex + (i + j)) mod 12) chromaticNotes ""%string in
    note k = fullNoteOf name (startOctave + (startIndex + (i + j)) / 12)
    /\ ((type k = "white"%string /\ In name whiteNotes /\ length (polygon k) = 8%nat)
        \/ (type k = "black"%string /\ ~ In name whiteNotes
            /\ length (polygon k) = 4%nat)).
Proof.
  induction remaining as [|n IH]; intros i currentX lastWhiteKeyX j k; [discriminate|].
  cbn [generateFrom]. cbv zeta.
  destruct j as [|j].
  - rewrite Nat.add_0_r.
    destruct (existsb _ whiteNotes) eqn:E; cbn [lookup list_lookup]; intros [= <-];
      cbn [note type polygon]; (split; [reflexivity|]).
    + left. split; [reflexivity|]. split; [|reflexivity].
      apply existsb_exists in E. destruct E as (w & Hw & Ew).
      apply String.eqb_eq in Ew. now rewrite Ew.
    + right. split; [reflexivity|]. split; [|reflexivity].
      intros Hin. apply not_true_iff_false in E. apply E, existsb_exists.
      eexists. split; [exact Hin | apply String.eqb_refl].
  - replace (i + S j)%nat with (S i + j)%nat by lia.
    destruct (existsb _ whiteNotes); cbn [lookup list_lookup]; apply IH.
Qed.

Lemma generateKeys_lookup (startOctave startIndex : nat) (numOctaves : Q)
    (i : nat) (k : Key) :
  generateKeys startOctave startIndex numOctaves !! i = Some k ->
  let name := nth ((startIndex + i) mod 12) chromaticNotes ""%string in
  note k = fullNoteOf name (startOctave + (startIndex + i) / 12)
  /\ ((type k = "white"%string /\ In name whiteNotes /\ length (polygon k) = 8%nat)
      \/ (type k = "black"%string /\ ~ In name whiteNotes
          /\ length (polygon k) = 4%nat)).
Proof.
  unfold generateKeys.
  destruct (totalKeysOf numOctaves <=? 0)%Z; [discriminate|].
  intros Hk. apply generateFrom_lookup in Hk. exact Hk.
Qed.

(** X26.  The keys of a generated layout ascend chromatically from the start
    note: key [i] is named after the chromatic note [i] semitones above the
    start note, with the octave number raised at each C; it is white with an
    eight-point polygon when that note is a natural, and black with a
    four-point polygon otherwise.  A start note whose name is not one of the
    twelve chromatic names stands for C3, and so does a start octave of 0 for
    octave 3. *)
Theorem generatePianoKeys_chromatic (startNote : string) (numOctaves : Q)
    (i : nat) (k : Key) :
  generatePianoKeys startNote numOctaves !! i = Some k ->
  let parsed :=
    match indexOf (stripTrailingDigits startNote) chromaticNotes 0 with
    | Some startIndex => (startOctaveOf startNote, startIndex)
    | None => (3%nat, 0%nat)
    end in
  let name := nth ((snd parsed + i) mod 12) chromaticNotes ""%string in
  note k = fullNoteOf name (fst parsed + (snd parsed + i) / 12)
  /\ ((type k = "white"%string /\ In name whiteNotes /\ length (polygon k) = 8%nat)
      \/ (type k = "black"%string /\ ~ In name whiteNotes /\ length (polygon k) = 4%nat)).
Proof.
  unfold generatePianoKeys.
  destruct (indexOf _ chromaticNotes 0) as [startIndex|]; cbn [fst snd];
    apply generateKeys_lookup.
Qed.

Lemma generatePianoKeys_chromatic_witness :
  exists k, generatePianoKeys "C3" (25 # 10) !! 18%nat = Some k
            /\ note k = "F#4"%string /\ type k = "black"%string.
Proof.
  destruct (generatePianoKeys "C3" (25 # 10) !! 18%nat) as [k|] eqn:E;
    [|vm_compute in E; discriminate E].
  destruct (generatePianoKeys_chromatic "C3" (25 # 10) 18 k E) as [Hnote Htype].
  exists k. split; [reflexivity|]. split; [exact Hnote|].
  destruct Htype as [(_ & Hwhite & _) | (Hblack & _)]; [|exact Hblack].
  exfalso. vm_compute in Hwhite. clear -Hwhite.
  repeat (destruct Hwhite as [Hwhite | Hwhite]; [discriminate Hwhite|]).
  exact Hwhite.
Defined.

Lemma boundingBox_rows (keys : list Key) (kb : Bounds) (lo hi : Q) :
  getKeysBoundingBox keys = Some kb ->
  (forall k p, In k keys -> In p (polygon k) -> lo <= snd p <= hi) ->
  (exists k p, In k keys /\ In p (polygon k) /\ snd p == lo) ->
  (exists k p, In k keys /\ In p (polygon k) /\ snd p == hi) ->
  minY kb == lo /\ height kb == hi - lo.
Proof.
  unfold getKeysBoundingBox. rewrite getKeysBoundingBox_flat.
  intros Hkb Hall (k1 & p1 & Hk1 & Hp1 & E1) (k2 & p2 & Hk2 & Hp2 & E2).
  pose proof (fold_extendBox_covers (allVertices keys) None) as Hcov.
  pose proof (fold_extendBox_touches (allVertices keys) None [] I) as Htouch.
  assert (Hvertex : forall k p, In k keys -> In p (polygon k) -> In p (allVertices keys)).
  { intros k p Hk Hp. unfold allVertices. apply in_flat_map. now exists k. }
  assert (Hback : forall p, In p (rev (allVertices keys) ++ []) ->
                            exists k, In k keys /\ In p (polygon k)).
  { intros p. rewrite app_nil_r, <- in_rev. unfold allVertices.
    rewrite in_flat_map. auto. }
  destruct (fold_left extendBox (allVertices keys) None)
    as [[[[x0 y0] x1] y1]|]; [|discriminate].
  injection Hkb as <-. cbn [minY height].
  pose proof (Hcov p1 (or_intror (Hvertex k1 p1 Hk1 Hp1))) as (_ & C1 & _).
  pose proof (Hcov p2 (or_intror (Hvertex k2 p2 Hk2 Hp2))) as (_ & _ & C2).
  simpl in Htouch. destruct Htouch as (_ & (a & Ha & Ea) & _ & (b & Hb & Eb)).
  apply Hback in Ha, Hb. destruct Ha as (ka & Hka & Hpa), Hb as (kb' & Hkb & Hpb).
  pose proof (Hall ka a Hka Hpa) as [La _].
  pose proof (Hall kb' b Hkb Hpb) as [_ Ub].
  split; lra.
Qed.

Lemma insideInline_rect_rows (x0 y0 x1 y1 tx ty : Q) :
  y0 < y1 -> insideInline tx ty (rect x0 y0 x1 y1) = true -> y0 <= ty < y1.
Proof.
  intros Hy. unfold insideInline, rect. simpl.
  rewrite (intersectInline_vertical tx ty x0 y0 y1).
  rewrite (intersectInline_horizontal tx ty x1 x0 y0).
  rewrite (intersectInline_vertical tx ty x1 y1 y0).
  rewrite (intersectInline_horizontal tx ty x0 x1 y1).
  rewrite (straddles_sym y1 y0).
  destruct (straddles y0 y1 ty) eqn:S; simpl; [|discriminate].
  intros _. now apply straddles_between.
Qed.

Lemma generateFrom_shapes (startOctave startIndex : nat) (keyWidth blackKeyWidth : Q)
    (k : Key) :
  forall (remaining i : nat) (currentX lastWhiteKeyX : Q),
    In k (generateFrom startOctave startIndex keyWidth blackKeyWidth remaining i
                       currentX lastWhiteKeyX) ->
    (type k = "white"%string /\ exists x, polygon k = whitePolygon x keyWidth)
    \/ (type k = "black"%string /\ exists x, polygon k = blackPolygon x blackKeyWidth).
Proof.
  induction remaining as [|n IH]; intros i currentX lastWhiteKeyX; [intros []|].
  cbn [generateFrom]. cbv zeta.
  destruct (existsb _ whiteNotes); (intros [<- | H]; [|exact (IH _ _ _ H)]).
  - left. split; [reflexivity|]. now eexists.
  - right. split; [reflexivity|]. now eexists.
Qed.

Lemma generatePianoKeys_shapes (startNote : string) (numOctaves : Q) :
  exists keyWidth blackKeyWidth,
    forall k, In k (generatePianoKeys startNote numOctaves) ->
      (type k = "white"%string /\ exists x, polygon k = whitePolygon x keyWidth)
      \/ (type k = "black"%string
          /\ exists x, polygon k = blackPolygon x blackKeyWidth).
Proof.
  exists (keyWidthOf (numWhiteKeysOf (totalKeysOf numOctaves))),
         (blackKeyWidthOf (keyWidthOf (numWhiteKeysOf (totalKeysOf numOctaves)))).
  intros k. unfold generatePianoKeys, generateKeys.
  destruct (indexOf _ chromaticNotes 0);
    (destruct (totalKeysOf numOctaves <=? 0)%Z; [intros []|]);
    apply generateFrom_shapes.
Qed.

Lemma startY_value : startY == 235.
Proof. reflexivity. Qed.

Lemma whitePolygon_rows (x keyWidth : Q) (p : point) :
  In p (whitePolygon x keyWidth) -> 235 <= snd p <= 475.
Proof.
  unfold whitePolygon. pose proof startY_value as E.
  assert (Hh : keyHeight == 250) by reflexivity.
  intros H. repeat (destruct H as [<- | H]; [simpl; lra|]). destruct H.
Qed.

Lemma blackPolygon_rows (x blackKeyWidth : Q) (p : point) :
  In p (blackPolygon x blackKeyWidth) -> 235 <= snd p <= 385.
Proof.
  unfold blackPolygon. pose proof startY_value as E.
  assert (Hh : blackKeyHeight == 150) by reflexivity.
  intros H. repeat (destruct H as [<- | H]; [simpl; lra|]). destruct H.
Qed.

(** X27.  On a generated layout the black keys win where they overlap the white
    keys.  When the separator line lies below 65 % of the layout height (it is
    at 68 % by default), every black key ends above the dead band; so a
    fingertip inside some black key's polygon is never assigned a white key:
    whatever key hit-testing selects for it is black. *)
Theorem generated_black_keys_win (cfg : Config) (startNote : string) (numOctaves : Q)
    (keysBounds : Bounds) (thumb : bool) (tx ty : Q) (b k : Key) (i : nat) :
  65 # 100 < redLinePosition cfg ->
  getKeysBoundingBox (generatePianoKeys startNote numOctaves) = Some keysBounds ->
  In b (generatePianoKeys startNote numOctaves) ->
  type b = "black"%string ->
  insideInline tx ty (polygon b) = true ->
  selectCandidate (collectFingerKeys (redBand cfg keysBounds) thumb tx ty
                                     (generatePianoKeys startNote numOctaves)) = Some i ->
  generatePianoKeys startNote numOctaves !! i = Some k ->
  type k = "black"%string.
Proof.
  intros Hline Hkb Hb Hblack Hinside Hsel Hk.
  destruct (generatePianoKeys_shapes startNote numOctaves) as (kw & bw & Hshape).
  set (keys := generatePianoKeys startNote numOctaves) in *.
  destruct (Hshape k) as [[Hwhite _] | [Hk' _]];
    [apply list_elem_of_In, list_elem_of_lookup; now exists i | | exact Hk'].
  exfalso.
  (* the layout has a white key: its box is 240 high from 235 *)
  assert (Hbox : minY keysBounds == 235 /\ height keysBounds == 475 - 235).
  { apply (boundingBox_rows keys); [exact Hkb | | |].
    - intros k0 p Hk0 Hp. destruct (Hshape k0 Hk0) as [[_ [x E]] | [_ [x E]]];
        rewrite E in Hp.
      + now apply whitePolygon_rows in Hp.
      + apply blackPolygon_rows in Hp. lra.
    - destruct (Hshape b Hb) as [[_ [x E]] | [_ [x E]]];
        exists b; eexists; (split; [exact Hb|]); rewrite E;
        (split; [left; reflexivity | reflexivity]).
    - assert (Hkin : In k keys)
        by (apply list_elem_of_In, list_elem_of_lookup; now exists i).
      destruct (Hshape k Hkin) as [[_ [x E]] | [Hbl _]].
      + exists k. eexists. split; [exact Hkin|]. rewrite E.
        split; [right; right; right; right; left; reflexivity | reflexivity].
      + rewrite Hwhite in Hbl. discriminate Hbl. }
  destruct Hbox as [Hmin Hheight].
  (* the finger is above the dead band *)
  assert (Hrow : ty < 385).
  { destruct (Hshape b Hb) as [[Hw _] | [_ [x E]]];
      [rewrite Hblack in Hw; discriminate Hw|].
    rewrite E in Hinside.
    assert (Hrect : blackPolygon x bw = rect x startY (x + bw) (startY + blackKeyHeight))
      by reflexivity.
    rewrite Hrect in Hinside. apply insideInline_rect_rows in Hinside; [|reflexivity].
    assert (Hb385 : startY + blackKeyHeight == 385) by reflexivity. lra. }
  assert (Habove : ty < upperRedBand (redBand cfg keysBounds)).
  { unfold redBand, RED_LINE_BUFFER. cbn [upperRedBand]. rewrite Hmin, Hheight.
    assert (240 * (65 # 100) < (475 - 235) * redLinePosition cfg) by lra. lra. }
  (* so only black keys are candidates *)
  apply selectCandidate_In in Hsel. unfold collectFingerKeys in Hsel.
  apply collectFrom_index in Hsel. destruct Hsel as (k' & _ & Hk'' & _ & Hpass).
  rewrite Nat.sub_0_r, Hk in Hk''. injection Hk'' as <-.
  apply (passesLineFilter_above _ _ _ (redBand_ordered cfg keys keysBounds Hkb) Habove)
    in Hpass.
  rewrite Hwhite in Hpass. discriminate Hpass.
Qed.

Lemma Forall_forall_In {A : Type} (P : A -> Prop) (l : list A) :
  List.Forall P l -> forall x, In x l -> P x.
Proof. intros H. now apply List.Forall_forall. Qed.

Lemma existsb_In (x : string) (l : list string) :
  existsb (String.eqb x) l = true -> In x l.
Proof.
  intros H. apply existsb_exists in H. destruct H as (y & Hy & E).
  apply String.eqb_eq in E. now subst.
Qed.

Lemma chromatic_sample (name : string) (octave : nat) :
  In name chromaticNotes -> (octave <= 7)%nat ->
  In (noteToAcousticPianoFormat (fullNoteOf name octave)) ALL_NOTES.
Proof.
  intros Hname Hoct.
  assert (Ho : In octave (seq 0 8)) by (apply in_seq; lia).
  clear Hoct. revert octave Ho name Hname.
  apply (Forall_forall_In
           (fun octave => forall name, In name chromaticNotes ->
              In (noteToAcousticPianoFormat (fullNoteOf name octave)) ALL_NOTES)).
  cbn [seq].
  repeat (apply List.Forall_cons;
          [apply (Forall_forall_In
                    (fun name => In (noteToAcousticPianoFormat (fullNoteOf name _))
                                    ALL_NOTES));
           unfold chromaticNotes;
           repeat (apply List.Forall_cons;
                   [apply existsb_In; vm_compute; reflexivity|]);
           apply List.Forall_nil|]).
  apply List.Forall_nil.
Qed.

(** X28.  Every key of a generated layout up to octave 7 has a sample: the
    name under which [tryPlayNote] looks its note up, [noteToAcousticPianoFormat]
    of the key's note, is one of the 96 names of [ALL_NOTES] that are
    preloaded.  (Keys of octave 8 and above, which a long layout reaches, are
    not covered: [ALL_NOTES] ends with octave 7.) *)
Theorem generated_keys_have_samples (startNote : string) (numOctaves : Q)
    (i : nat) (k : Key) :
  generatePianoKeys startNote numOctaves !! i = Some k ->
  let parsed :=
    match indexOf (stripTrailingDigits startNote) chromaticNotes 0 with
    | Some startIndex => (startOctaveOf startNote, startIndex)
    | None => (3%nat, 0%nat)
    end in
  (fst parsed + (snd parsed + i) / 12 <= 7)%nat ->
  In (noteToAcousticPianoFormat (note k)) ALL_NOTES.
Proof.
  unfold generatePianoKeys.
  destruct (indexOf _ chromaticNotes 0) as [startIndex|]; cbn [fst snd];
    intros Hk Hoct; apply generateKeys_lookup in Hk; destruct Hk as [-> _];
    (apply chromatic_sample; [|exact Hoct]); apply nth_In;
    apply Nat.mod_upper_bound; discriminate.
Qed.

Lemma generated_keys_have_samples_witness :
  In (noteToAcousticPianoFormat (note cSharp3)) ALL_NOTES.
Proof.
  apply (generated_keys_have_samples "C3" (25 # 10) 1 cSharp3).
  - vm_compute. reflexivity.
  - vm_compute. lia.
Defined.

Lemma generated_black_keys_win_witness : type cSharp3 = "black"%string.
Proof.
  apply (generated_black_keys_win default_config "C3" (25 # 10) defaultBounds false
           150 300 cSharp3 cSharp3 1).
  - reflexivity.
  - vm_compute. reflexivity.
  - vm_compute. right. left. reflexivity.
  - reflexivity.
  - vm_compute. reflexivity.
  - vm_compute. reflexivity.
  - vm_compute. reflexivity.
Defined.

(** ** Helpers of the layout extraction *)

Lemma iq_S (n : nat) : iq (S n) == iq n + 1.
Proof. unfold iq. rewrite Nat2Z.inj_succ, <- Z.add_1_r, inject_Z_plus. reflexivity. Qed.

Lemma equallySpacedPoints_lookup (p1 p2 : point) (n i : nat) :
  (i <= S n)%nat ->
  exists alpha,
    equallySpacedPoints p1 p2 (S (S n)) !! i
    = Some (Some (fst p1 * (1 - alpha) + fst p2 * alpha,
                  snd p1 * (1 - alpha) + snd p2 * alpha))
    /\ alpha == iq i / iq (S n).
Proof.
  intros Hi. unfold equallySpacedPoints.
  assert (Hd : ~ iq (S (S n)) - 1 == 0).
  { rewrite iq_S. pose proof (iq_pos (S n) (Nat.lt_0_succ n)). intros E. lra. }
  exists (iq i / (iq (S (S n)) - 1)). split.
  - rewrite list_lookup_fmap, lookup_seq_lt by lia. cbn [fmap option_fmap option_map].
    rewrite Nat.add_0_l, (jsdiv_finite _ _ Hd). reflexivity.
  - rewrite iq_S. apply Qmult_comp; [reflexivity|]. apply Qinv_comp. ring.
Qed.

(** X29.  [equallySpacedPoints(p1, p2, n)] returns [n] points.  For [n >= 2]
    they start at [p1], end at [p2] and are evenly spaced: the point of index
    [i] is [p1 + (i / (n - 1)) (p2 - p1)].  For [n = 1] the one point has
    [NaN] coordinates, the quotient being [0 / 0]. *)
Theorem equallySpacedPoints_even (p1 p2 : point) (n : nat) :
  length (equallySpacedPoints p1 p2 n) = n
  /\ equallySpacedPoints p1 p2 1 = [None]
  /\ forall i, (2 <= n)%nat -> (i < n)%nat ->
       exists q, equallySpacedPoints p1 p2 n !! i = Some (Some q)
                 /\ fst q == fst p1 + iq i / (iq n - 1) * (fst p2 - fst p1)
                 /\ snd q == snd p1 + iq i / (iq n - 1) * (snd p2 - snd p1)
                 /\ (i = 0%nat -> fst q == fst p1 /\ snd q == snd p1)
                 /\ (i = (n - 1)%nat -> fst q == fst p2 /\ snd q == snd p2).
Proof.
  split; [|split].
  - unfold equallySpacedPoints. now rewrite length_map, length_seq.
  - reflexivity.
  - intros i Hn Hi. destruct n as [|[|n]]; try lia.
    assert (Hi' : (i <= S n)%nat) by lia.
    destruct (equallySpacedPoints_lookup p1 p2 n i Hi') as (alpha & Hq & Ha).
    eexists. split; [exact Hq|]. cbn [fst snd].
    assert (Hpos : 0 < iq (S n)) by (apply iq_pos; lia).
    assert (Hden : iq (S (S n)) - 1 == iq (S n)) by (rewrite iq_S; ring).
    rewrite Hden, <- Ha.
    split; [ring|]. split; [ring|]. split.
    + intros ->. assert (E : alpha == 0) by (rewrite Ha; change (iq 0) with 0; unfold Qdiv; ring).
      rewrite E. split; ring.
    + intros ->. replace (S (S n) - 1)%nat with (S n) in Ha by lia.
      assert (E : alpha == 1) by (rewrite Ha; field; intros E; lra).
      rewrite E. split; ring.
Qed.

Lemma equallySpacedPoints_even_witness :
  exists q, equallySpacedPoints (0, 0) (30, 60) 4 !! 1%nat = Some (Some q)
            /\ fst q == 0 + iq 1 / (iq 4 - 1) * (30 - 0)
            /\ snd q == 0 + iq 1 / (iq 4 - 1) * (60 - 0)
            /\ (1%nat = 0%nat -> fst q == 0 /\ snd q == 0)
            /\ (1%nat = (4 - 1)%nat -> fst q == 30 /\ snd q == 60).
Proof.
  apply (proj2 (proj2 (equallySpacedPoints_even (0, 0) (30, 60) 4)) 1%nat); lia.
Defined.

Lemma fold_left_sumOver (f : nat -> Q) (l : list nat) (acc : Q) :
  fold_left (fun area i => area + f i) l acc == acc + sumOver f l.
Proof.
  revert acc. induction l as [|i l IH]; intros acc; simpl; [ring|].
  rewrite IH. ring.
Qed.

Lemma sumOver_ext (f g : nat -> Q) (l : list nat) :
  (forall i, In i l -> f i == g i) -> sumOver f l == sumOver g l.
Proof.
  induction l as [|i l IH]; intros H; simpl; [reflexivity|].
  rewrite (H i) by now left. rewrite IH; [reflexivity|].
  intros j Hj. apply H. now right.
Qed.

Lemma sumOver_plus (f g : nat -> Q) (l : list nat) :
  sumOver (fun i => f i + g i) l == sumOver f l + sumOver g l.
Proof. induction l as [|i l IH]; simpl; [ring|]. rewrite IH. ring. Qed.

Lemma sumOver_scale (c : Q) (f : nat -> Q) (l : list nat) :
  sumOver (fun i => c * f i) l == c * sumOver f l.
Proof. induction l as [|i l IH]; simpl; [ring|]. rewrite IH. ring. Qed.

Lemma sumOver_shift (f : nat -> Q) (start n : nat) :
  sumOver (fun i => f (S i)) (seq start n) == sumOver f (seq (S start) n).
Proof.
  revert start. induction n as [|n IH]; intros start; simpl; [reflexivity|].
  now rewrite IH.
Qed.

Lemma sumOver_snoc (f : nat -> Q) (n : nat) :
  sumOver f (seq 0 (S n)) == sumOver f (seq 0 n) + f n.
Proof.
  rewrite seq_S. unfold sumOver. rewrite fold_right_app. simpl.
  generalize (seq 0 n). intros l. induction l as [|i l IH]; simpl; [ring|].
  rewrite IH. ring.
Qed.

(** Going once round the polygon: the sum over the successors is the sum over
    the vertices. *)
Lemma sumOver_cyclic (g : nat -> Q) (n : nat) :
  sumOver (fun i => g ((i + 1) mod n)%nat) (seq 0 n) == sumOver g (seq 0 n).
Proof.
  destruct n as [|m]; [reflexivity|].
  rewrite sumOver_snoc.
  rewrite (sumOver_ext _ (fun i => g (S i)) (seq 0 m)).
  - replace ((m + 1) mod S m)%nat with 0%nat
      by (replace (m + 1)%nat with (S m) by lia; now rewrite Nat.Div0.mod_same).
    rewrite sumOver_shift. cbn [seq sumOver fold_right]. fold (sumOver g (seq 1 m)). ring.
  - intros i Hi. apply in_seq in Hi.
    rewrite Nat.mod_small by lia. now replace (i + 1)%nat with (S i) by lia.
Qed.

Lemma nth_shift (a b : Q) (pts : list point) (i : nat) :
  (i < length pts)%nat ->
  nth i (shift a b pts) (0, 0) = (fst (nth i pts (0, 0)) + a, snd (nth i pts (0, 0)) + b).
Proof.
  revert i. induction pts as [|p pts IH]; intros i Hi; simpl in Hi; [lia|].
  destruct i as [|i]; simpl; [reflexivity|]. apply IH. lia.
Qed.

Lemma shoelace_shift (a b : Q) (pts : list point) :
  sumOver (shoelaceTerm (shift a b pts)) (seq 0 (length pts))
  == sumOver (shoelaceTerm pts) (seq 0 (length pts)).
Proof.
  set (n := length pts).
  set (x := fun i => fst (nth i pts (0, 0))). set (y := fun i => snd (nth i pts (0, 0))).
  rewrite (sumOver_ext _
             (fun i => shoelaceTerm pts i
                       + (a * (y ((i + 1) mod n)%nat + - y i)
                          + b * (x i + - x ((i + 1) mod n)%nat)))).
  - rewrite sumOver_plus, sumOver_plus, !sumOver_scale, !sumOver_plus.
    rewrite (sumOver_cyclic y n).
    rewrite (sumOver_ext (fun i => - y i) (fun i => (-1) * y i)) by (intros; ring).
    rewrite (sumOver_ext (fun i => - x ((i + 1) mod n)%nat)
                         (fun i => (-1) * x ((i + 1) mod n)%nat)) by (intros; ring).
    rewrite !sumOver_scale, (sumOver_cyclic x n). ring.
  - intros i Hi. apply in_seq in Hi. unfold shoelaceTerm.
    assert (Hlen : length (shift a b pts) = n) by (unfold shift; now rewrite length_map).
    rewrite Hlen. fold n.
    assert (Hj : ((i + 1) mod n < n)%nat) by (apply Nat.mod_upper_bound; lia).
    rewrite !nth_shift by (fold n; lia). cbn [fst snd]. unfold x, y. ring.
Qed.

(** X30.  [polygonArea] is the shoelace area: it does not change when the
    polygon is moved, it is 0 for fewer than three points, and for an
    axis-aligned rectangle it is width times height. *)
Theorem polygonArea_shoelace (a b : Q) (pts : list point) (x0 y0 x1 y1 : Q) :
  polygonArea (shift a b pts) == polygonArea pts
  /\ ((length pts < 3)%nat -> polygonArea pts == 0)
  /\ polygonArea (rect x0 y0 x1 y1) == Qabs (x1 - x0) * Qabs (y1 - y0).
Proof.
  split; [|split].
  - unfold polygonArea.
    assert (Hlen : length (shift a b pts) = length pts)
      by (unfold shift; now rewrite length_map).
    rewrite Hlen, !fold_left_sumOver, shoelace_shift. reflexivity.
  - intros Hshort. unfold polygonArea. rewrite fold_left_sumOver.
    assert (E : 0 + sumOver (shoelaceTerm pts) (seq 0 (length pts)) == 0).
    { destruct pts as [|p [|q [|r pts]]]; simpl in Hshort; try lia;
        unfold shoelaceTerm; simpl; ring. }
    rewrite E. reflexivity.
  - unfold polygonArea. rewrite fold_left_sumOver.
    assert (E : 0 + sumOver (shoelaceTerm (rect x0 y0 x1 y1))
                            (seq 0 (length (rect x0 y0 x1 y1)))
                == 2 * ((x1 - x0) * (y1 - y0))).
    { unfold shoelaceTerm, rect. simpl. ring. }
    rewrite E, Qabs_Qmult, Qabs_Qmult. change (Qabs 2) with 2. field.
Qed.

Lemma getKeysBoundingBox_exact_witness :
  (forall k p, In k twoWhites -> In p (polygon k) ->
               minX twoWhitesBounds <= fst p <= maxX twoWhitesBounds
               /\ minY twoWhitesBounds <= snd p <= maxY twoWhitesBounds)
  /\ (exists p, In p (allVertices twoWhites) /\ fst p == minX twoWhitesBounds)
  /\ (exists p, In p (allVertices twoWhites) /\ snd p == minY twoWhitesBounds)
  /\ (exists p, In p (allVertices twoWhites) /\ fst p == maxX twoWhitesBounds)
  /\ (exists p, In p (allVertices twoWhites) /\ snd p == maxY twoWhitesBounds)
  /\ width twoWhitesBounds = maxX twoWhitesBounds - minX twoWhitesBounds
  /\ height twoWhitesBounds = maxY twoWhitesBounds - minY twoWhitesBounds
  /\ centerX twoWhitesBounds = (minX twoWhitesBounds + maxX twoWhitesBounds) / 2
  /\ centerY twoWhitesBounds = (minY twoWhitesBounds + maxY twoWhitesBounds) / 2.
Proof.
  apply (proj2 (getKeysBoundingBox_exact twoWhites) twoWhitesBounds).
  vm_compute. reflexivity.
Defined.

Lemma pressing_down_sustains_witness :
  has 2%nat (snd (processFinger default_config overlapping 6 indexFinger false 300 250
                                pressed [])) = true.
Proof.
  apply (pressing_down_sustains default_config overlapping 6 indexFinger false 300 250
                                pressed [] 2%nat).
  - vm_compute. reflexivity.
  - vm_compute. reflexivity.
  - vm_compute. reflexivity.
  - vm_compute. reflexivity.
Defined.

Lemma selected_key_is_nearest_witness :
  dist2 (160, 198) (getPolygonCenter (rect 0 0 200 300))
  <= dist2 (160, 198) (getPolygonCenter (rect 150 0 250 200)).
Proof.
  apply (selected_key_is_nearest
           (redBand default_config
              (default (mkBounds 0 0 0 0 0 0 0 0) (getKeysBoundingBox overlapping)))
           false 160 198 overlapping 0%nat (mkKey "C3" (rect 0 0 200 300) "white")
           eq_refl eq_refl 1%nat (mkKey "C#3" (rect 150 0 250 200) "black") eq_refl).
  vm_compute. right. left. reflexivity.
Defined.

Lemma stationary_finger_asserts_at_most_once_witness :
  (length (List.filter asserts
             (fingerOutputs default_config overlapping indexFinger false 300 240
                            [6; 8; 10; 12; 14; 16; 18; 20]%Z pressed)) <= 1)%nat.
Proof.
  apply (stationary_finger_asserts_at_most_once default_config overlapping indexFinger
           false 300 240 [6; 8; 10; 12; 14; 16; 18; 20]%Z pressed
           (mkPosition 300 240 4)).
  - vm_compute. discriminate.
  - vm_compute. discriminate.
  - vm_compute. reflexivity.
  - reflexivity.
  - reflexivity.
Defined.

Lemma limitKeys_keeps_two_of_the_set_witness :
  (forall k, In k (limitKeys 1280 720 noTransform overlapping [chord] chordKeys) ->
             In k chordKeys)
  /\ List.NoDup (limitKeys 1280 720 noTransform overlapping [chord] chordKeys)
  /\ length (limitKeys 1280 720 noTransform overlapping [chord] chordKeys)
     = Nat.min 2 (length chordKeys)
  /\ ((length chordKeys <= 2)%nat ->
      limitKeys 1280 720 noTransform overlapping [chord] chordKeys = chordKeys).
Proof.
  apply (limitKeys_keeps_two_of_the_set 1280 720 noTransform overlapping [chord] chordKeys).
  vm_compute. repeat constructor; simpl; lia.
Defined.

Lemma limitKeys_keeps_the_nearest_witness :
  nearerOrEqual
    (2%nat, fingerDistance2 1280 720 noTransform overlapping [chord] 2)
    (1%nat, fingerDistance2 1280 720 noTransform overlapping [chord] 1) = true.
Proof.
  apply (limitKeys_keeps_the_nearest 1280 720 noTransform overlapping [chord] chordKeys
           2%nat 1%nat).
  - vm_compute. left. reflexivity.
  - vm_compute. reflexivity.
  - vm_compute. left. reflexivity.
  - vm_compute. intros [H | [H | []]]; discriminate H.
Defined.

Lemma emitter_never_raises_on_a_fixed_layout_witness :
  Forall (fun events => is_Some events)
         (eventTrace 1280 720 noTransform default_config (session ++ handsAway)
                     initialEngine).
Proof.
  apply (emitter_never_raises_on_a_fixed_layout 1280 720 noTransform default_config
           overlapping (session ++ handsAway)).
  repeat constructor.
Defined.

Lemma hands_gone_releases_everything_witness :
  let e := runFrames 1280 720 noTransform default_config session initialEngine in
  smoothedActiveKeys (runFrames 1280 720 noTransform default_config handsAway e) = []
  /\ hoveredKeyIndices (runFrames 1280 720 noTransform default_config handsAway e) = []
  /\ currentlyHoveredNotes (runFrames 1280 720 noTransform default_config handsAway e)
     = []
  /\ forall n, In n (currentlyHoveredNotes e) ->
               exists events,
                 In (Some events)
                    (eventTrace 1280 720 noTransform default_config handsAway e)
                 /\ In (NoteOff n) events.
Proof.
  apply (hands_gone_releases_everything 1280 720 noTransform default_config overlapping).
  - discriminate.
  - vm_compute. lia.
  - reflexivity.
  - repeat constructor.
  - repeat constructor.
  - vm_compute. lia.
Defined.

Lemma asserted_keys_are_under_a_fingertip_witness :
  exists hand pt, In hand [chord] /\ In pt (allFingerPoints 1280 720 hand)
                  /\ fingerIn noTransform default_config overlapping pt 2.
Proof.
  apply (asserted_keys_are_under_a_fingertip 1280 720 noTransform default_config
           overlapping 4 [chord] entered 2%nat).
  vm_compute. left. reflexivity.
Defined.
Lemma drawAllKeys_once_white_first_witness :
  In (mkDrawCall 2 true) (drawAllKeys fiveKeys [2%nat])
  /\ exists k, fiveKeys !! 3%nat = Some k /\ type k = "black"%string.
Proof.
  assert (Hsplit : drawAllKeys fiveKeys [2%nat]
                   = [mkDrawCall 0 false; mkDrawCall 2 true; mkDrawCall 4 false]
                     ++ mkDrawCall 1 false :: [mkDrawCall 3 false])
    by (vm_compute; reflexivity).
  assert (Hblack : exists k, fiveKeys !! drawnIndex (mkDrawCall 1 false) = Some k
                             /\ type k = "black"%string)
    by (exists (mkKey "C#3" (rect 70 0 130 200) "black"); split; reflexivity).
  destruct (fiveKeys !! 2%nat) as [k2|] eqn:E2; [|discriminate E2].
  assert (Hpoly : polygon k2 <> []) by (injection E2 as <-; discriminate).
  assert (Htype : type k2 = "white"%string \/ type k2 = "black"%string)
    by (injection E2 as <-; now left).
  split.
  - exact (proj1 (drawAllKeys_once_white_first fiveKeys [2%nat]) 2%nat k2 E2 Hpoly Htype).
  - exact (proj2 (proj2 (proj2 (drawAllKeys_once_white_first fiveKeys [2%nat])))
                 _ _ _ Hsplit Hblack (mkDrawCall 3 false) (or_introl eq_refl)).
Defined.

Module TransformMetricInstances.
Import Transform.
Local Open Scope R_scope.

Lemma detection_then_display_witness :
let t := mkPianoTransform 2 10 20 30 true false in
let kb := Some (mkBoundsCenter 100 50) in
toScreenSpace 1280 720 t kb (transformPointForDetection 1280 720 t kb 640 360)
= (640, 360).
Proof.
apply (TransformMetric.detection_then_display
         1280 720 (mkPianoTransform 2 10 20 30 true false)
         (Some (mkBoundsCenter 100 50)) 640 360).
simpl. Lra.lra.
Defined.

Lemma detection_scales_distances_witness :
let t := mkPianoTransform 2 10 20 30 true false in
let p := transformPointForDetection 1280 720 t (Some (mkBoundsCenter 100 50)) 640 360 in
let q := transformPointForDetection 1280 720 t (Some (mkBoundsCenter 100 50)) 650 360 in
(fst p - fst q) * (fst p - fst q) + (snd p - snd q) * (snd p - snd q)
= ((640 - 650) * (640 - 650) + (360 - 360) * (360 - 360)) / (2 * 2).
Proof.
apply (TransformMetric.detection_scales_distances
         1280 720 (mkPianoTransform 2 10 20 30 true false)
         (mkBoundsCenter 100 50) 640 360 650 360).
simpl. Lra.lra.
Defined.
End TransformMetricInstances.

Lemma stabilizeLandmarks_blends_witness :
  exists hand,
    snd (stabilizeLandmarks (45 # 100) cachedHands detectedHands) !! 0%nat = Some hand
    /\ hand !! 1%nat
       = Some (blend (45 # 100) (mkLandmark (1 # 2) (1 # 2) 0) (mkLandmark (1 # 2) 1 0))
    /\ offsetScaled (1 - (45 # 100)) (mkLandmark (1 # 2) 1 0)
         (blend (45 # 100) (mkLandmark (1 # 2) (1 # 2) 0) (mkLandmark (1 # 2) 1 0))
         (mkLandmark (1 # 2) 1 0) (mkLandmark (1 # 2) (1 # 2) 0)
    /\ (0 <= 45 # 100 <= 1 ->
        between (mkLandmark (1 # 2) (1 # 2) 0)
          (blend (45 # 100) (mkLandmark (1 # 2) (1 # 2) 0) (mkLandmark (1 # 2) 1 0))
          (mkLandmark (1 # 2) 1 0)).
Proof.
  destruct (stabilizeLandmarks_blends (45 # 100) cachedHands detectedHands)
    as (_ & _ & _ & H).
  apply (H 0%nat [mkLandmark 1 1 0; mkLandmark (1 # 2) 1 0]
           [mkLandmark 0 0 0; mkLandmark (1 # 2) (1 # 2) 0] 1%nat);
    reflexivity.
Defined.

Lemma stabilizeRun_converges_witness :
  exists hand now,
    stabilizeRun (45 # 100) (repeat detectedHands 3) cachedHands !! 0%nat = Some hand
    /\ hand !! 0%nat = Some now
    /\ offsetScaled ((1 - (45 # 100)) ^ Z.of_nat 3) (mkLandmark 1 1 0) now
                    (mkLandmark 1 1 0) (mkLandmark 0 0 0).
Proof.
  apply (stabilizeRun_converges (45 # 100) detectedHands 0 0
           [mkLandmark 1 1 0; mkLandmark (1 # 2) 1 0] (mkLandmark 1 1 0)
           eq_refl eq_refl 3 cachedHands
           [mkLandmark 0 0 0; mkLandmark (1 # 2) (1 # 2) 0] (mkLandmark 0 0 0)
           eq_refl eq_refl).
Defined.

